(** * OpineDB in-memory engine ([opine_obj.py]): a shallow embedding

    The development follows the Python module top to bottom: the
    co-occurrence interpreter [CooccurInterpreter], then [SimpleOpine] with
    its phrase embedding, feature extractors, query interpreter and the
    ranking entry point [opine].

    Conventions.
    - A finite Python float is idealised as an exact rational ([Q]):
      rounding, overflow and underflow are outside the model. The numbers
      that [float()] reads from a query or from the attribute file, and
      the scores computed from them, are of type [pyfloat], which also
      has [inf], [-inf] and [nan]; the numbers of the data files
      (sentiments, idf weights, embeddings) and the probabilities of the
      classifiers are taken to be finite.
    - Library calls whose code is not part of the module (the gensim
      tokenizer and BM25 index, numpy's vector norm, the KD-tree query, the
      fitted scikit-learn classifiers, [math.exp], [math.log2], [float()] on
      strings, the VADER sentiment analyser) are fields of the record
      [imports] or of the object records.
    - The mutable attributes of the objects live in one [state] record that
      is threaded through an exception/state monad; a raised exception keeps
      the state reached so far, as in Python.
    - Vectors are lists; numpy's element-wise sum and dot product are
      modelled on arrays of one length (on others numpy raises).
    - [str.lower] is modelled on ASCII letters: it is the method of Python
      on the strings of ASCII characters ([ascii_only]). *)

From Stdlib Require Import Ascii QArith Qabs Qround Lia Permutation Sorted.
From stdpp Require Import gmap strings list.

(** ** Python built-ins used by the module *)

Module Py.

Inductive exn : Type :=
| KeyError
| ValueError
| ZeroDivisionError
| AttributeError
| IndexError
| TypeError
| OverflowError.

Inductive result (A : Type) : Type :=
| Ok (a : A)
| Err (e : exn).
Arguments Ok {A} a.
Arguments Err {A} e.

(** [c.lower()] for one character (ASCII letters only). *)
Definition lower_ascii (c : ascii) : ascii :=
  let n := Ascii.nat_of_ascii c in
  if (65 <=? n)%nat && (n <=? 90)%nat then Ascii.ascii_of_nat (n + 32) else c.

(** [s.lower()] on a string of ASCII characters. *)
Fixpoint lower (s : string) : string :=
  match s with
  | EmptyString => EmptyString
  | String c s' => String (lower_ascii c) (lower s')
  end.

(** [sep in s] for a one-character [sep]. *)
Fixpoint contains (sep : ascii) (s : string) : bool :=
  match s with
  | EmptyString => false
  | String c s' => if Ascii.eqb c sep then true else contains sep s'
  end.

(** [s.split(sep)] for a one-character [sep]: never empty, adjacent
    separators give empty fields. *)
Fixpoint split (sep : ascii) (s : string) : list string :=
  match s with
  | EmptyString => [EmptyString]
  | String c s' =>
      if Ascii.eqb c sep then EmptyString :: split sep s'
      else match split sep s' with
           | [] => [String c EmptyString]
           | f :: fs => String c f :: fs
           end
  end.

(** [x < y] and [x > 0] on floats. *)
Definition Qltb (x y : Q) : bool := negb (Qle_bool y x).

(** [x / y], raising [ZeroDivisionError] on a zero divisor. *)
Definition div (x y : Q) : result Q :=
  if Qeq_bool y 0 then Err ZeroDivisionError else Ok (x / y)%Q.

(** A Python float: a finite value, or one of [float('inf')],
    [float('-inf')] and [float('nan')]. *)
Inductive pyfloat : Type :=
| Finite (q : Q)
| PosInf
| NegInf
| NaN.

Bind Scope Q_scope with pyfloat.
Coercion Finite : Q >-> pyfloat.

(** [a < b], [a <= b] and [a == b]: every comparison with [nan] is false. *)
Definition flt (a b : pyfloat) : bool :=
  match a, b with
  | NaN, _ | _, NaN => false
  | Finite x, Finite y => Qltb x y
  | NegInf, NegInf => false
  | NegInf, _ => true
  | _, NegInf => false
  | PosInf, _ => false
  | _, PosInf => true
  end.

Definition fle (a b : pyfloat) : bool :=
  match a, b with
  | NaN, _ | _, NaN => false
  | Finite x, Finite y => Qle_bool x y
  | NegInf, _ => true
  | _, NegInf => false
  | _, PosInf => true
  | PosInf, _ => false
  end.

Definition feq (a b : pyfloat) : bool :=
  match a, b with
  | Finite x, Finite y => Qeq_bool x y
  | PosInf, PosInf | NegInf, NegInf => true
  | _, _ => false
  end.

(** [-a], [a + b], [a - b] and [a * b] *)
Definition fneg (a : pyfloat) : pyfloat :=
  match a with
  | Finite x => Finite (- x)
  | PosInf => NegInf
  | NegInf => PosInf
  | NaN => NaN
  end.

Definition fadd (a b : pyfloat) : pyfloat :=
  match a, b with
  | NaN, _ | _, NaN => NaN
  | Finite x, Finite y => Finite (x + y)
  | PosInf, NegInf | NegInf, PosInf => NaN
  | PosInf, _ | _, PosInf => PosInf
  | NegInf, _ | _, NegInf => NegInf
  end.

Definition fsub (a b : pyfloat) : pyfloat := fadd a (fneg b).

Definition fmul (a b : pyfloat) : pyfloat :=
  let signed (inf : pyfloat) (y : Q) : pyfloat :=
    if Qeq_bool y 0 then NaN else if Qltb 0 y then inf else fneg inf in
  match a, b with
  | NaN, _ | _, NaN => NaN
  | Finite x, Finite y => Finite (x * y)
  | Finite x, _ => signed b x
  | _, Finite y => signed a y
  | PosInf, PosInf | NegInf, NegInf => PosInf
  | PosInf, NegInf | NegInf, PosInf => NegInf
  end.

(** [a / b] on Python floats: a zero divisor raises whatever the
    dividend. *)
Definition fdiv (a b : pyfloat) : result pyfloat :=
  match b with
  | Finite y =>
      if Qeq_bool y 0 then Err ZeroDivisionError
      else match a with
           | Finite x => Ok (Finite (x / y))
           | NaN => Ok NaN
           | _ => Ok (if Qltb 0 y then a else fneg a)
           end
  | NaN => Ok NaN
  | _ => match a with
         | Finite _ => Ok (Finite 0)
         | _ => Ok NaN
         end
  end.

(** Insertion of [x] in front of the first element whose key is not
    smaller: the step of a stable sort that consumes its input from the
    right. *)
Fixpoint insert_by {A : Type} (x : Q * A) (l : list (Q * A)) : list (Q * A) :=
  match l with
  | [] => [x]
  | y :: l' => if Qltb (fst y) (fst x) then y :: insert_by x l' else x :: y :: l'
  end.

(** [sorted(l, key=...)] on the decorated list (key, element): ascending
    keys, equal keys keep their input order. *)
Definition sort_keyed {A : Type} (l : list (Q * A)) : list (Q * A) :=
  foldr insert_by [] l.

(** The same sort on float keys. With a [nan] among the keys [<] is no
    order and what [sorted] returns depends on the comparisons [list.sort]
    happens to make: this definition agrees with it when no key is [nan],
    and when no element is smaller than the one before it, where both
    return the list as it is. *)
Fixpoint insert_by_float {A : Type} (x : pyfloat * A) (l : list (pyfloat * A))
  : list (pyfloat * A) :=
  match l with
  | [] => [x]
  | y :: l' => if flt (fst y) (fst x) then y :: insert_by_float x l' else x :: y :: l'
  end.

Definition sort_keyed_float {A : Type} (l : list (pyfloat * A)) : list (pyfloat * A) :=
  foldr insert_by_float [] l.

(** [l[:n]] *)
Definition slice_to {A : Type} (n : nat) (l : list A) : list A := take n l.

End Py.
Export Py.

(** ** Data model *)

(** A numpy vector. *)
Definition vec : Type := list Q.

(** One marker of a summary: the dict with keys ['center'], ['verbalized'],
    ['sum_senti'] and ['size']. *)
Record marker : Type := Marker {
  marker_center : vec;
  marker_verbalized : string;
  marker_sum_senti : Q;
  marker_size : Q
}.

(** The value stored under a top-level key of an entity: an objective
    attribute is a string (['bool'], ['cate']) or a float (['num']); the
    keys ['histogram'] and ['summaries'] hold dicts. *)
Inductive pyval : Type :=
| VStr (s : string)
| VNum (f : pyfloat)
| VDict.

(** An entity of [self.entities]. A histogram maps an attribute to its
    phrase counter, kept in the order of the JSON file. *)
Record entity : Type := Entity {
  ent_histogram : option (gmap string (list (string * Q)));
  ent_summaries : option (gmap string (list marker));
  ent_fields : gmap string pyval
}.

(** [self.entities[bid][attr]], [None] when [attr not in self.entities[bid]]. *)
Definition entity_get (e : entity) (attr : string) : option pyval :=
  if bool_decide (attr = "histogram"%string) && bool_decide (is_Some (ent_histogram e)) then Some VDict
  else if bool_decide (attr = "summaries"%string) && bool_decide (is_Some (ent_summaries e)) then Some VDict
  else ent_fields e !! attr.

(** An extraction of a review and a review of the corpus. [review_text] is
    the value under ['text'], or under ['review'] when there is no ['text'];
    [review_sentiment] is the key ['sentiment'] that [__init__] assigns. *)
Record extraction : Type := Extraction {
  ext_attribute : string;
  ext_predicate : string;
  ext_entity : string
}.

Record review : Type := Review {
  review_id : string;
  review_text : string;
  review_sentiment : Q;
  review_extractions : list extraction
}.

(** The attributes of a [CooccurInterpreter] that are fixed once
    [__init__] returns; [cooc_bm25] is the tokenized corpus held by the
    BM25 index. *)
Record CooccurInterpreter : Type := MkCooccur {
  cooc_reviews : gmap string review;
  cooc_review_ids : list string;
  cooc_position_index : gmap string (gmap string (list nat));
  cooc_idf : gmap string Q;
  cooc_bm25 : list (list string)
}.

(** The schema entry [self.obj_attrs[attr]]. *)
Record obj_attr : Type := ObjAttr {
  attr_type : string;
  attr_values : option (list string);
  attr_range : option (pyfloat * pyfloat)
}.

(** A decomposed objective predicate [(atype, attr, op, oprand)]. *)
Definition obj_pred : Type := (string * string * string * string)%type.

(** A key of [self.membership_cache]: the 3-tuple [(bid, attr_name, qterm)]
    (last component [None]) or the 4-tuple that also holds [obj_pred]
    (last component [Some p], where [p = None] is Python's [None]). *)
Definition mkey : Type := (string * string * string * option (option obj_pred))%type.

(** The attributes of a [SimpleOpine] that are fixed once [__init__]
    returns. [entity_ids] is the key order of [self.entities]; [kd_tree v]
    is [self.kd_tree.query([v], k=1)[1][0][0]]; a classifier maps a feature
    row to the positive-class probability, [None] when scikit-learn rejects
    the row. *)
Record SimpleOpine : Type := MkOpine {
  entity_ids : list string;
  obj_attrs : gmap string obj_attr;
  cate_to_id : gmap string nat;
  phrase_sentiments : gmap string Q;
  model_wv : gmap string vec;
  idf : gmap string Q;
  all_phrases : list (string * string);
  kd_tree : vec -> nat;
  cooc : CooccurInterpreter;
  phrase_model : list pyfloat -> option Q;
  marker_model : list pyfloat -> option Q
}.

(** A call of an external collaborator, recorded so that invocations can
    be counted: [CooccurInterpreter.interpret], [bm25.get_scores] and
    [predict_proba]. *)
Inductive call : Type :=
| CallCooc (qterm : string)
| CallBM25 (tokens : list string)
| CallPredict (features : list pyfloat).

(** The mutable attributes: the entity catalog (its marker lists are Python
    lists, shared with whoever reads them), the three caches of
    [SimpleOpine], the cache of its [CooccurInterpreter], and the call log. *)
Record state : Type := State {
  entities : gmap string entity;
  phrase2vec_cache : gmap string vec;
  membership_cache : gmap mkey Q;
  interpret_cache : gmap string (string * string);
  cooc_interpret_cache : gmap string (option (string * string));
  calls : list call
}.

(** ** The exception/state monad *)

Definition M (A : Type) : Type := state -> result A * state.

Definition ret {A} (a : A) : M A := fun s => (Ok a, s).

Definition bind {A B} (m : M A) (k : A -> M B) : M B :=
  fun s => match m s with
           | (Ok a, s') => k a s'
           | (Err e, s') => (Err e, s')
           end.

Definition raise {A} (e : exn) : M A := fun s => (Err e, s).

Definition get : M state := fun s => (Ok s, s).

Definition modify (f : state -> state) : M unit := fun s => (Ok tt, f s).

(** A pure computation that may raise. *)
Definition lift {A} (r : result A) : M A := fun s => (r, s).

(** [d[k]], raising [KeyError]. *)
Definition getitem {A} (o : option A) : result A :=
  match o with Some a => Ok a | None => Err KeyError end.

Notation "'let*' x ':=' m 'in' k" := (bind m (fun x => k))
  (at level 10, x pattern, m at level 200, k at level 200).

(** [for x in l: acc = f acc x] *)
Fixpoint for_fold {A B} (f : B -> A -> M B) (l : list A) (acc : B) : M B :=
  match l with
  | [] => ret acc
  | x :: l' => let* acc' := f acc x in for_fold f l' acc'
  end.

(** The same loop for a body that only raises. *)
Fixpoint fold_result {A B} (f : B -> A -> result B) (l : list A) (acc : B) : result B :=
  match l with
  | [] => Ok acc
  | x :: l' => match f acc x with
               | Ok acc' => fold_result f l' acc'
               | Err e => Err e
               end
  end.

(** [[f x for x in l]] for an [f] that may raise. *)
Fixpoint map_result {A B} (f : A -> result B) (l : list A) : result (list B) :=
  match l with
  | [] => Ok []
  | x :: l' => match f x with
               | Ok y => match map_result f l' with
                         | Ok ys => Ok (y :: ys)
                         | Err e => Err e
                         end
               | Err e => Err e
               end
  end.

(** Assignment to one attribute of the state. *)
Definition set_entities (f : gmap string entity -> gmap string entity) (s : state) : state :=
  State (f (entities s)) (phrase2vec_cache s) (membership_cache s)
        (interpret_cache s) (cooc_interpret_cache s) (calls s).

Definition set_phrase2vec_cache (f : gmap string vec -> gmap string vec) (s : state) : state :=
  State (entities s) (f (phrase2vec_cache s)) (membership_cache s)
        (interpret_cache s) (cooc_interpret_cache s) (calls s).

Definition set_membership_cache (f : gmap mkey Q -> gmap mkey Q) (s : state) : state :=
  State (entities s) (phrase2vec_cache s) (f (membership_cache s))
        (interpret_cache s) (cooc_interpret_cache s) (calls s).

Definition set_interpret_cache
    (f : gmap string (string * string) -> gmap string (string * string)) (s : state) : state :=
  State (entities s) (phrase2vec_cache s) (membership_cache s)
        (f (interpret_cache s)) (cooc_interpret_cache s) (calls s).

Definition record_call (c : call) (s : state) : state :=
  State (entities s) (phrase2vec_cache s) (membership_cache s)
        (interpret_cache s) (cooc_interpret_cache s) (calls s ++ [c]).

(** The keys of a dict filled in the order of [l]: each key at the place of
    its first occurrence. *)
Definition keys_in_order (l : list string) : list string :=
  foldl (fun keys k => if bool_decide (k ∈ keys) then keys else keys ++ [k]) [] l.

(** [enumerate(l)] *)
Definition enumerate {A} (l : list A) : list (nat * A) := imap (fun i x => (i, x)) l.

(** A dict that is iterated in insertion order: [d[k]] and [d[k] = v]. *)
Fixpoint assoc_get {A} (k : string) (d : list (string * A)) : option A :=
  match d with
  | [] => None
  | (k', v) :: d' => if String.eqb k k' then Some v else assoc_get k d'
  end.

Fixpoint assoc_set {A} (k : string) (v : A) (d : list (string * A)) : list (string * A) :=
  match d with
  | [] => [(k, v)]
  | (k', v') :: d' => if String.eqb k k' then (k, v) :: d' else (k', v') :: assoc_set k v d'
  end.

(** The library functions the module imports. *)
Record imports : Type := Imports {
  (** [gensim.utils.simple_preprocess] *)
  gensim_simple_preprocess : string -> list string;
  (** [BM25(corpus).get_scores(tokens)[i]] *)
  gensim_bm25_get_scores : list (list string) -> list string -> nat -> Q;
  (** [SentimentIntensityAnalyzer().polarity_scores(text)['compound']] *)
  vader_compound : string -> Q;
  (** [math.log2] *)
  py_log2 : Q -> Q;
  (** [np.linalg.norm] *)
  numpy_norm : vec -> Q;
  (** [math.exp], [None] for [OverflowError] *)
  py_exp : Q -> option Q;
  (** [float(s)] on a string, [None] for [ValueError]; the strings
      ['nan'], ['inf'] and the like give the special values *)
  py_float : string -> option pyfloat
}.

Section Engine.

Variable lib : imports.

Local Abbreviation simple_preprocess := (gensim_simple_preprocess lib).
Local Abbreviation bm25_get_scores := (gensim_bm25_get_scores lib).
Local Abbreviation polarity_compound := (vader_compound lib).
Local Abbreviation math_log2 := (py_log2 lib).
Local Abbreviation np_norm := (numpy_norm lib).
Local Abbreviation math_exp := (py_exp lib).
Local Abbreviation float_of_str := (py_float lib).

(** *** class CooccurInterpreter *)

(** The inner loop of [build_index] over [enumerate(tokens)]. *)
Definition index_positions (tokens : list string) : gmap string (list nat) :=
  foldl (fun idx '(pos, token) =>
           match idx !! token with
           | None => <[token := [pos]]> idx
           | Some ps => <[token := ps ++ [pos]]> idx
           end) ∅ (enumerate tokens).

(** The loop of [build_index] over the extractions of one review:
    occurrence count per attribute and the running [total]. *)
Definition count_attributes (exts : list extraction) (acc : gmap string Q * Q)
  : gmap string Q * Q :=
  foldl (fun '(cnt, total) ext =>
           let attr := ext_attribute ext in
           (match cnt !! attr with
            | None => <[attr := 1%Q]> cnt
            | Some n => <[attr := (n + 1)%Q]> cnt
            end, (total + 1)%Q)) acc exts.

(** [CooccurInterpreter.__init__]: the dict comprehension keeps the last
    review of an id at the position of the first. The index is kept as the
    tokenized corpus; [BM25] itself divides by the number of documents and
    raises on an empty list of reviews, so the definition stands for the
    constructor on the lists that hold a review. *)
Definition CooccurInterpreter_init (reviews : list review) : CooccurInterpreter :=
  let by_id : gmap string review :=
    foldl (fun d r => <[review_id r := r]> d) ∅ reviews in
  let ids : list string := keys_in_order (map review_id reviews) in
  let scored : gmap string review :=
    (fun r => Review (review_id r) (review_text r)
                     (polarity_compound (review_text r)) (review_extractions r)) <$> by_id in
  let texts : list review := omap (fun rid => scored !! rid) ids in
  let corpus := map (fun r => simple_preprocess (lower (review_text r))) texts in
  let pidx : gmap string (gmap string (list nat)) :=
    foldl (fun d r => <[review_id r := index_positions (simple_preprocess (lower (review_text r)))]> d)
          ∅ texts in
  let '(cnt, total) :=
    foldl (fun acc r => count_attributes (review_extractions r) acc) (∅, 0%Q) texts in
  MkCooccur scored ids pidx ((fun n => math_log2 (total / n)%Q) <$> cnt) corpus.

(** [get_dist]: [-1] when one of the phrases has no token in the review. *)
Definition get_dist (position_index : gmap string (list nat)) (phrase1 phrase2 : string) : Z :=
  let tokens1 := simple_preprocess (lower phrase1) in
  let tokens2 := simple_preprocess (lower phrase2) in
  let positions tokens :=
    foldl (fun ps token => match position_index !! token with
                           | Some l => ps ++ l
                           | None => ps
                           end) [] tokens in
  foldl (fun result p1 =>
           foldl (fun result p2 =>
                    let d := Z.abs (Z.of_nat p1 - Z.of_nat p2) in
                    if (result <? 0)%Z || (d <? result)%Z then d else result)
                 result (positions tokens2))
        (-1)%Z (positions tokens1).

(** One round of the loop over the extractions of a retained review, on
    [(min_dist, min_dist_phrase, min_dist_attr)]. *)
Definition closer (self : CooccurInterpreter) (rid qterm : string)
    (acc : Z * string * option string) (ext : extraction)
  : result (Z * string * option string) :=
  let '(min_dist, min_dist_phrase, min_dist_attr) := acc in
  let phrase := (ext_predicate ext +:+ " " +:+ ext_entity ext)%string in
  match getitem (cooc_position_index self !! rid) with
  | Err e => Err e
  | Ok pidx =>
      let dist := get_dist pidx phrase qterm in
      if (0 <=? dist)%Z && ((min_dist <? 0)%Z || (dist <? min_dist)%Z)
      then Ok (dist, phrase, Some (ext_attribute ext))
      else Ok (min_dist, min_dist_phrase, min_dist_attr)
  end.

(** The loop over the extractions of one retained review. *)
Definition closest_extraction (self : CooccurInterpreter) (rid qterm : string)
    (extractions : list extraction) : result (Z * string * option string) :=
  fold_result (closer self rid qterm) extractions ((-1)%Z, ""%string, None).

(** The body of the loop over [sorted_review_ids[:10]]: the two dicts
    [attribute_scores] and [represented_phrases]. *)
Definition vote (self : CooccurInterpreter) (qterm : string) (score_mp : gmap string Q)
    (acc : list (string * Q) * gmap string string) (rid : string)
  : result (list (string * Q) * gmap string string) :=
  let '(attribute_scores, represented_phrases) := acc in
  match getitem (score_mp !! rid) with
  | Err e => Err e
  | Ok s =>
      if Qle_bool s 0 then Ok acc
      else match getitem (cooc_reviews self !! rid) with
           | Err e => Err e
           | Ok r =>
               match closest_extraction self rid qterm (review_extractions r) with
               | Err e => Err e
               | Ok (_, min_dist_phrase, None) => Ok acc
               | Ok (_, min_dist_phrase, Some min_dist_attr) =>
                   match assoc_get min_dist_attr attribute_scores with
                   | None => Ok (assoc_set min_dist_attr 1%Q attribute_scores,
                                 <[min_dist_attr := min_dist_phrase]> represented_phrases)
                   | Some n => Ok (assoc_set min_dist_attr (n + 1)%Q attribute_scores,
                                   represented_phrases)
                   end
               end
           end
  end.

(** One round of the final loop, on [(best_attr_score, best_attr)]. *)
Definition better (self : CooccurInterpreter) (acc : Q * option string)
    (entry : string * Q) : result (Q * option string) :=
  let (best_attr_score, best_attr) := acc in
  let (attr, n) := entry in
  match getitem (cooc_idf self !! attr) with
  | Err e => Err e
  | Ok w =>
      let weighted := (n * w)%Q in
      if Qltb best_attr_score weighted then Ok (weighted, Some attr)
      else Ok (best_attr_score, best_attr)
  end.

(** The final loop over the attributes in the order of their first vote. *)
Definition best_attribute (self : CooccurInterpreter) (attribute_scores : list (string * Q))
  : result (Q * option string) :=
  fold_result (better self) attribute_scores (0%Q, None).

(** One round of the loop that fills [score_mp]. *)
Definition score_review (self : CooccurInterpreter) (scores : nat -> Q)
    (score_mp : gmap string Q) (entry : nat * string) : result (gmap string Q) :=
  let (i, rid) := entry in
  if Qltb 0 (scores i)
  then match getitem (cooc_reviews self !! rid) with
       | Err e => Err e
       | Ok r => Ok (<[rid := (scores i * review_sentiment r)%Q]> score_mp)
       end
  else Ok (<[rid := 0%Q]> score_mp).

(** [score_mp]: relevance times sentiment for the reviews the BM25 index
    scores above zero. *)
Definition review_scores (self : CooccurInterpreter) (scores : nat -> Q)
  : result (gmap string Q) :=
  fold_result (score_review self scores) (enumerate (cooc_review_ids self)) ∅.

(** [sorted(self.review_ids, key=lambda x : -score_mp[x])] *)
Definition sort_reviews (self : CooccurInterpreter) (score_mp : gmap string Q)
  : result (list string) :=
  match map_result (fun rid => match getitem (score_mp !! rid) with
                               | Ok s => Ok ((- s)%Q, rid)
                               | Err e => Err e
                               end) (cooc_review_ids self) with
  | Ok keyed => Ok (map snd (sort_keyed keyed))
  | Err e => Err e
  end.

(** The votes of the retained reviews. *)
Definition collect_votes (self : CooccurInterpreter) (qterm : string) (scores : nat -> Q)
  : result (list (string * Q) * gmap string string) :=
  match review_scores self scores with
  | Err e => Err e
  | Ok score_mp =>
      match sort_reviews self score_mp with
      | Err e => Err e
      | Ok sorted_review_ids =>
          fold_result (vote self qterm score_mp) (slice_to 10 sorted_review_ids) ([], ∅)
      end
  end.

(** [CooccurInterpreter.interpret]; [None] is the pair [(None, None)]. *)
Definition cooc_interpret (self : CooccurInterpreter) (qterm : string)
  : M (option (string * string)) :=
  let* _ := modify (record_call (CallCooc qterm)) in
  let* st := get in
  match cooc_interpret_cache st !! qterm with
  | Some cached => ret cached
  | None =>
      let tokens := simple_preprocess qterm in
      let* _ := modify (record_call (CallBM25 tokens)) in
      let scores := bm25_get_scores (cooc_bm25 self) tokens in
      let* (attribute_scores, represented_phrases) := lift (collect_votes self qterm scores) in
      let* (_, best_attr) := lift (best_attribute self attribute_scores) in
      match best_attr with
      | None => ret None
      | Some attr =>
          let* phrase := lift (getitem (represented_phrases !! attr)) in
          ret (Some (attr, phrase))
      end
  end.

(** *** class SimpleOpine: vectors and features *)

(** [np.zeros(n)], [v * k], [a + b], [v / k] and [np.dot(a, b)]. On two
    arrays of different lengths numpy raises [ValueError] (an array of
    length 1 apart, which it broadcasts), where [vadd] and [dot] stop at
    the end of the shorter one: the definitions stand for numpy's on arrays
    of one length, and the properties of the vectors assume that the
    embeddings, the cached vectors and the marker centers all have 300
    entries. *)
Definition zeros (n : nat) : vec := replicate n 0%Q.
Definition vscale (v : vec) (k : Q) : vec := map (fun x => (x * k)%Q) v.
Definition vadd (a b : vec) : vec := zip_with Qplus a b.
Definition vdiv (v : vec) (k : Q) : vec := map (fun x => (x / k)%Q) v.
Definition dot (a b : vec) : Q := foldr Qplus 0%Q (zip_with Qmult a b).

(** The loop of [phrase2vec] over the tokens: the idf-weighted sum. *)
Definition weighted_sum (self : SimpleOpine) (words : list string) : result vec :=
  fold_result
    (fun res w =>
       match model_wv self !! w with
       | Some wvec =>
           match getitem (idf self !! w) with
           | Ok weight => Ok (vadd res (vscale wvec weight))
           | Err e => Err e
           end
       | None => Ok res
       end)
    words (zeros 300).

(** [res /= norm] when [norm > 0]. *)
Definition normalize (res : vec) : vec :=
  let norm := np_norm res in
  if Qltb 0 norm then vdiv res norm else res.

(** [SimpleOpine.phrase2vec] *)
Definition phrase2vec (self : SimpleOpine) (phrase : string) : M vec :=
  let* st := get in
  match phrase2vec_cache st !! phrase with
  | Some cached => ret cached
  | None =>
      let words := simple_preprocess phrase in
      let* res := lift (weighted_sum self words) in
      let res := normalize res in
      let* _ := modify (set_phrase2vec_cache (insert phrase res)) in
      ret res
  end.

(** [SimpleOpine.cosine] *)
Definition cosine (vec1 vec2 : vec) : Q :=
  let norm1 := np_norm vec1 in
  let norm2 := np_norm vec2 in
  if Qltb 0 norm1 && Qltb 0 norm2 then (dot vec1 vec2 / norm1 / norm2)%Q else 0%Q.

(** [value.lower()] on the value of an entity field. *)
Definition pyval_lower (value : pyval) : result string :=
  match value with
  | VStr s => Ok (lower s)
  | _ => Err AttributeError
  end.

(** [float(value)] on the value of an entity field. *)
Definition pyval_float (value : pyval) : result pyfloat :=
  match value with
  | VStr s => match float_of_str s with Some f => Ok f | None => Err ValueError end
  | VNum f => Ok f
  | VDict => Err TypeError
  end.

(** [float(oprand)] *)
Definition str_float (s : string) : result pyfloat :=
  match float_of_str s with Some f => Ok f | None => Err ValueError end.

(** [value != oprand] for a string [oprand]. *)
Definition pyval_ne (value : pyval) (oprand : string) : bool :=
  match value with
  | VStr s => negb (String.eqb s oprand)
  | _ => true
  end.

(** [self.cate_to_id[value]] *)
Definition cate_id (self : SimpleOpine) (value : pyval) : result nat :=
  match value with
  | VStr s => getitem (cate_to_id self !! s)
  | VNum _ => Err KeyError
  | VDict => Err TypeError
  end.

(** [l[i] += d] *)
Definition list_add_at (l : list Q) (i : nat) (d : Q) : result (list Q) :=
  match l !! i with
  | Some x => Ok (<[i := (x + d)%Q]> l)
  | None => Err IndexError
  end.

(** [self.obj_attrs[attr]['range']] *)
Definition attr_range_of (self : SimpleOpine) (attr : string) : result (pyfloat * pyfloat) :=
  match getitem (obj_attrs self !! attr) with
  | Ok a => getitem (attr_range a)
  | Err e => Err e
  end.

(** [SimpleOpine.get_features_obj]; the two numeric features are floats
    computed from [float(value)] and [float(oprand)]. *)
Definition get_features_obj (self : SimpleOpine)
    (atype : string) (value : pyval) (attr op oprand : string) : result (list pyfloat) :=
  let bool_feature : result (list Q) :=
    if String.eqb atype "bool" then
      match pyval_lower value with
      | Ok v => Ok [if negb (String.eqb (lower oprand) v) then 1%Q else 0%Q]
      | Err e => Err e
      end
    else Ok [0%Q] in
  let cate_list : result (list Q) :=
    let blank := replicate (size (cate_to_id self)) 0%Q in
    if String.eqb atype "cate" then
      match cate_id self value with
      | Err e => Err e
      | Ok i =>
          match list_add_at blank i 1%Q with
          | Err e => Err e
          | Ok l => match getitem (cate_to_id self !! oprand) with
                    | Err e => Err e
                    | Ok j => list_add_at l j (-1)%Q
                    end
          end
      end
    else Ok blank in
  let num_features : result (list pyfloat) :=
    if String.eqb atype "num" then
      match pyval_float value with
      | Err e => Err e
      | Ok value =>
          match str_float oprand with
          | Err e => Err e
          | Ok oprand =>
              let abs_diff := if String.eqb op "<" then fsub value oprand else fsub oprand value in
              match attr_range_of self attr with
              | Err e => Err e
              | Ok (lo, hi) =>
                  match fdiv abs_diff (fadd (fsub hi lo) (Finite 1)) with
                  | Ok rel_diff => Ok [abs_diff; rel_diff]
                  | Err e => Err e
                  end
              end
          end
      end
    else Ok [Finite 0; Finite 0] in
  match bool_feature with
  | Err e => Err e
  | Ok b => match cate_list with
            | Err e => Err e
            | Ok c => match num_features with
                      | Err e => Err e
                      | Ok n => Ok (map Finite b ++ map Finite c ++ n)
                      end
            end
  end.

(** The local counters of [get_features_phrases]. *)
Record phrase_counters : Type := Counters {
  sim_count : Q; count2 : Q; sent_sum : Q; sent_sum2 : Q;
  pos_count : Q; neg_count : Q; pos_match_count : Q; neg_match_count : Q;
  sum_phrases : vec
}.

(** One round of the loop of [get_features_phrases]. *)
Definition count_phrase (self : SimpleOpine) (qvec : vec) (c : phrase_counters)
    (item : string * Q) : M phrase_counters :=
  let (phrase, n) := item in
  let* pvec := phrase2vec self phrase in
  let* senti := lift (getitem (phrase_sentiments self !! phrase)) in
  let similar := Qltb 0.8 (cosine qvec pvec) in
  let positive := Qle_bool 0 senti in
  ret (Counters
         (if similar then (sim_count c + n)%Q else sim_count c)
         (count2 c + n)%Q
         (if similar then (sent_sum c + n * senti)%Q else sent_sum c)
         (sent_sum2 c + n * senti)%Q
         (if positive then (pos_count c + n)%Q else pos_count c)
         (if positive then neg_count c else (neg_count c + n)%Q)
         (if similar && positive then (pos_match_count c + n)%Q else pos_match_count c)
         (if similar && negb positive then (neg_match_count c + n)%Q else neg_match_count c)
         (vadd (sum_phrases c) (vscale pvec n))).

(** [SimpleOpine.get_features_phrases] *)
Definition get_features_phrases (self : SimpleOpine) (histogram : list (string * Q))
    (qterm : string) : M (list Q) :=
  let* qvec := phrase2vec self qterm in
  let* c := for_fold (count_phrase self qvec) histogram
              (Counters 1 1 0 0 0 0 0 0 (zeros 300)) in
  let* mean_sim := lift (div (sent_sum c) (sim_count c)) in
  let* mean_all := lift (div (sent_sum2 c) (count2 c)) in
  ret [sim_count c; mean_sim; mean_all; pos_count c; neg_count c;
       pos_match_count c; neg_match_count c; cosine qvec (sum_phrases c)].

(** The sort key of a marker, [x['sum_senti'] / (x['size'] + 1)]. *)
Definition mean_senti (m : marker) : result Q :=
  div (marker_sum_senti m) (marker_size m + 1)%Q.

(** [summary.sort(key=...)]: the keys are computed first, so a key that
    raises leaves the list as it was. *)
Definition sort_summary (summary : list marker) : result (list marker) :=
  match map_result (fun m => match mean_senti m with
                             | Ok k => Ok (k, m)
                             | Err e => Err e
                             end) summary with
  | Ok keyed => Ok (map snd (sort_keyed keyed))
  | Err e => Err e
  end.

(** The five features of one marker. *)
Definition marker_features (qvec : vec) (m : marker) : result (list Q) :=
  let similarity := cosine (marker_center m) qvec in
  match mean_senti m with
  | Ok mean => Ok [marker_sum_senti m; marker_size m; mean; similarity; (mean * similarity)%Q]
  | Err e => Err e
  end.

(** [self.entities[bid]['summaries'][attr_name]] *)
Definition summary_of (ents : gmap string entity) (bid attr_name : string)
  : result (list marker) :=
  match getitem (ents !! bid) with
  | Err e => Err e
  | Ok e => match getitem (ent_summaries e) with
            | Err e => Err e
            | Ok sm => getitem (sm !! attr_name)
            end
  end.

(** The effect of sorting that list object in place. *)
Definition store_summary (bid attr_name : string) (summary : list marker)
    (ents : gmap string entity) : gmap string entity :=
  alter (fun e => Entity (ent_histogram e)
                         (insert attr_name summary <$> ent_summaries e)
                         (ent_fields e)) bid ents.

(** [SimpleOpine.get_features_summary]. The argument [summary] is the
    list object [self.entities[bid]['summaries'][attr_name]] itself (both
    call sites pass it), named here by [(bid, attr_name)]; the method sorts
    it in place. *)
Definition get_features_summary (self : SimpleOpine) (bid attr_name : string)
    (qterm : string) (num_markers : nat) : M (list Q) :=
  let* qvec := phrase2vec self qterm in
  let* st := get in
  let* summary := lift (summary_of (entities st) bid attr_name) in
  let* sorted := lift (sort_summary summary) in
  let* _ := modify (set_entities (store_summary bid attr_name sorted)) in
  let* X := lift (fold_result (fun X m => match marker_features qvec m with
                                          | Ok f => Ok (X ++ f)
                                          | Err e => Err e
                                          end) sorted []) in
  ret (X ++ mjoin (replicate (num_markers - length sorted) (replicate 5 0%Q))).

(** *** class SimpleOpine: interpretation *)

(** The nearest-neighbour stage of [interpret]: the catalogued phrase
    closest to the term, its similarity to the term, and the number of
    tokens of the term. *)
Definition nearest_phrase (self : SimpleOpine) (query_term : string)
  : M ((string * string) * Q * nat) :=
  let query_len := length (simple_preprocess query_term) in
  let* vector := phrase2vec self query_term in
  let phrase_id := kd_tree self vector in
  let* res := lift (match all_phrases self !! phrase_id with
                    | Some r => Ok r
                    | None => Err IndexError
                    end) in
  let phrase := snd res in
  let* phrase_vec := phrase2vec self phrase in
  let similarity := cosine phrase_vec vector in
  ret (res, similarity, query_len).

(** The condition under which [interpret] falls back. *)
Definition falls_back (fallback_threshold similarity : Q) (query_len : nat) : bool :=
  Qltb similarity fallback_threshold || (query_len =? 1)%nat.

(** [SimpleOpine.interpret] *)
Definition interpret (self : SimpleOpine) (query_term : string) (fallback_threshold : Q)
  : M (string * string) :=
  let* st := get in
  match interpret_cache st !! query_term with
  | Some cached => ret cached
  | None =>
      let* (res, similarity, query_len) := nearest_phrase self query_term in
      let* res :=
        if falls_back fallback_threshold similarity query_len then
          let* cooc_res := cooc_interpret (cooc self) query_term in
          match cooc_res with
          | Some found => ret found
          | None => ret res
          end
        else ret res in
      let* _ := modify (set_interpret_cache (insert query_term res)) in
      ret res
  end.

(** The default of [fallback_threshold]. *)
Definition default_threshold : Q := 0.4.

(** *** SimpleOpine.opine *)

(** [model.predict_proba([features])[0][1]] *)
Definition predict_proba (model : list pyfloat -> option Q) (features : list pyfloat) : M Q :=
  let* _ := modify (record_call (CallPredict features)) in
  match model features with
  | Some p => ret p
  | None => raise ValueError
  end.

(** The score of an entity that has no data for the attribute. *)
Definition missing_score : Q := 1e-6.

(** The scoring part shared by the two branches of [membership]: the
    features of the chosen [mode], behind the objective block
    [obj_features], through the classifier of that mode. *)
Definition mode_score (self : SimpleOpine) (mode : string) (obj_features : list pyfloat)
    (bid attr_name qterm : string) : M Q :=
  let* st := get in
  let* e := lift (getitem (entities st !! bid)) in
  if String.eqb mode "marker" then
    match ent_summaries e with
    | Some sm =>
        match sm !! attr_name with
        | Some _ =>
            let* features := get_features_summary self bid attr_name qterm 10 in
            predict_proba (marker_model self) (obj_features ++ map Finite features)
        | None => ret missing_score
        end
    | None => ret missing_score
    end
  else
    match ent_histogram e with
    | Some hs =>
        match hs !! attr_name with
        | Some histogram =>
            let* features := get_features_phrases self histogram qterm in
            predict_proba (phrase_model self) (obj_features ++ map Finite features)
        | None => ret missing_score
        end
    | None => ret missing_score
    end.

(** The arguments [membership] hands to [get_features_obj]. *)
Definition obj_context_of (ents : gmap string entity) (bid : string) (pred : option obj_pred)
  : result (string * pyval * string * string * string) :=
  match pred with
  | None => Ok (""%string, VStr "", ""%string, ""%string, ""%string)
  | Some (atype, attr, op, oprand) =>
      match getitem (ents !! bid) with
      | Err e => Err e
      | Ok e =>
          match entity_get e attr with
          | None => Ok (""%string, VStr "", ""%string, ""%string, ""%string)
          | Some value => Ok (atype, value, attr, op, oprand)
          end
      end
  end.

(** The closure [membership] of [opine]; [mode] is the variable it
    captures. *)
Definition membership (self : SimpleOpine) (mode : string)
    (bid attr_name qterm : string) (pred : option obj_pred) : M Q :=
  if bool_decide (obj_attrs self = ∅) then
    let* st := get in
    match membership_cache st !! (bid, attr_name, qterm, None) with
    | Some cached => ret cached
    | None =>
        let* score := mode_score self mode [] bid attr_name qterm in
        let* _ := modify (set_membership_cache (insert (bid, attr_name, qterm, None) score)) in
        ret score
    end
  else
    let* st := get in
    match membership_cache st !! (bid, attr_name, qterm, Some pred) with
    | Some cached => ret cached
    | None =>
        let* (atype, value, attr, op, oprand) := lift (obj_context_of (entities st) bid pred) in
        let* obj_features := lift (get_features_obj self atype value attr op oprand) in
        let* score := mode_score self mode obj_features bid attr_name qterm in
        let* _ := modify (set_membership_cache (insert (bid, attr_name, qterm, Some pred) score)) in
        ret score
    end.

(** The first loop of [opine]: the query split into [sub_predicates] and
    [obj_predicates]. *)
Definition decompose_term (acc : list string * list obj_pred) (qterm : string)
  : result (list string * list obj_pred) :=
  let (sub_predicates, obj_predicates) := acc in
  if contains ":" qterm then
    match split " " qterm with
    | [attr; op; oprand] =>
        match split ":" attr with
        | [atype; attr] => Ok (sub_predicates, obj_predicates ++ [(atype, attr, op, oprand)])
        | _ => Err ValueError
        end
    | _ => Err ValueError
    end
  else Ok (sub_predicates ++ [qterm], obj_predicates).

Definition decompose (query : list string) : result (list string * list obj_pred) :=
  fold_result decompose_term query ([], []).

(** [scores[bid] *= factor] *)
Definition scale_score (scores : gmap string pyfloat) (bid : string) (factor : pyfloat)
  : result (gmap string pyfloat) :=
  match getitem (scores !! bid) with
  | Ok s => Ok (<[bid := fmul s factor]> scores)
  | Err e => Err e
  end.

(** The loop over the subjective predicates. *)
Definition score_subjective (self : SimpleOpine) (mode : string) (bids : list string)
    (sub_predicates : list string) (scores : gmap string pyfloat) : M (gmap string pyfloat) :=
  for_fold
    (fun scores qterm =>
       let qterm := lower qterm in
       let* (attr_name, _) := interpret self qterm default_threshold in
       for_fold (fun scores bid =>
                   let* mem := membership self mode bid attr_name qterm None in
                   lift (scale_score scores bid (Finite mem)))
                bids scores)
    sub_predicates scores.

(** [obj_context == 'sensitive'] *)
Definition score_sensitive (self : SimpleOpine) (mode : string) (bids : list string)
    (sub_predicates : list string) (obj_predicates : list obj_pred)
    (scores : gmap string pyfloat) : M (gmap string pyfloat) :=
  for_fold
    (fun scores pred =>
       for_fold
         (fun scores qterm =>
            let qterm := lower qterm in
            let* (attr_name, _) := interpret self qterm default_threshold in
            for_fold (fun scores bid =>
                        let* mem := membership self mode bid attr_name qterm (Some pred) in
                        lift (scale_score scores bid (Finite mem)))
                     bids scores)
         sub_predicates scores)
    obj_predicates scores.

(** [math.exp(x)]: [exp(inf)] is [inf], [exp(-inf)] is [0.0], [exp(nan)]
    is [nan], and a finite argument may overflow. *)
Definition float_exp (x : pyfloat) : result pyfloat :=
  match x with
  | Finite q => match math_exp q with
                | Some e => Ok (Finite e)
                | None => Err OverflowError
                end
  | PosInf => Ok PosInf
  | NegInf => Ok (Finite 0)
  | NaN => Ok NaN
  end.

(** [sigmoid] of the agnostic branch: [1 / (1 + math.exp(-x))]. *)
Definition sigmoid (x : pyfloat) : result pyfloat :=
  match float_exp (fneg x) with
  | Ok e => fdiv (Finite 1) (fadd (Finite 1) e)
  | Err err => Err err
  end.

(** The factor the agnostic branch multiplies into [scores[bid]] for one
    predicate and the value [val] of the entity; [None] when the score is
    left alone. *)
Definition agnostic_factor (self : SimpleOpine) (pred : obj_pred) (val : pyval)
  : result (option pyfloat) :=
  let '(atype, attr, op, oprand) := pred in
  if String.eqb atype "bool" then
    match pyval_lower val with
    | Ok v => Ok (if negb (String.eqb v (lower oprand)) then Some (Finite 0.5) else None)
    | Err e => Err e
    end
  else if String.eqb atype "cate" then
    Ok (if pyval_ne val oprand then Some (Finite 0.3) else None)
  else
    match attr_range_of self attr with
    | Err e => Err e
    | Ok (min_val, max_val) =>
        match str_float oprand with
        | Err e => Err e
        | Ok o =>
            match pyval_float val with
            | Err e => Err e
            | Ok v =>
                match fdiv (fsub o v) (fadd (fsub max_val min_val) (Finite 1)) with
                | Err e => Err e
                | Ok diff =>
                    match (if String.eqb op "<" then sigmoid diff else sigmoid (fneg diff)) with
                    | Ok f => Ok (Some f)
                    | Err e => Err e
                    end
                end
            end
        end
    end.

(** The hard-filter factor. *)
Definition boolean_penalty : Q := 1e-15.

(** Whether the boolean branch penalizes the value [val] for one
    predicate. *)
Definition violates (pred : obj_pred) (val : pyval) : result bool :=
  let '(atype, attr, op, oprand) := pred in
  if String.eqb atype "bool" then
    match pyval_lower val with
    | Ok v => Ok (negb (String.eqb v (lower oprand)))
    | Err e => Err e
    end
  else if String.eqb atype "cate" then Ok (pyval_ne val oprand)
  else
    match pyval_float val with
    | Err e => Err e
    | Ok v =>
        match str_float oprand with
        | Err e => Err e
        | Ok o => Ok (if String.eqb op "<" then fle o v else fle v o)
        end
    end.

Definition boolean_factor (pred : obj_pred) (val : pyval) : result (option pyfloat) :=
  match violates pred val with
  | Ok true => Ok (Some (Finite boolean_penalty))
  | Ok false => Ok None
  | Err e => Err e
  end.

(** The body of the two nested loops shared by the agnostic and the boolean
    branch: one predicate against one candidate, an entity without the
    attribute skipped. *)
Definition objective_step (factor : obj_pred -> pyval -> result (option pyfloat))
    (ents : gmap string entity) (pred : obj_pred) (scores : gmap string pyfloat) (bid : string)
  : result (gmap string pyfloat) :=
  match getitem (ents !! bid) with
  | Err e => Err e
  | Ok e =>
      match entity_get e (pred.1.1.2) with
      | None => Ok scores
      | Some val =>
          match factor pred val with
          | Err e => Err e
          | Ok None => Ok scores
          | Ok (Some f) => scale_score scores bid f
          end
      end
  end.

(** The two loops: every predicate against every candidate. *)
Definition score_objective (factor : obj_pred -> pyval -> result (option pyfloat))
    (ents : gmap string entity) (bids : list string) (obj_predicates : list obj_pred)
    (scores : gmap string pyfloat) : result (gmap string pyfloat) :=
  fold_result
    (fun scores pred => fold_result (objective_step factor ents pred) bids scores)
    obj_predicates scores.

(** The branch on [obj_context]. *)
Definition apply_objective (self : SimpleOpine) (mode obj_context : string)
    (bids : list string) (sub_predicates : list string) (obj_predicates : list obj_pred)
    (scores : gmap string pyfloat) : M (gmap string pyfloat) :=
  if String.eqb obj_context "sensitive" then
    score_sensitive self mode bids sub_predicates obj_predicates scores
  else if String.eqb obj_context "agnostic" then
    let* st := get in
    lift (score_objective (agnostic_factor self) (entities st) bids obj_predicates scores)
  else if String.eqb obj_context "boolean" then
    let* st := get in
    lift (score_objective boolean_factor (entities st) bids obj_predicates scores)
  else ret scores.

(** [{bid : 1.0 for bid in bids}] *)
Definition initial_scores (bids : list string) : gmap string pyfloat :=
  foldl (fun d bid => <[bid := Finite 1]> d) ∅ bids.

(** [bids] after the default is resolved. *)
Definition candidates (self : SimpleOpine) (bids : option (list string)) : list string :=
  match bids with
  | None => entity_ids self
  | Some l => l
  end.

(** Everything [opine] does before the final [sorted]: the dict [scores]. *)
Definition opine_scores (self : SimpleOpine) (query : list string)
    (bids : option (list string)) (mode obj_context : string) : M (gmap string pyfloat) :=
  let bids := candidates self bids in
  let scores := initial_scores bids in
  let* (sub_predicates, obj_predicates) := lift (decompose query) in
  let* scores := score_subjective self mode bids sub_predicates scores in
  apply_objective self mode obj_context bids sub_predicates obj_predicates scores.

(** [sorted(bids, key=lambda x : -scores[x])] *)
Definition sorted_by_score (scores : gmap string pyfloat) (bids : list string)
  : result (list string) :=
  match map_result (fun bid => match getitem (scores !! bid) with
                               | Ok s => Ok (fneg s, bid)
                               | Err e => Err e
                               end) bids with
  | Ok keyed => Ok (map snd (sort_keyed_float keyed))
  | Err e => Err e
  end.

(** [SimpleOpine.opine] *)
Definition opine (self : SimpleOpine) (query : list string)
    (bids : option (list string)) (mode obj_context : string) : M (list string) :=
  let* scores := opine_scores self query bids mode obj_context in
  lift (sorted_by_score scores (candidates self bids)).

(** [SimpleOpine.clear_cache] *)
Definition clear_cache : M unit :=
  modify (fun s => State (entities s) ∅ ∅ ∅ (cooc_interpret_cache s) (calls s)).

(** *** SimpleOpine.get_marker *)

(** One round of the inner loop of [get_marker], on
    [(best_match, best_sim)]. *)
Definition closer_marker (vector : vec) (acc : option string * Q) (m : marker)
  : option string * Q :=
  let (best_match, best_sim) := acc in
  let sim := cosine vector (marker_center m) in
  match best_match with
  | None => (Some (marker_verbalized m), sim)
  | Some _ => if Qle_bool best_sim sim then (Some (marker_verbalized m), sim)
              else (best_match, best_sim)
  end.

(** [SimpleOpine.get_marker]; the entities are visited in the key order of
    [self.entities]. *)
Definition get_marker (self : SimpleOpine) (attr phrase : string) : M (option string) :=
  let* vector := phrase2vec self phrase in
  let* st := get in
  let* (best_match, _) :=
    lift (fold_result
            (fun acc bid =>
               match getitem (entities st !! bid) with
               | Err e => Err e
               | Ok e =>
                   match getitem (ent_summaries e) with
                   | Err e => Err e
                   | Ok sm =>
                       match sm !! attr with
                       | Some summary => Ok (foldl (closer_marker vector) acc summary)
                       | None => Ok acc
                       end
                   end
               end)
            (entity_ids self) (None, 0%Q)) in
  ret best_match.

(** *** SimpleOpine.__init__: reading the objective attributes *)

(** What the loop over the rows of the CSV file builds: [self.entities],
    [self.obj_attrs] and [self.cate_to_id]. *)
Record schema : Type := Schema {
  sch_entities : gmap string entity;
  sch_obj_attrs : gmap string obj_attr;
  sch_cate_to_id : gmap string nat
}.

(** [entity[attr] = value]: an assignment to the key ['histogram'] or
    ['summaries'] replaces the dict that was there. *)
Definition entity_set (e : entity) (attr : string) (value : pyval) : entity :=
  Entity (if bool_decide (attr = "histogram"%string) then None else ent_histogram e)
         (if bool_decide (attr = "summaries"%string) then None else ent_summaries e)
         (<[attr := value]> (ent_fields e)).

(** The entry [__init__] creates for an attribute it sees for the first
    time. *)
Definition new_obj_attr (type_tag val : string) : result obj_attr :=
  if String.eqb type_tag "cate" then Ok (ObjAttr type_tag (Some [val]) None)
  else if String.eqb type_tag "num" then
    match str_float val with
    | Ok f => Ok (ObjAttr type_tag None (Some (f, f)))
    | Err e => Err e
    end
  else Ok (ObjAttr type_tag None None).

(** The body of the loop over the columns of one row, for the entity
    [bid] of that row; [type_tag] is the local [attr_type] of the source. *)
Definition load_column (bid : string) (acc : schema) (column : string * string)
  : result schema :=
  let (header, val) := column in
  if String.eqb header "ID" then Ok acc
  else
    match split ":" header with
    | [type_tag; attr] =>
        let created : result (gmap string obj_attr) :=
          match sch_obj_attrs acc !! attr with
          | Some _ => Ok (sch_obj_attrs acc)
          | None => match new_obj_attr type_tag val with
                    | Ok a => Ok (<[attr := a]> (sch_obj_attrs acc))
                    | Err e => Err e
                    end
          end in
        match created with
        | Err e => Err e
        | Ok attrs =>
            if String.eqb type_tag "cate" then
              match getitem (attrs !! attr) with
              | Err e => Err e
              | Ok a =>
                  match getitem (attr_values a) with
                  | Err e => Err e
                  | Ok values =>
                      let values' := if bool_decide (val ∈ values) then values
                                     else values ++ [val] in
                      let ids := sch_cate_to_id acc in
                      Ok (Schema
                            (alter (fun e => entity_set e attr (VStr val)) bid (sch_entities acc))
                            (<[attr := ObjAttr (attr_type a) (Some values') (attr_range a)]> attrs)
                            (match ids !! val with
                             | Some _ => ids
                             | None => <[val := size ids]> ids
                             end))
                  end
              end
            else if String.eqb type_tag "num" then
              match str_float val with
              | Err e => Err e
              | Ok f =>
                  match getitem (attrs !! attr) with
                  | Err e => Err e
                  | Ok a =>
                      match getitem (attr_range a) with
                      | Err e => Err e
                      | Ok (lo, hi) =>
                          let lo' := if flt f lo then f else lo in
                          let hi' := if flt hi f then f else hi in
                          Ok (Schema
                                (alter (fun e => entity_set e attr (VNum f)) bid (sch_entities acc))
                                (<[attr := ObjAttr (attr_type a) (attr_values a) (Some (lo', hi'))]> attrs)
                                (sch_cate_to_id acc))
                      end
                  end
              end
            else
              Ok (Schema
                    (alter (fun e => entity_set e attr (VStr (lower val))) bid (sch_entities acc))
                    attrs (sch_cate_to_id acc))
        end
    | _ => Err ValueError
    end.

(** The body of the loop over the rows: a row is the dict of a
    [csv.DictReader], its columns in the order of the header line. *)
Definition load_row (acc : schema) (row : list (string * string)) : result schema :=
  match getitem (assoc_get "ID" row) with
  | Err e => Err e
  | Ok bid =>
      match sch_entities acc !! bid with
      | None => Ok acc
      | Some _ => fold_result (load_column bid) row acc
      end
  end.

(** The part of [SimpleOpine.__init__] under [# reading objective
    attributes]. *)
Definition load_objective_attributes (ents : gmap string entity)
    (rows : list (list (string * string))) : result schema :=
  fold_result load_row rows (Schema ents ∅ ∅).

(** *** evaluate_obj.py: the relevance of a ranking *)

(** The score of one query term in [get_query_score]. The two objective
    branches differ as in the source: the [bool]/[cate] branch assigns its
    result to the name [scores], so [score] keeps the 0 it was reset to. *)
Definition term_score (ents : gmap string entity) (ground_truth : gmap (string * string) Q)
    (bid qterm : string) : result Q :=
  let score := default 0%Q (ground_truth !! (bid, qterm)) in
  if contains ":" qterm then
    match split " " qterm with
    | [attr; op; oprand] =>
        match split ":" attr with
        | [atype; attr] =>
            match getitem (ents !! bid) with
            | Err e => Err e
            | Ok e =>
                match entity_get e attr with
                | None => Ok score
                | Some val =>
                    if String.eqb atype "bool" || String.eqb atype "cate" then
                      match pyval_lower val with
                      | Ok _ => Ok 0%Q
                      | Err e => Err e
                      end
                    else if String.eqb atype "num" then
                      match str_float oprand with
                      | Err e => Err e
                      | Ok o =>
                          match pyval_float val with
                          | Err e => Err e
                          | Ok v =>
                              if String.eqb op "<"
                              then Ok (if flt v o then 1%Q else 0%Q)
                              else Ok (if flt o v then 1%Q else 0%Q)
                          end
                      end
                    else Ok 0%Q
                end
            end
        | _ => Err ValueError
        end
    | _ => Err ValueError
    end
  else Ok score.

(** [get_query_score] of [evaluate_obj.py]; [ents] is the module's global
    [entities]. *)
Definition get_query_score (ents : gmap string entity)
    (ground_truth : gmap (string * string) Q) (bid : string) (query : list string)
  : result Q :=
  fold_result (fun total qterm => match term_score ents ground_truth bid qterm with
                                  | Ok score => Ok (total + score)%Q
                                  | Err e => Err e
                                  end) query 0%Q.

End Engine.

(** * A small catalog to run the engine on *)

Module Fixture.

(** Stand-ins for the imported functions. Each agrees with the library on
    the inputs the examples use: the tokenizer on lower-case words
    separated by single spaces, the norm on vectors with at most one
    non-zero coordinate, [log2] on powers of two, [float] on strings of
    digits and on [nan] and [inf]. The relevance score counts the terms of
    the query in the document; BM25 gives a score of the same sign when
    every token of the query occurs in fewer than half of the documents (a
    token's idf is then positive), which is the case of the term [staff] in
    the corpora below. Every review has the positive polarity 0.5. *)
Definition tokenize (s : string) : list string :=
  List.filter (fun t => (2 <=? String.length t)%nat && (String.length t <=? 15)%nat)
              (split " " (lower s)).

Definition term_count (corpus : list (list string)) (tokens : list string) (i : nat) : Q :=
  match corpus !! i with
  | Some doc => inject_Z (Z.of_nat (length (List.filter (fun t => bool_decide (t ∈ tokens)) doc)))
  | None => 0%Q
  end.

Definition norm1 (v : vec) : Q := foldr (fun x acc => (Qabs x + acc)%Q) 0%Q v.

Definition log2_floor (q : Q) : Q := inject_Z (Z.log2 (Qfloor q)).

Definition exp_approx (x : Q) : option Q :=
  Some (if Qle_bool 0 x then (1 + x)%Q else (1 / (1 - x))%Q).

Definition digit_value (c : ascii) : option Z :=
  let n := Ascii.nat_of_ascii c in
  if (48 <=? n)%nat && (n <=? 57)%nat then Some (Z.of_nat (n - 48)) else None.

Fixpoint digits_value (s : string) (acc : Z) : option Z :=
  match s with
  | EmptyString => Some acc
  | String c s' => match digit_value c with
                   | Some d => digits_value s' (10 * acc + d)%Z
                   | None => None
                   end
  end.

Definition float_of_digits (s : string) : option pyfloat :=
  if String.eqb s "nan" then Some NaN
  else if String.eqb s "inf" then Some PosInf
  else match s with
       | EmptyString => None
       | _ => (fun z => Finite (inject_Z z)) <$> digits_value s 0%Z
       end.

Definition lib : imports :=
  Imports tokenize term_count (fun _ => 0.5%Q) log2_floor norm1 exp_approx float_of_digits.

(** The [i]-th unit vector of dimension 300. *)
Definition unit_vector (i : nat) : vec := replicate i 0%Q ++ [1%Q] ++ replicate (299 - i) 0%Q.

(** Two markers of the attribute [service], stored with the higher mean
    sentiment first. *)
Definition praise : marker := Marker (unit_vector 0) "good service" 2 3.
Definition complaint : marker := Marker (unit_vector 0) "slow service" (-1) 1.

(** Entity A has wifi and no opinion data; entity B has none and is
    reviewed for its service; entity C has a summary of eleven markers. *)
Definition entity_A : entity :=
  Entity (Some ∅) (Some ∅)
         (<["has_wifi" := VStr "true"]> (<["price" := VNum (Finite 50)]> (<["city" := VStr "Paris"]> ∅)))%string.

Definition entity_B : entity :=
  Entity (Some (<["service" := [("good service", 3%Q)]]> ∅))
         (Some (<["service" := [praise; complaint]]> ∅))
         (<["has_wifi" := VStr "false"]> (<["price" := VNum (Finite 150)]> (<["city" := VStr "paris"]> ∅)))%string.

Definition entity_C : entity :=
  Entity (Some ∅) (Some (<["service" := replicate 11 praise]> ∅)) ∅%string.

Definition catalog : gmap string entity :=
  (<["A" := entity_A]> (<["B" := entity_B]> (<["C" := entity_C]> ∅)))%string.

(** Three reviews whose extractions all belong to the one attribute
    [service]; the token [staff] occurs in the first review only. *)
Definition reviews_one_attribute : list review :=
  [Review "r1" "the staff gave good service" 0 [Extraction "service" "good" "service"];
   Review "r2" "quick service at the bar" 0 [Extraction "service" "quick" "service"];
   Review "r3" "friendly and fast service" 0 [Extraction "service" "fast" "service"]]%string.

(** Four reviews over two attributes, two extractions each; again [staff]
    occurs in the first review only. *)
Definition reviews_two_attributes : list review :=
  [Review "r1" "the staff gave good service" 0 [Extraction "service" "good" "service"];
   Review "r2" "clean rooms and soft beds" 0 [Extraction "cleanliness" "clean" "rooms"];
   Review "r3" "quick service at the bar" 0 [Extraction "service" "quick" "service"];
   Review "r4" "spotless bathroom" 0 [Extraction "cleanliness" "spotless" "bathroom"]]%string.

Definition classifier (features : list pyfloat) : option Q := Some 0.5%Q.

(** The engine over the catalog. The token [pool] has an embedding and no
    idf weight. *)
Definition engine (reviews : list review) : SimpleOpine :=
  MkOpine
    ["A"; "B"; "C"]%string
    (<["has_wifi" := ObjAttr "bool" None None]>
       (<["price" := ObjAttr "num" None (Some (Finite 50, Finite 150))]>
          (<["city" := ObjAttr "cate" (Some ["Paris"; "paris"]) None]> ∅)))%string
    (<["Paris" := 0%nat]> (<["paris" := 1%nat]> ∅))%string
    (<["good service" := 0.8%Q]> ∅)%string
    (<["service" := unit_vector 0]> (<["staff" := unit_vector 1]> (<["pool" := unit_vector 2]> ∅)))%string
    (<["service" := 1%Q]> (<["staff" := 2%Q]> ∅))%string
    [("service", "good service")]%string
    (fun _ => 0%nat)
    (CooccurInterpreter_init lib reviews)
    classifier classifier.

Definition opinedb : SimpleOpine := engine reviews_two_attributes.

(** The interpreter over the corpus with the single attribute. *)
Definition single_attribute_interpreter : CooccurInterpreter :=
  CooccurInterpreter_init lib reviews_one_attribute.

(** The objective-only query of the specification's scenario and its
    decomposed predicate. *)
Definition wifi_query : list string := ["bool:has_wifi = True"]%string.
Definition wifi_pred : obj_pred := ("bool", "has_wifi", "=", "True")%string.

(** The rows of an attribute file, as [csv.DictReader] yields them; the
    last row names an entity that is not in the catalog. *)
Definition attribute_rows : list (list (string * string)) :=
  [[("ID", "A"); ("bool:has_wifi", "True"); ("num:price", "50"); ("cate:city", "Paris")];
   [("ID", "B"); ("bool:has_wifi", "False"); ("num:price", "150"); ("cate:city", "paris")];
   [("ID", "C"); ("bool:has_wifi", "True"); ("num:price", "20"); ("cate:city", "Paris")];
   [("ID", "Z"); ("bool:has_wifi", "True"); ("num:price", "x"); ("cate:city", "Rome")]]%string.

(** Labels of the evaluation: A is labelled relevant for the wifi
    predicate. *)
Definition labels : gmap (string * string) Q :=
  <[("A", "bool:has_wifi = True")%string := 1%Q]> ∅.

(** The state right after loading. *)
Definition loaded : state := State catalog ∅ ∅ ∅ ∅ [].





(** A query that asks for the city [Paris]; B is in [paris]. *)
Definition city_query : list string := ["good service"; "cate:city = Paris"]%string.


End Fixture.

(** * Vocabulary of the statements *)

Section Vocabulary.

Variable lib : imports.


(** The elements whose key equals [v]. *)
Definition key_is {A} (v : Q) (x : Q * A) : bool := Qeq_bool (fst x) v.

(** The same on float keys. *)
Definition float_key_le {A} (x y : pyfloat * A) : Prop := fle (fst x) (fst y) = true.

Definition float_key_is {A} (v : pyfloat) (x : pyfloat * A) : bool := feq (fst x) v.

(** Every run of [m] leaves a state related by [R] to the one it starts
    from, whether it returns or raises. *)
Definition preserves (R : relation state) {A} (m : M A) : Prop := forall s, R s (m s).2.

(** The catalog is the same object graph. *)
Definition same_entities : relation state := fun s s' => entities s' = entities s.

(** Nothing but the call log differs. *)
Definition same_upto_calls : relation state := fun s s' =>
  entities s' = entities s /\ phrase2vec_cache s' = phrase2vec_cache s /\
  membership_cache s' = membership_cache s /\ interpret_cache s' = interpret_cache s /\
  cooc_interpret_cache s' = cooc_interpret_cache s.

(** The call log is the same. *)
Definition same_calls : relation state := fun s s' => calls s' = calls s.

(** The candidates whose final score equals [v]. *)
Definition has_score (scores : gmap string pyfloat) (v : pyfloat) (bid : string) : bool :=
  match scores !! bid with
  | Some s => feq s v
  | None => false
  end.

(** No candidate has the score [nan]. *)
Definition comparable (scores : gmap string pyfloat) (bids : list string) : Prop :=
  forall bid, bid ∈ bids -> scores !! bid <> Some NaN.

(** Every score is a finite number. *)
Definition all_finite (scores : gmap string pyfloat) : Prop :=
  forall bid s, scores !! bid = Some s -> exists q, s = Finite q.

(** A term with a colon that [opine] cannot unpack: [qterm.split(' ')] does
    not have three fields, or the first field split at [':'] does not have
    two. *)
Definition malformed (qterm : string) : Prop :=
  contains ":" qterm = true /\
  (length (split " " qterm) <> 3%nat \/
   length (split ":" (List.hd ""%string (split " " qterm))) <> 2%nat).

(** The vectors the specification sums for a phrase: one per token that has
    both an embedding and an idf weight, the embedding scaled by the weight. *)
Definition contributions (self : SimpleOpine) (words : list string) : list vec :=
  omap (fun w => match model_wv self !! w, idf self !! w with
                 | Some wvec, Some weight => Some (vscale wvec weight)
                 | _, _ => None
                 end) words.

(** The embedding as the specification words it. *)
Definition spec_embed (self : SimpleOpine) (phrase : string) : vec :=
  normalize lib (foldl vadd (zeros 300) (contributions self (gensim_simple_preprocess lib phrase))).

(** Every token that has an embedding has an idf weight. *)
Definition idf_covers (self : SimpleOpine) (words : list string) : Prop :=
  forall w, w ∈ words -> is_Some (model_wv self !! w) -> is_Some (idf self !! w).





(** How often [CooccurInterpreter.interpret] has been called. *)
Definition cooc_invocations (s : state) : nat :=
  length (List.filter (fun c => match c with CallCooc _ => true | _ => false end) (calls s)).

(** How often the BM25 index has scored the corpus. *)
Definition bm25_scans (s : state) : nat :=
  length (List.filter (fun c => match c with CallBM25 _ => true | _ => false end) (calls s)).

(** What [__init__] establishes: every listed review is stored and indexed,
    and every attribute of its extractions has an idf. *)
Definition cooc_wf (self : CooccurInterpreter) : Prop :=
  forall rid, rid ∈ cooc_review_ids self ->
    exists r, cooc_reviews self !! rid = Some r /\
              is_Some (cooc_position_index self !! rid) /\
              forall ext, ext ∈ review_extractions r ->
                          is_Some (cooc_idf self !! ext_attribute ext).

(** The retained reviews: of the first ten in sorted order, those with a
    positive score. *)
Definition retained (score_mp : gmap string Q) (sorted_review_ids : list string) : list string :=
  List.filter (fun rid => match score_mp !! rid with
                          | Some s => Qltb 0 s
                          | None => false
                          end) (slice_to 10 sorted_review_ids).

(** The positional co-occurrence a review yields, if any: the attribute and
    the phrase of its extraction closest to the term. *)
Definition co_occurrence (self : CooccurInterpreter) (qterm rid : string)
  : option (string * string) :=
  match cooc_reviews self !! rid with
  | Some r =>
      match closest_extraction lib self rid qterm (review_extractions r) with
      | Ok (_, phrase, Some attr) => Some (attr, phrase)
      | _ => None
      end
  | None => None
  end.

(** The co-occurrences of the retained reviews, in their order. *)
Definition winners (self : CooccurInterpreter) (qterm : string)
    (score_mp : gmap string Q) (sorted_review_ids : list string) : list (string * string) :=
  omap (co_occurrence self qterm) (retained score_mp sorted_review_ids).

(** The vote count of an attribute, its representative phrase, and its
    idf-weighted vote. *)
Definition votes_for (attr : string) (W : list (string * string)) : nat :=
  length (List.filter (fun w => String.eqb w.1 attr) W).

Definition first_phrase (attr : string) (W : list (string * string)) : option string :=
  snd <$> List.find (fun w => String.eqb w.1 attr) W.

Definition weighted_vote (self : CooccurInterpreter) (attr : string)
    (W : list (string * string)) : Q :=
  (inject_Z (Z.of_nat (votes_for attr W)) * default 0%Q (cooc_idf self !! attr))%Q.

(** One vote cast into the two dicts. *)
Definition cast (acc : list (string * Q) * gmap string string) (w : string * string)
  : list (string * Q) * gmap string string :=
  match assoc_get w.1 acc.1 with
  | None => (assoc_set w.1 1%Q acc.1, <[w.1 := w.2]> acc.2)
  | Some n => (assoc_set w.1 (n + 1)%Q acc.1, acc.2)
  end.

(** The two dicts agree with the votes cast so far. *)
Definition tallied (W : list (string * string))
    (acc : list (string * Q) * gmap string string) : Prop :=
  NoDup (map fst acc.1) /\
  forall attr,
    match assoc_get attr acc.1 with
    | Some n => (n == inject_Z (Z.of_nat (votes_for attr W)))%Q /\ (0 < votes_for attr W)%nat
    | None => votes_for attr W = 0%nat
    end /\
    acc.2 !! attr = first_phrase attr W.

(** A relation lifted to optional values. *)
Definition opt_rel {A} (R : relation A) (o o' : option A) : Prop :=
  match o, o' with
  | Some a, Some a' => R a a'
  | None, None => True
  | _, _ => False
  end.

(** Two summaries hold, per attribute, the same markers up to order. *)
Definition summaries_similar (sm sm' : gmap string (list marker)) : Prop :=
  forall attr, opt_rel (fun l l' => Permutation l l') (sm !! attr) (sm' !! attr).

(** Two entities with the same histograms and objective fields and similar
    summaries. *)
Definition entity_similar (e e' : entity) : Prop :=
  ent_histogram e' = ent_histogram e /\ ent_fields e' = ent_fields e /\
  opt_rel summaries_similar (ent_summaries e) (ent_summaries e').

(** The catalog of [s'] is the catalog of [s] up to the order of the marker
    lists. *)
Definition same_catalog : relation state := fun s s' =>
  forall bid, opt_rel entity_similar (entities s !! bid) (entities s' !! bid).

(** A post-load operation on the engine. *)
Inductive operation : Type :=
| OpPhrase2vec (phrase : string)
| OpInterpret (query_term : string) (fallback_threshold : Q)
| OpMembership (mode bid attr_name qterm : string) (pred : option obj_pred)
| OpOpine (query : list string) (bids : option (list string)) (mode obj_context : string)
| OpClearCache.

(** The state an operation leaves, whether it returns or raises. *)
Definition run_operation (lib : imports) (self : SimpleOpine) (s : state) (op : operation)
  : state :=
  match op with
  | OpPhrase2vec phrase => (phrase2vec lib self phrase s).2
  | OpInterpret query_term fallback_threshold =>
      (interpret lib self query_term fallback_threshold s).2
  | OpMembership mode bid attr_name qterm pred =>
      (membership lib self mode bid attr_name qterm pred s).2
  | OpOpine query bids mode obj_context => (opine lib self query bids mode obj_context s).2
  | OpClearCache => (clear_cache s).2
  end.

(** The candidate passes every predicate on an attribute it has. *)
Definition satisfies_all (ents : gmap string entity) (preds : list obj_pred) (bid : string)
  : Prop :=
  exists e, ents !! bid = Some e /\
    forall pred val, pred ∈ preds -> entity_get e (pred.1.1.2) = Some val ->
                     violates lib pred val = Ok false.

(** The candidate fails one of the predicates. *)
Definition violates_some (ents : gmap string entity) (preds : list obj_pred) (bid : string)
  : Prop :=
  exists e pred val, ents !! bid = Some e /\ pred ∈ preds /\
    entity_get e (pred.1.1.2) = Some val /\ violates lib pred val = Ok true.

(** The score of [bid] lies between 0 and [b]. *)
Definition bounded (bid : string) (b : Q) (scores : gmap string pyfloat) : Prop :=
  exists s : Q, scores !! bid = Some (Finite s) /\ (0 <= s)%Q /\ (s <= b)%Q.

(** The interpretation cache is one of the attributes a computation may
    leave alone. *)
Definition keeps_interpret_cache : relation state :=
  fun s s' => interpret_cache s' = interpret_cache s.

Definition keeps_membership_cache : relation state :=
  fun s s' => membership_cache s' = membership_cache s.

(** The caches of [s'] hold every entry of the caches of [s], and the
    catalog is the same up to the order of the marker lists. *)
Definition grows : relation state := fun s s' =>
  same_catalog s s' /\
  phrase2vec_cache s ⊆ phrase2vec_cache s' /\
  interpret_cache s ⊆ interpret_cache s' /\
  membership_cache s ⊆ membership_cache s'.

(** Whatever [m] returned, [m'] returns again, without changing the state,
    from every state that has grown out of the one [m] left. *)
Definition replays {A} (m m' : M A) : Prop :=
  forall s a s1, m s = (Ok a, s1) -> forall s2, grows s1 s2 -> m' s2 = (Ok a, s2).

(** The key under which [membership] caches a score. *)
Definition membership_key (self : SimpleOpine) (bid attr_name qterm : string)
    (pred : option obj_pred) : mkey :=
  (bid, attr_name, qterm, if bool_decide (obj_attrs self = ∅) then None else Some pred).

(** The distance between two token positions. *)
Definition distance (p1 p2 : nat) : Z := Z.abs (Z.of_nat p1 - Z.of_nat p2).

(** A token of the phrase stands at position [p] of the indexed review. *)
Definition occurs_at (position_index : gmap string (list nat)) (phrase : string) (p : nat)
  : Prop :=
  exists token l, token ∈ gensim_simple_preprocess lib (lower phrase) /\
                  position_index !! token = Some l /\ p ∈ l.

(** The terms of a query [opine] takes as subjective, and those it takes
    as objective predicates. *)
Definition subjective_terms (query : list string) : list string :=
  List.filter (fun qterm => negb (contains ":" qterm)) query.

Definition objective_terms (query : list string) : list string :=
  List.filter (contains ":") query.

(** The tuple a well-formed objective term is unpacked to. *)
Definition parses_as (qterm : string) (pred : obj_pred) : Prop :=
  exists field, split " " qterm = [field; pred.1.2; pred.2] /\
                split ":" field = [pred.1.1.1; pred.1.1.2].

(** What the loader keeps true of [obj_attrs] and [cate_to_id]: the lower
    end of a numeric range is at most the upper end, unless the first
    number read for the attribute was [nan], which [min] and [max] then
    keep at both ends; the ids of the categories are the numbers below
    [len(cate_to_id)], each given once; every value listed for a
    categorical attribute has an id. *)
Record schema_wf (attrs : gmap string obj_attr) (ids : gmap string nat) : Prop := SchemaWf {
  wf_range : forall attr a lo hi,
    attrs !! attr = Some a -> attr_range a = Some (lo, hi) ->
    (lo = NaN /\ hi = NaN) \/ fle lo hi = true;
  wf_id_bound : forall v i, ids !! v = Some i -> (i < size ids)%nat;
  wf_id_inj : forall v v' i, ids !! v = Some i -> ids !! v' = Some i -> v = v';
  wf_values : forall attr a values v,
    attrs !! attr = Some a -> attr_values a = Some values -> v ∈ values -> is_Some (ids !! v)
}.

(** The markers of an attribute over the catalog, in the order [get_marker]
    visits them. *)
Definition markers_of (ents : gmap string entity) (ids : list string) (attr : string)
  : list marker :=
  ids ≫= fun bid => match ents !! bid with
                    | Some e => match ent_summaries e with
                                | Some sm => default [] (sm !! attr)
                                | None => []
                                end
                    | None => []
                    end.

(** [name] is the verbalization of a marker of [markers] whose center is as
    similar to [vector] as that of any other. *)
Definition nearest_marker (vector : vec) (markers : list marker) (name : string) : Prop :=
  exists m, m ∈ markers /\ marker_verbalized m = name /\
            forall m', m' ∈ markers ->
                       (cosine lib vector (marker_center m') <= cosine lib vector (marker_center m))%Q.

(** A [bool] or [cate] term on an attribute the entity holds a string
    for. *)
Definition unrewarded (e : entity) (qterm : string) : Prop :=
  exists atype attr op oprand s,
    contains ":" qterm = true /\ parses_as qterm (atype, attr, op, oprand) /\
    (atype = "bool"%string \/ atype = "cate"%string) /\ entity_get e attr = Some (VStr s).

(** [sum(histogram.values())] *)
Definition total_count (histogram : list (string * Q)) : Q :=
  foldr (fun item acc => (item.2 + acc)%Q) 0%Q histogram.

(** Every vector of the embedding cache has the dimension of the model. *)
Definition cache_dimension (s : state) : Prop :=
  forall phrase v, phrase2vec_cache s !! phrase = Some v -> length v = 300%nat.


End Vocabulary.

(** * Properties *)

(** ** The monad *)

Lemma bind_ok {A B} (m : M A) (k : A -> M B) s b s' :
  bind m k s = (Ok b, s') ->
  exists a s1, m s = (Ok a, s1) /\ k a s1 = (Ok b, s').
Proof.
  unfold bind. destruct (m s) as [[a|e] s1]; intros H.
  - exists a, s1. split; [reflexivity | exact H].
  - discriminate H.
Qed.

Lemma bind_run {A B} (m : M A) (k : A -> M B) s a s1 :
  m s = (Ok a, s1) -> bind m k s = k a s1.
Proof. intros H. unfold bind. rewrite H. reflexivity. Qed.

Lemma bind_err {A B} (m : M A) (k : A -> M B) s e s1 :
  m s = (Err e, s1) -> bind m k s = (Err e, s1).
Proof. intros H. unfold bind. rewrite H. reflexivity. Qed.

Lemma lift_ok {A} (r : result A) s a s' :
  lift r s = (Ok a, s') -> r = Ok a /\ s' = s.
Proof. unfold lift. intros H. injection H as -> ->. split; reflexivity. Qed.

Lemma map_result_ok {A B} (f : A -> result B) l ys :
  map_result f l = Ok ys -> Forall2 (fun x y => f x = Ok y) l ys.
Proof.
  revert ys. induction l as [|x l IH]; simpl; intros ys H.
  - injection H as <-. constructor.
  - destruct (f x) as [y|e] eqn:Hx; [|discriminate].
    destruct (map_result f l) as [ys'|e] eqn:Hl; [|discriminate].
    injection H as <-. constructor; [exact Hx | apply IH; reflexivity].
Qed.

Lemma map_result_total {A B} (f : A -> result B) l :
  Forall (fun x => exists y, f x = Ok y) l -> exists ys, map_result f l = Ok ys.
Proof.
  induction 1 as [|x l [y Hy] _ [ys Hys]]; simpl.
  - eexists; reflexivity.
  - rewrite Hy, Hys. eexists; reflexivity.
Qed.

Lemma for_fold_invariant {A B} (P : B -> Prop) (f : B -> A -> M B) l acc s r s' :
  (forall b x s0 b' s1, P b -> f b x s0 = (Ok b', s1) -> P b') ->
  P acc -> for_fold f l acc s = (Ok r, s') -> P r.
Proof.
  intros Hstep. revert acc s. induction l as [|x l IH]; intros acc s Hacc Hrun.
  - injection Hrun as <- _. exact Hacc.
  - cbn [for_fold] in Hrun. apply bind_ok in Hrun as (b & s1 & Hf & Hrun).
    eapply IH; [|exact Hrun]. eapply Hstep; eassumption.
Qed.

Lemma fold_result_invariant {A B} (P : B -> Prop) (f : B -> A -> result B) l acc acc' :
  (forall b x b', P b -> f b x = Ok b' -> P b') ->
  P acc -> fold_result f l acc = Ok acc' -> P acc'.
Proof.
  intros Hstep. revert acc. induction l as [|x l IH]; intros acc Hacc; cbn [fold_result].
  - intros H. injection H as <-. exact Hacc.
  - destruct (f acc x) as [b|] eqn:Hf; [|discriminate]. apply IH. eapply Hstep; eassumption.
Qed.

(** ** The stable sort *)

Section Sorting.

Context {A : Type}.
Implicit Types (x y : Q * A) (l : list (Q * A)).

Lemma Qltb_true a b : Qltb a b = true <-> (a < b)%Q.
Proof.
  unfold Qltb. rewrite negb_true_iff. split.
  - intros H. apply Qnot_le_lt. intros Hle. apply Qle_bool_iff in Hle. congruence.
  - intros H. destruct (Qle_bool b a) eqn:E; [|reflexivity].
    apply Qle_bool_iff in E. exfalso. exact (Qlt_not_le _ _ H E).
Qed.

Lemma Qltb_false a b : Qltb a b = false <-> (b <= a)%Q.
Proof.
  unfold Qltb. rewrite negb_false_iff. apply Qle_bool_iff.
Qed.

Lemma insert_by_perm x l : Permutation (insert_by x l) (x :: l).
Proof.
  induction l as [|y l IH]; simpl; [reflexivity|].
  destruct (Qltb (fst y) (fst x)); [|reflexivity].
  rewrite IH. apply perm_swap.
Qed.

Lemma sort_keyed_perm l : Permutation (sort_keyed l) l.
Proof.
  induction l as [|x l IH]; simpl; [reflexivity|].
  unfold sort_keyed in *. simpl. rewrite insert_by_perm. constructor. exact IH.
Qed.



Lemma insert_by_stable v x l :
  List.filter (key_is v) (insert_by x l) = List.filter (key_is v) (x :: l).
Proof.
  induction l as [|y l IH]; [reflexivity|].
  cbn [insert_by]. destruct (Qltb (fst y) (fst x)) eqn:E; [|reflexivity].
  cbn [List.filter] in *. rewrite IH.
  destruct (key_is v x) eqn:Hx; [|reflexivity].
  destruct (key_is v y) eqn:Hy; [|reflexivity].
  exfalso. unfold key_is in *.
  apply Qeq_bool_iff in Hx, Hy. apply Qltb_true in E.
  rewrite Hx, Hy in E. exact (Qlt_irrefl _ E).
Qed.

Lemma sort_keyed_stable v l :
  List.filter (key_is v) (sort_keyed l) = List.filter (key_is v) l.
Proof.
  induction l as [|x l IH]; [reflexivity|].
  unfold sort_keyed in *. cbn [foldr]. rewrite insert_by_stable.
  cbn [List.filter]. rewrite IH. reflexivity.
Qed.

(** *** Float keys *)

Implicit Types (u w : pyfloat * A) (k : list (pyfloat * A)).

Lemma flt_fle a b : flt a b = true -> fle a b = true.
Proof.
  destruct a as [x| | |], b as [y| | |]; cbn; try congruence.
  intros H. apply Qltb_true in H. apply Qle_bool_iff. apply Qlt_le_weak. exact H.
Qed.

Lemma flt_false_fle a b : a <> NaN -> b <> NaN -> flt a b = false -> fle b a = true.
Proof.
  destruct a as [x| | |], b as [y| | |]; cbn; try congruence.
  intros _ _ H. apply Qltb_false in H. apply Qle_bool_iff. exact H.
Qed.

Lemma fle_trans a b c : fle a b = true -> fle b c = true -> fle a c = true.
Proof.
  destruct a as [x| | |], b as [y| | |], c as [z| | |]; cbn; try congruence.
  intros H1 H2. apply Qle_bool_iff in H1, H2. apply Qle_bool_iff.
  eapply Qle_trans; eassumption.
Qed.

Lemma feq_not_flt a b v : feq a v = true -> feq b v = true -> flt b a = false.
Proof.
  destruct a as [x| | |], b as [y| | |], v as [z| | |]; cbn; try congruence.
  intros H1 H2. apply Qeq_bool_iff in H1, H2. apply Qltb_false.
  rewrite H1, H2. apply Qle_refl.
Qed.

Lemma fle_fneg a b : fle (fneg a) (fneg b) = fle b a.
Proof.
  destruct a as [x| | |], b as [y| | |]; cbn; try reflexivity.
  destruct (Qle_bool (- x) (- y)) eqn:E1, (Qle_bool y x) eqn:E2; try reflexivity.
  - apply Qle_bool_iff in E1. apply Qopp_le_compat in E1. rewrite !Qopp_involutive in E1.
    apply Qle_bool_iff in E1. congruence.
  - apply Qle_bool_iff in E2. apply Qopp_le_compat in E2. apply Qle_bool_iff in E2. congruence.
Qed.

Lemma feq_fneg a b : feq (fneg a) (fneg b) = feq a b.
Proof.
  destruct a as [x| | |], b as [y| | |]; cbn; try reflexivity.
  destruct (Qeq_bool (- x) (- y)) eqn:E1, (Qeq_bool x y) eqn:E2; try reflexivity.
  - apply Qeq_bool_iff in E1. apply Qeq_bool_neq in E2. exfalso. apply E2.
    rewrite <- (Qopp_involutive x), <- (Qopp_involutive y), E1. reflexivity.
  - apply Qeq_bool_iff in E2. apply Qeq_bool_neq in E1. exfalso. apply E1.
    rewrite E2. reflexivity.
Qed.

Lemma fneg_nan a : fneg a = NaN <-> a = NaN.
Proof. destruct a; cbn; split; congruence. Qed.

Lemma insert_by_float_perm u k : Permutation (insert_by_float u k) (u :: k).
Proof.
  induction k as [|w k IH]; simpl; [reflexivity|].
  destruct (flt (fst w) (fst u)); [|reflexivity].
  rewrite IH. apply perm_swap.
Qed.

Lemma sort_keyed_float_perm k : Permutation (sort_keyed_float k) k.
Proof.
  induction k as [|u k IH]; simpl; [reflexivity|].
  unfold sort_keyed_float in *. simpl. rewrite insert_by_float_perm. constructor. exact IH.
Qed.

Lemma insert_by_float_sorted u k :
  fst u <> NaN -> Forall (fun w => fst w <> NaN) k ->
  StronglySorted float_key_le k -> StronglySorted float_key_le (insert_by_float u k).
Proof.
  intros Hu Hk Hs. induction Hs as [|w k Hs IH Hall]; simpl.
  - constructor; constructor.
  - apply Forall_cons in Hk as [Hw Hk]. destruct (flt (fst w) (fst u)) eqn:E.
    + constructor; [apply IH; exact Hk|].
      eapply Permutation_Forall; [symmetry; apply insert_by_float_perm|].
      constructor; [|exact Hall]. apply flt_fle. exact E.
    + apply flt_false_fle in E; [|exact Hw|exact Hu].
      constructor; [constructor; assumption|].
      constructor; [exact E|].
      eapply Forall_impl; [exact Hall|].
      intros z Hz. unfold float_key_le in *. eapply fle_trans; eassumption.
Qed.

Lemma sort_keyed_float_sorted k :
  Forall (fun w => fst w <> NaN) k -> StronglySorted float_key_le (sort_keyed_float k).
Proof.
  induction 1 as [|u k Hu Hk IH]; [constructor|].
  unfold sort_keyed_float in *. simpl. apply insert_by_float_sorted; [exact Hu| |exact IH].
  eapply Permutation_Forall; [symmetry; apply sort_keyed_float_perm | exact Hk].
Qed.

Lemma insert_by_float_stable v u k :
  List.filter (float_key_is v) (insert_by_float u k) = List.filter (float_key_is v) (u :: k).
Proof.
  induction k as [|w k IH]; [reflexivity|].
  cbn [insert_by_float]. destruct (flt (fst w) (fst u)) eqn:E; [|reflexivity].
  cbn [List.filter] in *. rewrite IH.
  destruct (float_key_is v u) eqn:Hu; [|reflexivity].
  destruct (float_key_is v w) eqn:Hw; [|reflexivity].
  exfalso. unfold float_key_is in *. rewrite (feq_not_flt _ _ _ Hu Hw) in E. discriminate.
Qed.

Lemma sort_keyed_float_stable v k :
  List.filter (float_key_is v) (sort_keyed_float k) = List.filter (float_key_is v) k.
Proof.
  induction k as [|u k IH]; [reflexivity|].
  unfold sort_keyed_float in *. cbn [foldr]. rewrite insert_by_float_stable.
  cbn [List.filter]. rewrite IH. reflexivity.
Qed.

(** A list in which no element is smaller than the one before it is
    returned as it is, with or without [nan] among the keys. *)
Lemma sort_keyed_float_run k :
  (forall i u w, k !! i = Some u -> k !! S i = Some w -> flt (fst w) (fst u) = false) ->
  sort_keyed_float k = k.
Proof.
  induction k as [|u k IH]; intros Hrun; [reflexivity|].
  unfold sort_keyed_float in *. cbn [foldr].
  rewrite IH by (intros i a b Ha Hb; exact (Hrun (S i) a b Ha Hb)).
  destruct k as [|w k]; [reflexivity|]. cbn [insert_by_float].
  rewrite (Hrun 0%nat u w eq_refl eq_refl). reflexivity.
Qed.

End Sorting.

(** ** Frame reasoning: what a computation leaves related *)

Section Frame.

Context (R : relation state) `{!PreOrder R}.

Lemma preserves_ret {A} (a : A) : preserves R (ret a).
Proof. intros s. reflexivity. Qed.

Lemma preserves_raise {A} e : preserves R (@raise A e).
Proof. intros s. reflexivity. Qed.

Lemma preserves_lift {A} (r : result A) : preserves R (lift r).
Proof. intros s. reflexivity. Qed.

Lemma preserves_get : preserves R get.
Proof. intros s. reflexivity. Qed.

Lemma preserves_modify f : (forall s, R s (f s)) -> preserves R (modify f).
Proof. intros H s. apply H. Qed.

Lemma preserves_bind {A B} (m : M A) (k : A -> M B) :
  preserves R m -> (forall a, preserves R (k a)) -> preserves R (bind m k).
Proof.
  intros Hm Hk s. unfold bind. specialize (Hm s).
  destruct (m s) as [[a|e] s1]; simpl in *; [|exact Hm].
  etransitivity; [exact Hm | apply Hk].
Qed.

Lemma preserves_for_fold {A B} (f : B -> A -> M B) l acc :
  (forall b a, preserves R (f b a)) -> preserves R (for_fold f l acc).
Proof.
  intros Hf. revert acc. induction l as [|x l IH]; intros acc; simpl.
  - apply preserves_ret.
  - apply preserves_bind; [apply Hf | intros b; apply IH].
Qed.

End Frame.

Ltac frame_step :=
  lazymatch goal with
  | |- preserves _ (bind _ _) => apply preserves_bind; [typeclasses eauto | | intros ?]
  | |- preserves _ (ret _) => apply preserves_ret; typeclasses eauto
  | |- preserves _ (raise _) => apply preserves_raise; typeclasses eauto
  | |- preserves _ (lift _) => apply preserves_lift; typeclasses eauto
  | |- preserves _ get => apply preserves_get; typeclasses eauto
  | |- preserves _ (for_fold _ _ _) => apply preserves_for_fold; [typeclasses eauto | intros ? ?]
  | |- preserves _ (match ?x with _ => _ end) => destruct x
  end.

#[local] Instance same_entities_preorder : PreOrder same_entities.
Proof. split; unfold same_entities; [intros s | intros s1 s2 s3]; congruence. Qed.

#[local] Instance same_upto_calls_preorder : PreOrder same_upto_calls.
Proof.
  split; unfold same_upto_calls; [intros s | intros s1 s2 s3]; intuition congruence.
Qed.

Section EngineFrames.

Variable lib : imports.

Lemma phrase2vec_entities self phrase : preserves same_entities (phrase2vec lib self phrase).
Proof.
  unfold phrase2vec. repeat frame_step.
  apply preserves_modify. intros s. reflexivity.
Qed.

Lemma cooc_interpret_upto_calls self qterm :
  preserves same_upto_calls (cooc_interpret lib self qterm).
Proof.
  unfold cooc_interpret. repeat frame_step;
    try (apply preserves_modify; intros s; repeat split; reflexivity).
Qed.

End EngineFrames.

(** ** Ranking: the final sort *)

Lemma StronglySorted_lookup {A} (R : relation A) (l : list A) i j a b :
  StronglySorted R l -> (i < j)%nat -> l !! i = Some a -> l !! j = Some b -> R a b.
Proof.
  intros Hs. revert i j. induction Hs as [|x l Hs IH Hall]; intros i j Hij Hi Hj.
  - destruct i; discriminate.
  - destruct j as [|j]; [lia|]. destruct i as [|i]; simpl in *.
    + injection Hi as <-. rewrite Forall_forall in Hall.
      apply Hall. eapply list_elem_of_lookup_2. exact Hj.
    + apply (IH i j); [lia | assumption | assumption].
Qed.

Lemma Forall2_map_snd_keyed (scores : gmap string pyfloat) bids
    (keyed : list (pyfloat * string)) :
  Forall2 (fun bid y => match getitem (scores !! bid) with
                        | Ok s => Ok (fneg s, bid)
                        | Err e => Err e
                        end = Ok y) bids keyed ->
  map snd keyed = bids /\
  Forall (fun y => exists s, scores !! y.2 = Some s /\ y.1 = fneg s) keyed.
Proof.
  induction 1 as [|bid y bids keyed Hy _ [IH1 IH2]]; [split; constructor|].
  destruct (scores !! bid) as [s|] eqn:Hs; simpl in Hy; [|discriminate].
  injection Hy as <-. simpl. split; [f_equal; exact IH1|].
  constructor; [|exact IH2]. exists s. split; [exact Hs | reflexivity].
Qed.

(** What [sorted] gives: always a permutation of the candidates; sorted
    by descending score, the candidates of equal score in their input
    order, when no candidate has the score [nan]. *)
Lemma sorted_by_score_spec (scores : gmap string pyfloat) bids l :
  sorted_by_score scores bids = Ok l ->
  Permutation l bids /\
  (comparable scores bids ->
   (forall i j a b, (i < j)%nat -> l !! i = Some a -> l !! j = Some b ->
      exists sa sb, scores !! a = Some sa /\ scores !! b = Some sb /\ fle sb sa = true) /\
   (forall v, List.filter (has_score scores v) l = List.filter (has_score scores v) bids)).
Proof.
  unfold sorted_by_score.
  destruct (map_result _ bids) as [keyed|e] eqn:Hk; [|discriminate].
  intros H. injection H as <-.
  apply map_result_ok, Forall2_map_snd_keyed in Hk. destruct Hk as [Hbids Hkeys].
  assert (Hsorted : Forall (fun y => exists s, scores !! y.2 = Some s /\ y.1 = fneg s)
                           (sort_keyed_float keyed)).
  { eapply Permutation_Forall; [symmetry; apply sort_keyed_float_perm | exact Hkeys]. }
  split; [rewrite <- Hbids; apply Permutation_map, sort_keyed_float_perm|].
  intros Hcmp.
  assert (Hnan : Forall (fun y : pyfloat * string => fst y <> NaN) keyed).
  { rewrite Forall_forall in Hkeys. apply Forall_forall. intros y Hy.
    destruct (Hkeys y Hy) as (s & Hs & Hkey). rewrite Hkey. intros Hn.
    apply (proj1 (fneg_nan s)) in Hn. subst s. apply (Hcmp y.2); [|exact Hs].
    rewrite <- Hbids. apply list_elem_of_fmap. exists y. split; [reflexivity | exact Hy]. }
  split.
  - intros i j a b Hij Hi Hj.
    rewrite list_lookup_fmap in Hi, Hj.
    destruct (sort_keyed_float keyed !! i) as [ya|] eqn:Hya; [|discriminate].
    destruct (sort_keyed_float keyed !! j) as [yb|] eqn:Hyb; [|discriminate].
    injection Hi as <-. injection Hj as <-.
    pose proof (StronglySorted_lookup _ _ _ _ _ _ (sort_keyed_float_sorted keyed Hnan)
                  Hij Hya Hyb) as Hle.
    rewrite Forall_forall in Hsorted.
    destruct (Hsorted ya) as (sa & Hsa & Hka);
      [eapply list_elem_of_lookup_2; exact Hya|].
    destruct (Hsorted yb) as (sb & Hsb & Hkb);
      [eapply list_elem_of_lookup_2; exact Hyb|].
    exists sa, sb. split; [exact Hsa|]. split; [exact Hsb|].
    unfold float_key_le in Hle. rewrite Hka, Hkb, fle_fneg in Hle. exact Hle.
  - intros v. rewrite <- Hbids.
    assert (Hfil : forall L : list (pyfloat * string),
               Forall (fun y => exists s, scores !! y.2 = Some s /\ y.1 = fneg s) L ->
               List.filter (has_score scores v) (map snd L)
               = map snd (List.filter (float_key_is (fneg v)) L)).
    { induction 1 as [|[key b] L (s & Hs & Hy) _ IH]; [reflexivity|].
      simpl in Hs, Hy. subst key.
      assert (Heq : has_score scores v b = float_key_is (fneg v) (fneg s, b)).
      { unfold has_score, float_key_is. rewrite Hs. cbn [fst]. symmetry. apply feq_fneg. }
      cbn [map List.filter snd]. rewrite IH, Heq.
      destruct (float_key_is (fneg v) (fneg s, b)); reflexivity. }
    rewrite (Hfil _ Hsorted), (Hfil _ Hkeys), sort_keyed_float_stable. reflexivity.
Qed.

Section RankingOrder.

Variable lib : imports.

Lemma all_finite_comparable scores bids : all_finite scores -> comparable scores bids.
Proof. intros Hfin bid _ Hs. destruct (Hfin bid NaN Hs) as [q Hq]. discriminate Hq. Qed.

Lemma initial_scores_finite bids : all_finite (initial_scores bids).
Proof.
  unfold initial_scores.
  assert (Hgen : forall d, all_finite d ->
                           all_finite (foldl (fun d bid => <[bid := Finite 1]> d) d bids)).
  { induction bids as [|b bids IH]; intros d Hd; [exact Hd|]. cbn [foldl]. apply IH.
    intros bid s. destruct (decide (b = bid)) as [->|Hne].
    - rewrite lookup_insert_eq. intros H. injection H as <-. eexists. reflexivity.
    - rewrite lookup_insert_ne by exact Hne. apply Hd. }
  apply Hgen. intros bid s H. rewrite lookup_empty in H. discriminate.
Qed.

Lemma scale_score_finite scores bid (f : Q) scores' :
  all_finite scores -> scale_score scores bid (Finite f) = Ok scores' -> all_finite scores'.
Proof.
  intros Hfin. unfold scale_score. destruct (scores !! bid) as [s|] eqn:Hs; [|discriminate].
  cbn [getitem]. intros H. injection H as <-. intros b s'.
  destruct (decide (bid = b)) as [->|Hne].
  - rewrite lookup_insert_eq. intros H. injection H as <-.
    destruct (Hfin b s Hs) as [q ->]. eexists. reflexivity.
  - rewrite lookup_insert_ne by exact Hne. apply Hfin.
Qed.

Lemma score_subjective_finite self mode bids sub_predicates scores st scores' st' :
  all_finite scores ->
  score_subjective lib self mode bids sub_predicates scores st = (Ok scores', st') ->
  all_finite scores'.
Proof.
  intros Hfin. unfold score_subjective. apply for_fold_invariant; [|exact Hfin].
  intros sc qterm s0 sc' s1 Hsc Hrun.
  apply bind_ok in Hrun as ([attr_name phrase] & s2 & _ & Hrun).
  revert Hrun. apply for_fold_invariant; [|exact Hsc].
  intros sc0 bid s3 sc1 s4 Hsc0 Hstep.
  apply bind_ok in Hstep as (mem & s5 & _ & Hstep). apply lift_ok in Hstep as [Hstep _].
  eapply scale_score_finite; eassumption.
Qed.


Lemma score_boolean_finite ents bids obj_predicates scores scores' :
  all_finite scores ->
  score_objective (boolean_factor lib) ents bids obj_predicates scores = Ok scores' ->
  all_finite scores'.
Proof.
  intros Hfin. unfold score_objective. apply fold_result_invariant; [|exact Hfin].
  intros sc pred sc' Hsc. apply fold_result_invariant; [|exact Hsc].
  intros sc0 bid sc1 Hsc0. unfold objective_step.
  destruct (ents !! bid) as [e|]; [|discriminate]. cbn [getitem].
  destruct (entity_get e (pred.1.1.2)) as [val|]; [|intros H; injection H as <-; exact Hsc0].
  unfold boolean_factor. destruct (violates lib pred val) as [[|]|]; [| |discriminate].
  - apply scale_score_finite. exact Hsc0.
  - intros H. injection H as <-. exact Hsc0.
Qed.



End RankingOrder.

(** ** Query decomposition *)

Lemma decompose_term_malformed acc qterm :
  malformed qterm -> decompose_term acc qterm = Err ValueError.
Proof.
  intros [Hc Hbad]. unfold decompose_term. destruct acc as [subs objs]. rewrite Hc.
  destruct (split " " qterm) as [|f1 [|f2 [|f3 [|f4 fs]]]]; try reflexivity.
  destruct Hbad as [Hbad|Hbad]; [simpl in Hbad; congruence|].
  simpl in Hbad.
  destruct (split ":" f1) as [|a [|b [|c cs]]]; try reflexivity.
  simpl in Hbad. congruence.
Qed.

Lemma decompose_term_error acc qterm e :
  decompose_term acc qterm = Err e -> e = ValueError.
Proof.
  unfold decompose_term. destruct acc as [subs objs].
  destruct (contains ":" qterm); [|discriminate].
  destruct (split " " qterm) as [|f1 [|f2 [|f3 [|f4 fs]]]]; try congruence.
  destruct (split ":" f1) as [|a [|b [|c cs]]]; congruence.
Qed.

Lemma decompose_malformed query qterm :
  In qterm query -> malformed qterm -> decompose query = Err ValueError.
Proof.
  unfold decompose. generalize (@nil string, @nil obj_pred).
  induction query as [|t query IH]; intros acc Hin Hbad; [destruct Hin|].
  simpl. destruct (decompose_term acc t) as [acc'|e] eqn:Ht.
  - destruct Hin as [->|Hin].
    + rewrite (decompose_term_malformed _ _ Hbad) in Ht. discriminate.
    + apply IH; assumption.
  - apply decompose_term_error in Ht. subst e. reflexivity.
Qed.

Lemma decompose_term_wellformed acc qterm :
  ~ malformed qterm ->
  if contains ":" qterm
  then exists pred, decompose_term acc qterm = Ok (acc.1, acc.2 ++ [pred]) /\
                    parses_as qterm pred
  else decompose_term acc qterm = Ok (acc.1 ++ [qterm], acc.2).
Proof.
  intros Hok. unfold decompose_term. destruct acc as [subs objs].
  destruct (contains ":" qterm) eqn:Hc; [|reflexivity].
  destruct (split " " qterm) as [|f1 [|f2 [|f3 [|f4 fs]]]] eqn:Hs;
    try (exfalso; apply Hok; split; [exact Hc | left; rewrite Hs; simpl; lia]).
  destruct (split ":" f1) as [|a [|b [|c cs]]] eqn:Hf;
    try (exfalso; apply Hok; split; [exact Hc | right; rewrite Hs; simpl; rewrite Hf; simpl; lia]).
  exists (a, b, f2, f3). split; [reflexivity|]. exists f1. split; [exact Hs | exact Hf].
Qed.

Lemma decompose_from (query : list string) (acc : list string * list obj_pred) :
  (forall qterm, qterm ∈ query -> ~ malformed qterm) ->
  exists objs, fold_result decompose_term query acc
               = Ok (acc.1 ++ subjective_terms query, acc.2 ++ objs) /\
               Forall2 parses_as (objective_terms query) objs.
Proof.
  revert acc. induction query as [|qterm query IH]; intros acc Hok.
  - exists []. cbn. rewrite !app_nil_r. destruct acc. split; [reflexivity | constructor].
  - pose proof (decompose_term_wellformed acc qterm (Hok qterm ltac:(left))) as Hterm.
    cbn [fold_result subjective_terms objective_terms List.filter].
    destruct (contains ":" qterm).
    + destruct Hterm as (pred & -> & Hpred).
      destruct (IH (acc.1, acc.2 ++ [pred])) as (objs & -> & Hobjs);
        [intros q Hq; apply Hok; right; exact Hq|].
      exists (pred :: objs). cbn [fst snd negb]. rewrite <- app_assoc.
      split; [reflexivity | constructor; assumption].
    + rewrite Hterm.
      destruct (IH (acc.1 ++ [qterm], acc.2)) as (objs & -> & Hobjs);
        [intros q Hq; apply Hok; right; exact Hq|].
      exists objs. cbn [fst snd negb]. rewrite <- app_assoc.
      split; [reflexivity | exact Hobjs].
Qed.

Lemma decompose_subjective (query : list string) :
  (forall qterm, qterm ∈ query -> ~ malformed qterm) ->
  exists objs, decompose query = Ok (subjective_terms query, objs).
Proof.
  intros Hok. destruct (decompose_from query ([], []) Hok) as (objs & Hdec & _).
  exists objs. exact Hdec.
Qed.

(** X9. A query without a malformed term is decomposed into its colon-free
    terms, in their order, and one (type, attribute, operator, operand)
    tuple per term with a colon, in their order, each the unpacking of its
    term. *)
Theorem decompose_wellformed (query : list string) :
  (forall qterm, qterm ∈ query -> ~ malformed qterm) ->
  exists objs, decompose query = Ok (subjective_terms query, objs) /\
               Forall2 parses_as (objective_terms query) objs.
Proof. intros Hok. exact (decompose_from query ([], []) Hok). Qed.

Section Decomposition.

Variable lib : imports.

(** C4 (amended). A query holding a term with a colon that does not split
    into three fields at single spaces, or whose first field does not split
    into two at the colon, makes [opine] raise [ValueError] while the query
    is decomposed: no cache entry is written, no collaborator is called and
    no entity is scored. The type tag itself is not inspected there. *)
Theorem opine_rejects_malformed self query bids mode obj_context st qterm :
  In qterm query -> malformed qterm ->
  opine lib self query bids mode obj_context st = (Err ValueError, st).
Proof.
  intros Hin Hbad. unfold opine, opine_scores, bind, lift.
  rewrite (decompose_malformed _ _ Hin Hbad). reflexivity.
Qed.

End Decomposition.

(** ** Phrase embedding *)

Section Embedding.

Variable lib : imports.

Lemma weighted_sum_from self words acc :
  idf_covers self words ->
  fold_result
    (fun res w =>
       match model_wv self !! w with
       | Some wvec =>
           match getitem (idf self !! w) with
           | Ok weight => Ok (vadd res (vscale wvec weight))
           | Err e => Err e
           end
       | None => Ok res
       end) words acc
  = Ok (foldl vadd acc (contributions self words)).
Proof.
  revert acc. induction words as [|w words IH]; intros acc Hcov; [reflexivity|].
  assert (Hrest : idf_covers self words).
  { intros w' Hw'. apply Hcov. right. exact Hw'. }
  simpl. unfold contributions. simpl.
  destruct (model_wv self !! w) as [wvec|] eqn:Hwv.
  - destruct (Hcov w) as [weight Hweight]; [left | eauto |].
    rewrite Hweight. simpl. apply IH. exact Hrest.
  - apply IH. exact Hrest.
Qed.

Lemma weighted_sum_keyerror self words w :
  w ∈ words -> is_Some (model_wv self !! w) -> idf self !! w = None ->
  weighted_sum self words = Err KeyError.
Proof.
  unfold weighted_sum. generalize (zeros 300).
  induction words as [|w' words IH]; intros acc Hin [wvec Hwv] Hidf.
  - inversion Hin.
  - simpl. destruct (decide (w' = w)) as [->|Hne].
    + rewrite Hwv, Hidf. reflexivity.
    + assert (Hin' : w ∈ words) by (inversion Hin; subst; [congruence | assumption]).
      destruct (model_wv self !! w') as [wvec'|].
      * destruct (idf self !! w') as [weight|]; simpl; [|reflexivity].
        apply IH; eauto.
      * apply IH; eauto.
Qed.

Lemma normalize_zeros n :
  Forall (fun x => (x == 0)%Q) (normalize lib (zeros n)) /\ length (normalize lib (zeros n)) = n.
Proof.
  unfold normalize, zeros. destruct (Qltb 0 _).
  - unfold vdiv. split.
    + apply Forall_forall. intros x Hx. apply list_elem_of_fmap in Hx.
      destruct Hx as (y & -> & Hy). apply elem_of_replicate in Hy. destruct Hy as [-> _].
      unfold Qdiv. apply Qmult_0_l.
    + rewrite length_map, length_replicate. reflexivity.
  - split; [|apply length_replicate].
    apply Forall_forall. intros x Hx. apply elem_of_replicate in Hx.
    destruct Hx as [-> _]. reflexivity.
Qed.

Lemma weighted_sum_dimension self words (res0 res : vec) :
  (forall w wvec, model_wv self !! w = Some wvec -> length wvec = 300%nat) ->
  length res0 = 300%nat ->
  fold_result
    (fun res w =>
       match model_wv self !! w with
       | Some wvec =>
           match getitem (idf self !! w) with
           | Ok weight => Ok (vadd res (vscale wvec weight))
           | Err e => Err e
           end
       | None => Ok res
       end) words res0 = Ok res ->
  length res = 300%nat.
Proof.
  intros Hwv. revert res0. induction words as [|w words IH]; intros res0 Hlen; cbn [fold_result].
  - intros H. injection H as <-. exact Hlen.
  - destruct (model_wv self !! w) as [wvec|] eqn:Hw; [|apply IH; exact Hlen].
    destruct (idf self !! w) as [weight|]; [|discriminate]. cbn [getitem].
    apply IH. unfold vadd, vscale. rewrite length_zip_with, length_map, Hlen, (Hwv _ _ Hw).
    reflexivity.
Qed.

Lemma normalize_length v : length (normalize lib v) = length v.
Proof.
  unfold normalize. destruct (Qltb 0 (numpy_norm lib v)); [|reflexivity].
  unfold vdiv. apply length_map.
Qed.

(** C2 (amended). When every vector of the embedding model has 300 entries
    and every token of the phrase that has an embedding also has an idf
    weight, [phrase2vec] returns a vector: the cached one on a hit; on a
    miss the normalized idf-weighted sum over the tokens present in both
    tables, a vector of 300 entries which it then caches, tokens without an
    embedding being skipped; the zero vector when no token contributes. *)
Theorem phrase2vec_total self phrase st :
  (forall w wvec, model_wv self !! w = Some wvec -> length wvec = 300%nat) ->
  idf_covers self (gensim_simple_preprocess lib phrase) ->
  exists v,
    phrase2vec lib self phrase st
      = (Ok v, match phrase2vec_cache st !! phrase with
               | Some _ => st
               | None => set_phrase2vec_cache (insert phrase v) st
               end) /\
    (forall cached, phrase2vec_cache st !! phrase = Some cached -> v = cached) /\
    (phrase2vec_cache st !! phrase = None ->
     v = spec_embed lib self phrase /\ length v = 300%nat /\
     (contributions self (gensim_simple_preprocess lib phrase) = [] ->
      Forall (fun x => (x == 0)%Q) v)).
Proof.
  intros Hwv Hcov. unfold phrase2vec, bind, get.
  destruct (phrase2vec_cache st !! phrase) as [cached|] eqn:Hc.
  - exists cached. split; [reflexivity|]. split; [congruence | discriminate].
  - unfold lift, weighted_sum.
    pose proof (weighted_sum_from self (gensim_simple_preprocess lib phrase) (zeros 300) Hcov)
      as Hsum.
    rewrite Hsum.
    exists (spec_embed lib self phrase). split; [reflexivity|].
    split; [discriminate|]. intros _. split; [reflexivity|]. split.
    + unfold spec_embed. rewrite normalize_length.
      exact (weighted_sum_dimension self _ _ _ Hwv (length_replicate _ _) Hsum).
    + intros Hnone. unfold spec_embed. rewrite Hnone. simpl. apply normalize_zeros.
Qed.

End Embedding.

(** ** Marker features *)

Section MarkerFeatures.

Variable lib : imports.









End MarkerFeatures.

(** ** Interpretation: the fallback *)

#[local] Instance same_calls_preorder : PreOrder same_calls.
Proof. split; unfold same_calls; [intros s | intros s1 s2 s3]; congruence. Qed.

Section Fallback.

Variable lib : imports.

Lemma phrase2vec_calls self phrase : preserves same_calls (phrase2vec lib self phrase).
Proof.
  unfold phrase2vec. repeat frame_step.
  apply preserves_modify. intros s. reflexivity.
Qed.

Lemma cooc_interpret_calls self qterm st :
  exists scan,
    calls (cooc_interpret lib self qterm st).2 = calls st ++ CallCooc qterm :: scan /\
    (scan = [] \/ scan = [CallBM25 (gensim_simple_preprocess lib qterm)]) /\
    (scan = [] <-> is_Some (cooc_interpret_cache st !! qterm)).
Proof.
  unfold cooc_interpret, bind, modify, get, lift, ret. simpl.
  destruct (cooc_interpret_cache st !! qterm) as [cached|] eqn:Hc; simpl.
  - exists []. split; [reflexivity|]. split; [left; reflexivity|]. split; eauto.
  - exists [CallBM25 (gensim_simple_preprocess lib qterm)].
    split; [|split; [right; reflexivity|split; [discriminate | intros [? ?]; discriminate]]].
    destruct (collect_votes _ _ _ _) as [[votes phrases]|e]; simpl;
      [|rewrite <- app_assoc; reflexivity].
    destruct (best_attribute _ _) as [[best [attr|]]|e]; simpl;
      try (rewrite <- app_assoc; reflexivity).
    destruct (phrases !! attr); simpl; rewrite <- app_assoc; reflexivity.
Qed.

Lemma cooc_interpret_invocations self qterm st :
  cooc_invocations (cooc_interpret lib self qterm st).2 = S (cooc_invocations st).
Proof.
  destruct (cooc_interpret_calls self qterm st) as (scan & Hcalls & Hscan & _).
  unfold cooc_invocations. rewrite Hcalls, List.filter_app, length_app. simpl.
  destruct Hscan as [-> | ->]; simpl; lia.
Qed.

(** C8. On a term that is not cached, once the term and its nearest
    catalogued phrase are embedded: [interpret] calls the co-occurrence
    interpreter exactly when their cosine similarity is below 0.4 or the
    term has exactly one token; the result of that call replaces the
    nearest-neighbour pair exactly when it is not null; and the chosen pair
    is returned and cached. *)
Theorem interpret_fallback self query_term st vector s1 res phrase_vec s2 :
  interpret_cache st !! query_term = None ->
  phrase2vec lib self query_term st = (Ok vector, s1) ->
  all_phrases self !! kd_tree self vector = Some res ->
  phrase2vec lib self res.2 s1 = (Ok phrase_vec, s2) ->
  let similarity := cosine lib phrase_vec vector in
  let query_len := length (gensim_simple_preprocess lib query_term) in
  ((similarity < 0.4)%Q \/ query_len = 1%nat ->
   forall cooc_res s3,
     cooc_interpret lib (cooc self) query_term s2 = (Ok cooc_res, s3) ->
     let final := match cooc_res with Some found => found | None => res end in
     interpret lib self query_term 0.4 st
       = (Ok final, set_interpret_cache (insert query_term final) s3) /\
     cooc_invocations s3 = S (cooc_invocations st)) /\
  (~ ((similarity < 0.4)%Q \/ query_len = 1%nat) ->
   interpret lib self query_term 0.4 st
     = (Ok res, set_interpret_cache (insert query_term res) s2) /\
   cooc_invocations s2 = cooc_invocations st).
Proof.
  intros Hmiss Hv Hres Hpv similarity query_len.
  assert (Hnear : nearest_phrase lib self query_term st
                  = (Ok (res, similarity, query_len), s2)).
  { unfold nearest_phrase. rewrite (bind_run _ _ _ _ _ Hv).
    unfold bind at 1, lift. rewrite Hres. rewrite (bind_run _ _ _ _ _ Hpv). reflexivity. }
  assert (Hcalls : calls s2 = calls st).
  { pose proof (phrase2vec_calls self query_term st) as H1.
    pose proof (phrase2vec_calls self res.2 s1) as H2.
    unfold same_calls in H1, H2. rewrite Hv in H1. rewrite Hpv in H2. simpl in *. congruence. }
  assert (Hinv : cooc_invocations s2 = cooc_invocations st).
  { unfold cooc_invocations. rewrite Hcalls. reflexivity. }
  assert (Htrig : falls_back 0.4 similarity query_len = true
                  <-> ((similarity < 0.4)%Q \/ query_len = 1%nat)).
  { unfold falls_back. rewrite orb_true_iff, Qltb_true, Nat.eqb_eq. reflexivity. }
  split.
  - intros Hyes cooc_res s3 Hcooc final. apply Htrig in Hyes.
    split.
    + unfold interpret. unfold bind at 1, get. rewrite Hmiss.
      rewrite (bind_run _ _ _ _ _ Hnear). rewrite Hyes.
      unfold bind at 1. rewrite (bind_run _ _ _ _ _ Hcooc).
      subst final. destruct cooc_res; reflexivity.
    + pose proof (cooc_interpret_invocations (cooc self) query_term s2) as Hone.
      rewrite Hcooc in Hone. simpl in Hone. rewrite Hone, Hinv. reflexivity.
  - intros Hno. split; [|exact Hinv].
    destruct (falls_back 0.4 similarity query_len) eqn:E.
    + exfalso. apply Hno, Htrig. reflexivity.
    + unfold interpret. unfold bind at 1, get. rewrite Hmiss.
      rewrite (bind_run _ _ _ _ _ Hnear). rewrite E. reflexivity.
Qed.

End Fallback.

(** ** The co-occurrence interpreter *)

Lemma assoc_get_set_eq {A} k (v : A) d : assoc_get k (assoc_set k v d) = Some v.
Proof.
  induction d as [|[k' v'] d IH]; simpl.
  - rewrite String.eqb_refl. reflexivity.
  - destruct (String.eqb k k') eqn:E; simpl; rewrite ?String.eqb_refl, ?E; auto.
Qed.

Lemma assoc_get_set_ne {A} k k' (v : A) d :
  k <> k' -> assoc_get k' (assoc_set k v d) = assoc_get k' d.
Proof.
  intros Hne. induction d as [|[k0 v0] d IH]; simpl.
  - destruct (String.eqb k' k) eqn:E; [|reflexivity].
    apply String.eqb_eq in E. congruence.
  - destruct (String.eqb k k0) eqn:E; simpl.
    + apply String.eqb_eq in E. subst k0.
      destruct (String.eqb k' k) eqn:E'; [|reflexivity].
      apply String.eqb_eq in E'. congruence.
    + rewrite IH. reflexivity.
Qed.

Lemma assoc_get_elem {A} k (v : A) d : assoc_get k d = Some v -> (k, v) ∈ d.
Proof.
  induction d as [|[k' v'] d IH]; simpl; [discriminate|].
  destruct (String.eqb k k') eqn:E.
  - apply String.eqb_eq in E. subst k'. intros H. injection H as ->. left.
  - intros H. right. apply IH. exact H.
Qed.

Section Cooccurrence.

Variable lib : imports.

Lemma closest_from self rid qterm (all rest : list extraction) acc :
  is_Some (cooc_position_index self !! rid) ->
  (forall ext, ext ∈ rest -> ext ∈ all) ->
  (forall attr, acc.2 = Some attr -> exists ext, ext ∈ all /\ ext_attribute ext = attr) ->
  exists d p a,
    fold_result (closer lib self rid qterm) rest acc = Ok (d, p, a) /\
    forall attr, a = Some attr -> exists ext, ext ∈ all /\ ext_attribute ext = attr.
Proof.
  intros [pidx Hp]. revert acc.
  induction rest as [|ext rest IH]; intros [[d0 p0] a0] Hsub Hacc.
  - exists d0, p0, a0. split; [reflexivity | exact Hacc].
  - assert (Hsub' : forall ext', ext' ∈ rest -> ext' ∈ all).
    { intros ext' Hin. apply Hsub. right. exact Hin. }
    cbn [fold_result]. unfold closer at 1. rewrite Hp. cbn [getitem]. cbv zeta.
    destruct (_ && _).
    + apply IH; [exact Hsub'|].
      intros attr Hattr. injection Hattr as <-. exists ext.
      split; [apply Hsub; left | reflexivity].
    + apply IH; [exact Hsub' | exact Hacc].
Qed.

Lemma closest_extraction_ok self rid qterm exts :
  is_Some (cooc_position_index self !! rid) ->
  exists d p a,
    closest_extraction lib self rid qterm exts = Ok (d, p, a) /\
    forall attr, a = Some attr -> exists ext, ext ∈ exts /\ ext_attribute ext = attr.
Proof.
  intros Hp. unfold closest_extraction.
  apply closest_from; [exact Hp | auto | discriminate].
Qed.

Lemma co_occurrence_attr self qterm rid attr phrase :
  cooc_wf self -> rid ∈ cooc_review_ids self ->
  co_occurrence lib self qterm rid = Some (attr, phrase) ->
  is_Some (cooc_idf self !! attr).
Proof.
  intros Hwf Hrid. destruct (Hwf rid Hrid) as (r & Hr & Hp & Hidf).
  unfold co_occurrence. rewrite Hr.
  destruct (closest_extraction_ok self rid qterm (review_extractions r) Hp)
    as (d & p & a & Hc & Hattr).
  rewrite Hc. destruct a as [a|]; [|discriminate].
  intros H. injection H as -> ->.
  destruct (Hattr attr eq_refl) as (ext & Hin & <-). apply Hidf. exact Hin.
Qed.

Lemma vote_spec self qterm score_mp acc rid s :
  cooc_wf self -> rid ∈ cooc_review_ids self -> score_mp !! rid = Some s ->
  vote lib self qterm score_mp acc rid
  = Ok (if Qltb 0 s
        then match co_occurrence lib self qterm rid with
             | Some w => cast acc w
             | None => acc
             end
        else acc).
Proof.
  intros Hwf Hrid Hs. destruct (Hwf rid Hrid) as (r & Hr & Hp & _).
  unfold vote. destruct acc as [votes phrases]. rewrite Hs. simpl.
  unfold Qltb. destruct (Qle_bool s 0); [reflexivity|]. simpl.
  unfold co_occurrence. rewrite Hr. simpl.
  destruct (closest_extraction_ok self rid qterm (review_extractions r) Hp)
    as (d & p & a & Hc & _).
  rewrite Hc. destruct a as [a|]; [|reflexivity].
  unfold cast. simpl. destruct (assoc_get a votes); reflexivity.
Qed.

Lemma votes_fold self qterm score_mp rids acc :
  cooc_wf self ->
  (forall rid, rid ∈ rids -> rid ∈ cooc_review_ids self /\ is_Some (score_mp !! rid)) ->
  fold_result (vote lib self qterm score_mp) rids acc
  = Ok (foldl cast acc
          (omap (co_occurrence lib self qterm)
             (List.filter (fun rid => match score_mp !! rid with
                                      | Some s => Qltb 0 s
                                      | None => false
                                      end) rids))).
Proof.
  intros Hwf. revert acc. induction rids as [|rid rids IH]; intros acc Hin; [reflexivity|].
  destruct (Hin rid) as [Hrid [s Hs]]; [left|].
  cbn [fold_result List.filter]. rewrite (vote_spec _ _ _ _ _ _ Hwf Hrid Hs), Hs.
  assert (Hin' : forall rid', rid' ∈ rids ->
                   rid' ∈ cooc_review_ids self /\ is_Some (score_mp !! rid')).
  { intros rid' H'. apply Hin. right. exact H'. }
  destruct (Qltb 0 s); [|apply IH; exact Hin'].
  cbn [omap list_omap]. destruct (co_occurrence lib self qterm rid) as [w|]; simpl; apply IH; exact Hin'.
Qed.

Lemma votes_for_app attr W w :
  votes_for attr (W ++ [w]) = (votes_for attr W + if String.eqb w.1 attr then 1 else 0)%nat.
Proof.
  unfold votes_for. rewrite List.filter_app, length_app. simpl.
  destruct (String.eqb w.1 attr); reflexivity.
Qed.

Lemma votes_for_pos attr (W : list (string * string)) :
  (0 < votes_for attr W)%nat <-> exists p, (attr, p) ∈ W.
Proof.
  unfold votes_for. induction W as [|[a p] W IH]; simpl.
  - split; [lia | intros [p Hp]; inversion Hp].
  - destruct (String.eqb a attr) eqn:E; simpl.
    + apply String.eqb_eq in E. subst a. split; [|lia]. intros _. exists p. left.
    + rewrite IH. split; intros [p' Hp'].
      * exists p'. right. exact Hp'.
      * inversion Hp'; subst; [rewrite String.eqb_refl in E; discriminate|].
        exists p'. assumption.
Qed.

Lemma first_phrase_app attr W w :
  first_phrase attr (W ++ [w])
  = if (0 <? votes_for attr W)%nat then first_phrase attr W
    else if String.eqb w.1 attr then Some w.2 else None.
Proof.
  unfold first_phrase, votes_for. induction W as [|[a p] W IH]; simpl.
  - destruct (String.eqb w.1 attr); reflexivity.
  - destruct (String.eqb a attr); simpl; [reflexivity | exact IH].
Qed.

Lemma first_phrase_none attr W :
  votes_for attr W = 0%nat -> first_phrase attr W = None.
Proof.
  unfold first_phrase, votes_for. induction W as [|[a p] W IH]; simpl; [reflexivity|].
  destruct (String.eqb a attr); simpl; [discriminate | exact IH].
Qed.

Lemma first_phrase_some attr W :
  (0 < votes_for attr W)%nat -> is_Some (first_phrase attr W).
Proof.
  unfold first_phrase, votes_for. induction W as [|[a p] W IH]; simpl; [lia|].
  destruct (String.eqb a attr); simpl; [eauto | exact IH].
Qed.

Lemma assoc_get_none_keys {A} k (d : list (string * A)) :
  assoc_get k d = None -> k ∉ map fst d.
Proof.
  induction d as [|[k0 v0] d IH]; cbn [assoc_get map fst]; intros Hget Hin; [inversion Hin|].
  destruct (String.eqb k k0) eqn:E; [discriminate|].
  apply String.eqb_neq in E. inversion Hin; subst; [congruence|].
  apply IH; assumption.
Qed.

Lemma assoc_set_keys {A} k (v : A) (d : list (string * A)) :
  map fst (assoc_set k v d)
  = match assoc_get k d with Some _ => map fst d | None => map fst d ++ [k] end.
Proof.
  induction d as [|[k0 v0] d IH]; cbn [assoc_get assoc_set map fst]; [reflexivity|].
  destruct (String.eqb k k0) eqn:E; cbn [map fst].
  - apply String.eqb_eq in E. subst k0. reflexivity.
  - rewrite IH. destruct (assoc_get k d); reflexivity.
Qed.

Lemma assoc_set_nodup {A} k (v : A) (d : list (string * A)) :
  NoDup (map fst d) -> NoDup (map fst (assoc_set k v d)).
Proof.
  intros Hnd. rewrite assoc_set_keys. destruct (assoc_get k d) eqn:E; [exact Hnd|].
  apply NoDup_app. split; [exact Hnd|]. split; [|apply NoDup_singleton].
  intros x Hx Hk. apply list_elem_of_singleton in Hk. subst x.
  exact (assoc_get_none_keys _ _ E Hx).
Qed.

Lemma assoc_elem_get_nodup {A} k (v : A) (d : list (string * A)) :
  NoDup (map fst d) -> (k, v) ∈ d -> assoc_get k d = Some v.
Proof.
  induction d as [|[k0 v0] d IH]; intros Hnd Hin; [inversion Hin|].
  cbn [assoc_get map fst] in *. apply NoDup_cons in Hnd. destruct Hnd as [Hk0 Hnd].
  inversion Hin; subst.
  - rewrite String.eqb_refl. reflexivity.
  - destruct (String.eqb k k0) eqn:E; [|apply IH; assumption].
    apply String.eqb_eq in E. subst k0. exfalso. apply Hk0.
    apply (list_elem_of_fmap_2 fst _ (k, v)). assumption.
Qed.

Lemma cast_tallied W acc w : tallied W acc -> tallied (W ++ [w]) (cast acc w).
Proof.
  destruct acc as [votes phrases], w as [a0 p0]. unfold tallied. cbn [fst snd].
  intros [Hnd Hinv]. unfold cast. cbn [fst snd].
  destruct (Hinv a0) as [Hcount0 Hphrase0].
  destruct (assoc_get a0 votes) as [n0|] eqn:Hget.
  - split; [apply assoc_set_nodup; exact Hnd|]. intros attr. cbn [fst snd].
    rewrite votes_for_app, first_phrase_app. cbn [fst snd].
    destruct (Hinv attr) as [Hcount Hphrase].
    destruct (decide (a0 = attr)) as [->|Hne].
    + rewrite assoc_get_set_eq, String.eqb_refl. destruct Hcount0 as [Hn0 Hpos].
      split; [split; [|lia]|].
      * rewrite Hn0, Nat2Z.inj_add, inject_Z_plus. reflexivity.
      * apply Nat.ltb_lt in Hpos. rewrite Hpos. exact Hphrase.
    + rewrite (assoc_get_set_ne _ _ _ _ Hne).
      assert (E : String.eqb a0 attr = false) by (apply String.eqb_neq; exact Hne).
      rewrite E, Nat.add_0_r. split; [exact Hcount|].
      rewrite Hphrase. destruct (0 <? votes_for attr W)%nat eqn:Hz; [reflexivity|].
      apply Nat.ltb_ge in Hz. apply first_phrase_none. lia.
  - split; [apply assoc_set_nodup; exact Hnd|]. intros attr. cbn [fst snd].
    rewrite votes_for_app, first_phrase_app. cbn [fst snd].
    destruct (Hinv attr) as [Hcount Hphrase].
    destruct (decide (a0 = attr)) as [->|Hne].
    + rewrite assoc_get_set_eq, String.eqb_refl, Hcount0. simpl.
      split; [split; [reflexivity | lia]|]. apply lookup_insert_eq.
    + rewrite (assoc_get_set_ne _ _ _ _ Hne).
      assert (E : String.eqb a0 attr = false) by (apply String.eqb_neq; exact Hne).
      rewrite E, Nat.add_0_r. split; [exact Hcount|].
      rewrite lookup_insert_ne by exact Hne. rewrite Hphrase.
      destruct (0 <? votes_for attr W)%nat eqn:Hz; [reflexivity|].
      apply Nat.ltb_ge in Hz. apply first_phrase_none. lia.
Qed.

Lemma foldl_cast_tallied W : tallied W (foldl cast ([], ∅) W).
Proof.
  induction W as [|w W IH] using rev_ind.
  - split; [constructor|]. intros attr. simpl. split; [reflexivity | apply lookup_empty].
  - rewrite foldl_app. simpl. apply cast_tallied. exact IH.
Qed.

Lemma best_from self (votes : list (string * Q)) b0 r0 :
  (forall a n, (a, n) ∈ votes -> is_Some (cooc_idf self !! a)) ->
  exists b r,
    fold_result (better self) votes (b0, r0) = Ok (b, r) /\
    (b0 <= b)%Q /\
    (forall a n w, (a, n) ∈ votes -> cooc_idf self !! a = Some w -> (n * w <= b)%Q) /\
    ((b, r) = (b0, r0) \/
     exists a n w, (a, n) ∈ votes /\ cooc_idf self !! a = Some w /\
                   r = Some a /\ b = (n * w)%Q /\ (b0 < b)%Q).
Proof.
  revert b0 r0. induction votes as [|[a n] votes IH]; intros b0 r0 Hidf.
  - exists b0, r0. split; [reflexivity|]. split; [apply Qle_refl|].
    split; [intros ? ? ? Hin; inversion Hin | left; reflexivity].
  - destruct (Hidf a n) as [w Hw]; [left|].
    assert (Hidf' : forall a' n', (a', n') ∈ votes -> is_Some (cooc_idf self !! a')).
    { intros a' n' Hin. apply (Hidf a' n'). right. exact Hin. }
    cbn [fold_result]. unfold better at 1. rewrite Hw. cbn [getitem].
    destruct (Qltb b0 (n * w)) eqn:E.
    + apply Qltb_true in E.
      destruct (IH (n * w)%Q (Some a) Hidf') as (b & r & Hrun & Hle & Hmax & Hwho).
      exists b, r. split; [exact Hrun|].
      split; [apply Qlt_le_weak; eapply Qlt_le_trans; eassumption|].
      split.
      * intros a' n' w' Hin Hw'. inversion Hin; subst.
        -- rewrite Hw in Hw'. injection Hw' as <-. exact Hle.
        -- eapply Hmax; eassumption.
      * right. destruct Hwho as [Heq | (a' & n' & w' & Hin & Hw' & Hr & Hb & Hlt)].
        -- injection Heq as -> ->. exists a, n, w.
           split; [left|]. repeat split; try reflexivity; assumption.
        -- exists a', n', w'. split; [right; exact Hin|].
           repeat split; try assumption. eapply Qlt_trans; eassumption.
    + apply Qltb_false in E.
      destruct (IH b0 r0 Hidf') as (b & r & Hrun & Hle & Hmax & Hwho).
      exists b, r. split; [exact Hrun|]. split; [exact Hle|]. split.
      * intros a' n' w' Hin Hw'. inversion Hin; subst.
        -- rewrite Hw in Hw'. injection Hw' as <-. eapply Qle_trans; eassumption.
        -- eapply Hmax; eassumption.
      * destruct Hwho as [Heq | (a' & n' & w' & Hin & Hrest)]; [left; exact Heq|].
        right. exists a', n', w'. split; [right; exact Hin | exact Hrest].
Qed.

Lemma review_scores_from self scores (entries : list (nat * string)) acc :
  (forall i rid, (i, rid) ∈ entries -> is_Some (cooc_reviews self !! rid)) ->
  exists mp,
    fold_result (score_review self scores) entries acc = Ok mp /\
    forall rid, (is_Some (acc !! rid) \/ exists i, (i, rid) ∈ entries) -> is_Some (mp !! rid).
Proof.
  revert acc. induction entries as [|[i rid] entries IH]; intros acc Hrev.
  - exists acc. split; [reflexivity|]. intros rid [H|[i Hi]]; [exact H | inversion Hi].
  - destruct (Hrev i rid) as [r Hr]; [left|].
    assert (Hrev' : forall i' rid', (i', rid') ∈ entries -> is_Some (cooc_reviews self !! rid')).
    { intros i' rid' Hin. apply (Hrev i' rid'). right. exact Hin. }
    cbn [fold_result]. unfold score_review at 1. rewrite Hr. cbn [getitem].
    destruct (Qltb 0 (scores i)).
    + destruct (IH (<[rid := (scores i * review_sentiment r)%Q]> acc) Hrev') as (mp & Hrun & Hall).
      exists mp. split; [exact Hrun|]. intros rid' [Hacc|[i' Hin]].
      * apply Hall. left. destruct (decide (rid = rid')) as [->|Hne];
          [rewrite lookup_insert_eq; eauto | rewrite lookup_insert_ne; assumption].
      * inversion Hin; subst.
        -- apply Hall. left. rewrite lookup_insert_eq. eauto.
        -- apply Hall. right. eauto.
    + destruct (IH (<[rid := 0%Q]> acc) Hrev') as (mp & Hrun & Hall).
      exists mp. split; [exact Hrun|]. intros rid' [Hacc|[i' Hin]].
      * apply Hall. left. destruct (decide (rid = rid')) as [->|Hne];
          [rewrite lookup_insert_eq; eauto | rewrite lookup_insert_ne; assumption].
      * inversion Hin; subst.
        -- apply Hall. left. rewrite lookup_insert_eq. eauto.
        -- apply Hall. right. eauto.
Qed.

Lemma review_scores_ok self scores :
  cooc_wf self ->
  exists mp, review_scores self scores = Ok mp /\
             forall rid, rid ∈ cooc_review_ids self -> is_Some (mp !! rid).
Proof.
  intros Hwf. unfold review_scores.
  destruct (review_scores_from self scores (enumerate (cooc_review_ids self)) ∅)
    as (mp & Hrun & Hall).
  - intros i rid Hin. unfold enumerate in Hin.
    apply elem_of_lookup_imap in Hin. destruct Hin as (j & x & Heq & Hj).
    injection Heq as -> ->. destruct (Hwf x) as (r & Hr & _); [|eauto].
    eapply list_elem_of_lookup_2. exact Hj.
  - exists mp. split; [exact Hrun|]. intros rid Hin. apply Hall. right.
    apply list_elem_of_lookup in Hin. destruct Hin as [i Hi]. exists i.
    unfold enumerate. apply elem_of_lookup_imap. exists i, rid. split; [reflexivity | exact Hi].
Qed.


Lemma sort_reviews_ok self (mp : gmap string Q) :
  (forall rid, rid ∈ cooc_review_ids self -> is_Some (mp !! rid)) ->
  exists sorted, sort_reviews self mp = Ok sorted /\
                 Permutation sorted (cooc_review_ids self).
Proof.
  intros Hall. unfold sort_reviews.
  destruct (map_result_total
              (fun rid => match getitem (mp !! rid) with
                          | Ok s => Ok ((- s)%Q, rid)
                          | Err e => Err e
                          end) (cooc_review_ids self)) as [keyed Hk].
  - apply Forall_forall. intros rid Hin. destruct (Hall rid Hin) as [s Hs].
    rewrite Hs. eexists. reflexivity.
  - rewrite Hk. eexists. split; [reflexivity|].
    assert (Hids : map snd keyed = cooc_review_ids self).
    { apply map_result_ok in Hk. clear Hall.
      induction Hk as [|rid y rids keyed Hy _ IH]; [reflexivity|].
      destruct (mp !! rid); [|discriminate]. cbn [getitem] in Hy. injection Hy as <-.
      cbn [map snd]. rewrite IH. reflexivity. }
    rewrite <- Hids. apply Permutation_map, sort_keyed_perm.
Qed.

Lemma winners_idf self qterm score_mp sorted a p :
  cooc_wf self -> Permutation sorted (cooc_review_ids self) ->
  (a, p) ∈ winners lib self qterm score_mp sorted -> is_Some (cooc_idf self !! a).
Proof.
  intros Hwf Hperm Hin. unfold winners in Hin.
  apply list_elem_of_omap in Hin. destruct Hin as (rid & Hrid & Hco).
  eapply co_occurrence_attr; [exact Hwf| |exact Hco].
  unfold retained in Hrid. apply list_elem_of_In, List.filter_In in Hrid.
  destruct Hrid as [Hrid _]. apply list_elem_of_In in Hrid.
  rewrite <- Hperm. unfold slice_to in Hrid.
  eapply subseteq_take. exact Hrid.
Qed.

Lemma collect_votes_ok self qterm scores :
  cooc_wf self ->
  exists score_mp sorted,
    review_scores self scores = Ok score_mp /\
    sort_reviews self score_mp = Ok sorted /\
    Permutation sorted (cooc_review_ids self) /\
    collect_votes lib self qterm scores
    = Ok (foldl cast ([], ∅) (winners lib self qterm score_mp sorted)).
Proof.
  intros Hwf.
  destruct (review_scores_ok self scores Hwf) as (mp & Hmp & Hall).
  destruct (sort_reviews_ok self mp Hall) as (sorted & Hsort & Hperm).
  exists mp, sorted. split; [exact Hmp|]. split; [exact Hsort|]. split; [exact Hperm|].
  unfold collect_votes. rewrite Hmp, Hsort.
  rewrite (votes_fold self qterm mp (slice_to 10 sorted) _ Hwf); [reflexivity|].
  intros rid Hrid. unfold slice_to in Hrid. apply subseteq_take in Hrid.
  rewrite Hperm in Hrid. split; [exact Hrid | apply Hall; exact Hrid].
Qed.

(** C7 (amended). On a term that is not cached, an interpreter as built by
    [__init__] returns (null, null) exactly when no attribute that received
    a vote has a positive idf-weighted vote count, in particular when no
    retained review yielded a co-occurrence; otherwise it returns an
    attribute of highest idf-weighted vote count, that count being positive,
    with the phrase remembered at the attribute's first vote. *)
Theorem cooc_interpret_result self qterm st :
  cooc_wf self -> cooc_interpret_cache st !! qterm = None ->
  exists score_mp sorted r st',
    review_scores self (gensim_bm25_get_scores lib (cooc_bm25 self)
                          (gensim_simple_preprocess lib qterm)) = Ok score_mp /\
    sort_reviews self score_mp = Ok sorted /\
    cooc_interpret lib self qterm st = (Ok r, st') /\
    let W := winners lib self qterm score_mp sorted in
    (W = [] -> r = None) /\
    (r = None <-> forall a p, (a, p) ∈ W -> (weighted_vote self a W <= 0)%Q) /\
    (forall a p, r = Some (a, p) ->
       first_phrase a W = Some p /\ (0 < weighted_vote self a W)%Q /\
       forall a' p', (a', p') ∈ W ->
                     (weighted_vote self a' W <= weighted_vote self a W)%Q).
Proof.
  intros Hwf Hmiss.
  destruct (collect_votes_ok self qterm
              (gensim_bm25_get_scores lib (cooc_bm25 self) (gensim_simple_preprocess lib qterm))
              Hwf) as (mp & sorted & Hmp & Hsort & Hperm & Hvotes).
  set (W := winners lib self qterm mp sorted) in *.
  pose proof (foldl_cast_tallied W) as Htally.
  destruct (foldl cast ([], ∅) W) as [votes phrases] eqn:Hfold.
  destruct Htally as [Hnd Hinv]. cbn [fst snd] in Hnd, Hinv.
  (* every entry of the vote dict counts the votes of an attribute of [W] *)
  assert (Hentry : forall a n, (a, n) ∈ votes ->
            (n == inject_Z (Z.of_nat (votes_for a W)))%Q /\ exists p, (a, p) ∈ W).
  { intros a n Hin. pose proof (assoc_elem_get_nodup _ _ _ Hnd Hin) as Hget.
    destruct (Hinv a) as [Hcount _]. rewrite Hget in Hcount.
    destruct Hcount as [Hn Hpos]. split; [exact Hn | apply votes_for_pos; exact Hpos]. }
  assert (Hattr : forall a p, (a, p) ∈ W -> exists n, (a, n) ∈ votes).
  { intros a p Hin. destruct (Hinv a) as [Hcount _].
    destruct (assoc_get a votes) as [n|] eqn:Hget.
    - exists n. apply assoc_get_elem. exact Hget.
    - exfalso. assert (0 < votes_for a W)%nat by (apply votes_for_pos; eauto). lia. }
  assert (Hidf : forall a n, (a, n) ∈ votes -> is_Some (cooc_idf self !! a)).
  { intros a n Hin. destruct (Hentry a n Hin) as [_ [p Hp]].
    eapply winners_idf; eassumption. }
  assert (Hweight : forall a n w, (a, n) ∈ votes -> cooc_idf self !! a = Some w ->
            (n * w == weighted_vote self a W)%Q).
  { intros a n w Hin Hw. destruct (Hentry a n Hin) as [Hn _].
    unfold weighted_vote. rewrite Hw. simpl. rewrite Hn. reflexivity. }
  destruct (best_from self votes 0%Q None Hidf) as (b & r0 & Hbest & Hb0 & Hmax & Hwho).
  assert (Hrun : exists r st',
            cooc_interpret lib self qterm st = (Ok r, st') /\
            match r0 with
            | None => r = None
            | Some a => exists p, phrases !! a = Some p /\ r = Some (a, p)
            end).
  { unfold cooc_interpret, bind, modify, get, lift, ret. cbn [cooc_interpret_cache record_call].
    rewrite Hmiss. rewrite Hvotes. unfold best_attribute. rewrite Hbest.
    destruct r0 as [a|]; [|eexists _, _; split; reflexivity].
    destruct Hwho as [Heq | (a' & n' & w' & Hin & Hw' & Hr & _)]; [discriminate|].
    injection Hr as <-. destruct (Hentry a n' Hin) as [_ [p Hp]].
    destruct (Hinv a) as [_ Hphrase].
    destruct (first_phrase_some a W) as [p' Hp']; [apply votes_for_pos; eauto|].
    rewrite Hp' in Hphrase. rewrite Hphrase. cbn [getitem].
    eexists _, _. split; [reflexivity|]. eexists. split; reflexivity. }
  destruct Hrun as (r & st' & Hrun & Hr).
  exists mp, sorted, r, st'. split; [exact Hmp|]. split; [exact Hsort|].
  split; [exact Hrun|]. cbv zeta. fold W.
  assert (Hnone : r0 = None -> forall a p, (a, p) ∈ W -> (weighted_vote self a W <= 0)%Q).
  { intros -> a p Hin.
    destruct Hwho as [Heq | (a' & n' & w' & _ & _ & Hr' & _)]; [|discriminate].
    injection Heq as ->. destruct (Hattr a p Hin) as [n Hn].
    destruct (Hidf a n Hn) as [w Hw].
    rewrite <- (Hweight a n w Hn Hw). eapply Hmax; eassumption. }
  assert (Hsome : forall a, r0 = Some a ->
            (0 < weighted_vote self a W)%Q /\
            forall a' p', (a', p') ∈ W ->
                          (weighted_vote self a' W <= weighted_vote self a W)%Q).
  { intros a ->.
    destruct Hwho as [Heq | (a' & n' & w' & Hin & Hw' & Hr' & Hb & Hlt)]; [discriminate|].
    injection Hr' as <-. split.
    - rewrite <- (Hweight a n' w' Hin Hw'), <- Hb. exact Hlt.
    - intros a2 p2 Hin2. destruct (Hattr a2 p2 Hin2) as [n2 Hn2].
      destruct (Hidf a2 n2 Hn2) as [w2 Hw2].
      rewrite <- (Hweight a2 n2 w2 Hn2 Hw2), <- (Hweight a n' w' Hin Hw'), <- Hb.
      eapply Hmax; eassumption. }
  split; [|split].
  - intros HW. destruct r0 as [a|]; [|exact Hr].
    exfalso. destruct Hwho as [Heq | (a' & n' & w' & Hin & _)]; [discriminate|].
    destruct (Hentry a' n' Hin) as [_ [p Hp]]. rewrite HW in Hp. inversion Hp.
  - split.
    + intros ->. destruct r0 as [a|]; [destruct Hr as (p & _ & Hr); discriminate|].
      apply Hnone. reflexivity.
    + intros Hall. destruct r0 as [a|]; [|exact Hr]. exfalso.
      destruct (Hsome a eq_refl) as [Hpos _].
      destruct Hwho as [Heq | (a' & n' & w' & Hin & _ & Hr' & _)]; [discriminate|].
      injection Hr' as <-. destruct (Hentry a n' Hin) as [_ [p Hp]].
      exact (Qlt_not_le _ _ Hpos (Hall a p Hp)).
  - intros a p ->. destruct r0 as [a0|]; [|discriminate].
    destruct Hr as (p0 & Hp0 & Hr). injection Hr as <- <-.
    destruct (Hinv a) as [_ Hphrase]. rewrite Hp0 in Hphrase.
    split; [symmetry; exact Hphrase|]. apply Hsome. reflexivity.
Qed.

End Cooccurrence.

(** ** The catalog under the operations *)

#[local] Instance opt_rel_preorder {A} (R : relation A) `{!PreOrder R} : PreOrder (opt_rel R).
Proof.
  split.
  - intros [a|]; simpl; [reflexivity | exact I].
  - intros [a|] [b|] [c|]; simpl; try tauto. apply transitivity.
Qed.

#[local] Instance summaries_similar_preorder : PreOrder summaries_similar.
Proof.
  split.
  - intros sm attr. reflexivity.
  - intros sm1 sm2 sm3 H12 H23 attr. etransitivity; [apply H12 | apply H23].
Qed.

#[local] Instance entity_similar_preorder : PreOrder entity_similar.
Proof.
  split.
  - intros e. repeat split. reflexivity.
  - intros e1 e2 e3 (Hh12 & Hf12 & Hs12) (Hh23 & Hf23 & Hs23).
    repeat split; [congruence | congruence | etransitivity; eassumption].
Qed.

#[local] Instance same_catalog_preorder : PreOrder same_catalog.
Proof.
  split.
  - intros s bid. reflexivity.
  - intros s1 s2 s3 H12 H23 bid. etransitivity; [apply H12 | apply H23].
Qed.

Lemma same_entities_catalog s s' : same_entities s s' -> same_catalog s s'.
Proof. unfold same_entities. intros H bid. rewrite H. reflexivity. Qed.

Lemma preserves_weaken (R R' : relation state) {A} (m : M A) :
  (forall s s', R s s' -> R' s s') -> preserves R m -> preserves R' m.
Proof. intros Hsub Hm s. apply Hsub, Hm. Qed.

Lemma sort_summary_perm summary sorted :
  sort_summary summary = Ok sorted -> Permutation summary sorted.
Proof.
  unfold sort_summary.
  destruct (map_result _ summary) as [keyed|e] eqn:Hk; [|discriminate].
  intros H. injection H as <-.
  assert (Hsnd : map snd keyed = summary).
  { apply map_result_ok in Hk. induction Hk as [|m y summary keyed Hy _ IH]; [reflexivity|].
    destruct (mean_senti m) as [k|e]; [|discriminate]. injection Hy as <-.
    simpl. f_equal. exact IH. }
  rewrite <- Hsnd. symmetry. apply Permutation_map, sort_keyed_perm.
Qed.

Lemma store_summary_similar ents bid attr_name summary sorted :
  summary_of ents bid attr_name = Ok summary -> Permutation summary sorted ->
  forall bid', opt_rel entity_similar (ents !! bid')
                       (store_summary bid attr_name sorted ents !! bid').
Proof.
  intros Hsum Hperm bid'. unfold store_summary.
  destruct (decide (bid = bid')) as [<-|Hne]; [|rewrite lookup_alter_ne by exact Hne; reflexivity].
  rewrite lookup_alter_eq. unfold summary_of in Hsum.
  destruct (ents !! bid) as [e|]; [|exact I]. simpl in *.
  destruct (ent_summaries e) as [sm|] eqn:Hsm; [|discriminate]. simpl in *.
  destruct (sm !! attr_name) as [l|] eqn:Hl; [|discriminate]. injection Hsum as ->.
  split; [reflexivity|]. split; [reflexivity|]. simpl. rewrite Hsm. simpl.
  intros attr. destruct (decide (attr_name = attr)) as [<-|Hne].
  - rewrite lookup_insert_eq, Hl. exact Hperm.
  - rewrite lookup_insert_ne by exact Hne. reflexivity.
Qed.

Create HintDb frame discriminated.

Ltac frame :=
  repeat first
    [ solve [eauto with frame]
    | apply preserves_modify; first [solve [intros ? ?; reflexivity] | typeclasses eauto]
    | frame_step ].

Section CatalogFrames.

Variable lib : imports.

Lemma phrase2vec_catalog self phrase : preserves same_catalog (phrase2vec lib self phrase).
Proof.
  eapply preserves_weaken; [exact same_entities_catalog | apply phrase2vec_entities].
Qed.

Lemma cooc_interpret_catalog self qterm : preserves same_catalog (cooc_interpret lib self qterm).
Proof.
  eapply preserves_weaken; [|apply cooc_interpret_upto_calls].
  intros s s' (He & _). apply same_entities_catalog. exact He.
Qed.

#[local] Hint Resolve phrase2vec_catalog cooc_interpret_catalog : frame.

Lemma nearest_phrase_catalog self query_term :
  preserves same_catalog (nearest_phrase lib self query_term).
Proof. unfold nearest_phrase. frame. Qed.

#[local] Hint Resolve nearest_phrase_catalog : frame.

Lemma interpret_catalog self query_term threshold :
  preserves same_catalog (interpret lib self query_term threshold).
Proof. unfold interpret. frame. Qed.

Lemma predict_proba_catalog model features :
  preserves same_catalog (predict_proba model features).
Proof. unfold predict_proba. frame. Qed.

Lemma count_phrase_catalog self qvec c item :
  preserves same_catalog (count_phrase lib self qvec c item).
Proof. unfold count_phrase. frame. Qed.

#[local] Hint Resolve interpret_catalog predict_proba_catalog count_phrase_catalog : frame.

Lemma get_features_phrases_catalog self histogram qterm :
  preserves same_catalog (get_features_phrases lib self histogram qterm).
Proof. unfold get_features_phrases. frame. Qed.

Lemma get_features_summary_catalog self bid attr_name qterm num_markers :
  preserves same_catalog (get_features_summary lib self bid attr_name qterm num_markers).
Proof.
  unfold get_features_summary. apply preserves_bind; [typeclasses eauto | frame |].
  intros qvec s. unfold bind, get, lift, modify, ret. simpl.
  destruct (summary_of (entities s) bid attr_name) as [summary|e] eqn:Hsum;
    simpl; [|reflexivity].
  destruct (sort_summary summary) as [sorted|e] eqn:Hsort; simpl; [|reflexivity].
  assert (Hstore : same_catalog s (set_entities (store_summary bid attr_name sorted) s)).
  { intros bid'. simpl. eapply store_summary_similar; [exact Hsum|].
    apply sort_summary_perm. exact Hsort. }
  destruct (fold_result _ sorted []); simpl; exact Hstore.
Qed.

#[local] Hint Resolve get_features_phrases_catalog get_features_summary_catalog : frame.

Lemma mode_score_catalog self mode obj_features bid attr_name qterm :
  preserves same_catalog (mode_score lib self mode obj_features bid attr_name qterm).
Proof. unfold mode_score. frame. Qed.

#[local] Hint Resolve mode_score_catalog : frame.

Lemma membership_catalog self mode bid attr_name qterm pred :
  preserves same_catalog (membership lib self mode bid attr_name qterm pred).
Proof. unfold membership. frame. Qed.

#[local] Hint Resolve membership_catalog : frame.

Lemma score_subjective_catalog self mode bids sub_predicates scores :
  preserves same_catalog (score_subjective lib self mode bids sub_predicates scores).
Proof. unfold score_subjective. frame. Qed.

Lemma score_sensitive_catalog self mode bids sub_predicates obj_predicates scores :
  preserves same_catalog
    (score_sensitive lib self mode bids sub_predicates obj_predicates scores).
Proof. unfold score_sensitive. frame. Qed.

#[local] Hint Resolve score_subjective_catalog score_sensitive_catalog : frame.

Lemma apply_objective_catalog self mode obj_context bids sub_predicates obj_predicates scores :
  preserves same_catalog
    (apply_objective lib self mode obj_context bids sub_predicates obj_predicates scores).
Proof. unfold apply_objective. frame. Qed.

#[local] Hint Resolve apply_objective_catalog : frame.

Lemma opine_scores_catalog self query bids mode obj_context :
  preserves same_catalog (opine_scores lib self query bids mode obj_context).
Proof. unfold opine_scores. frame. Qed.

#[local] Hint Resolve opine_scores_catalog : frame.

Lemma opine_catalog self query bids mode obj_context :
  preserves same_catalog (opine lib self query bids mode obj_context).
Proof. unfold opine. frame. Qed.

Lemma clear_cache_catalog : preserves same_catalog clear_cache.
Proof. unfold clear_cache. frame. Qed.

(** C3 (amended). Whatever sequence of post-load operations runs, every
    entity keeps its histograms and its objective fields, and every stored
    marker list keeps its markers; only the order of a marker list may
    change, which happens when the marker-based features sort it in place. *)
Theorem operations_preserve_catalog self (ops : list operation) st :
  same_catalog st (foldl (run_operation lib self) st ops).
Proof.
  revert st. induction ops as [|op ops IH]; intros st; [reflexivity|].
  simpl. etransitivity; [|apply IH].
  destruct op; simpl.
  - apply phrase2vec_catalog.
  - apply interpret_catalog.
  - apply membership_catalog.
  - apply opine_catalog.
  - apply clear_cache_catalog.
Qed.

End CatalogFrames.

(** ** The boolean policy *)

Section BooleanPolicy.

Variable lib : imports.

Lemma entity_get_similar e e' attr : entity_similar e e' -> entity_get e' attr = entity_get e attr.
Proof.
  intros (Hh & Hf & Hs). unfold entity_get. rewrite Hh, Hf.
  assert (Hsome : bool_decide (is_Some (ent_summaries e'))
                  = bool_decide (is_Some (ent_summaries e))).
  { apply bool_decide_ext. destruct (ent_summaries e), (ent_summaries e'); simpl in Hs;
      try tauto; split; intros [? ?]; try discriminate; eauto. }
  rewrite Hsome. reflexivity.
Qed.

Lemma satisfies_all_similar s s' preds bid :
  same_catalog s s' -> satisfies_all lib (entities s) preds bid ->
  satisfies_all lib (entities s') preds bid.
Proof.
  intros Hcat (e & He & Hall). specialize (Hcat bid). rewrite He in Hcat.
  destruct (entities s' !! bid) as [e'|] eqn:He'; [|destruct Hcat]. simpl in Hcat.
  exists e'. split; [exact He'|]. intros pred val Hin Hget.
  rewrite (entity_get_similar _ _ _ Hcat) in Hget. eapply Hall; eassumption.
Qed.

Lemma violates_some_similar s s' preds bid :
  same_catalog s s' -> violates_some lib (entities s) preds bid ->
  violates_some lib (entities s') preds bid.
Proof.
  intros Hcat (e & pred & val & He & Hin & Hget & Hv). specialize (Hcat bid).
  rewrite He in Hcat. destruct (entities s' !! bid) as [e'|] eqn:He'; [|destruct Hcat].
  simpl in Hcat. exists e', pred, val. split; [exact He'|]. split; [exact Hin|].
  split; [|exact Hv]. rewrite (entity_get_similar _ _ _ Hcat). exact Hget.
Qed.

(** What one round of the boolean loops does to [scores]. *)
Lemma boolean_step_cases ents pred scores bid scores' :
  objective_step (boolean_factor lib) ents pred scores bid = Ok scores' ->
  exists e, ents !! bid = Some e /\
    match entity_get e (pred.1.1.2) with
    | None => scores' = scores
    | Some val =>
        (violates lib pred val = Ok false /\ scores' = scores) \/
        (violates lib pred val = Ok true /\
         exists s, scores !! bid = Some s /\
                   scores' = <[bid := fmul s (Finite boolean_penalty)]> scores)
    end.
Proof.
  unfold objective_step. destruct (ents !! bid) as [e|]; [|discriminate]. simpl.
  intros H. exists e. split; [reflexivity|].
  destruct (entity_get e (pred.1.1.2)) as [val|]; [|injection H as <-; reflexivity].
  unfold boolean_factor in H. destruct (violates lib pred val) as [[|]|err]; [| |discriminate].
  - right. split; [reflexivity|]. unfold scale_score in H.
    destruct (scores !! bid) as [s|]; [|discriminate]. simpl in H. injection H as <-.
    exists s. split; reflexivity.
  - left. injection H as <-. split; reflexivity.
Qed.

Lemma penalty_shrinks s : (0 <= s)%Q -> (0 <= s * boolean_penalty)%Q /\ (s * boolean_penalty <= s)%Q.
Proof.
  intros Hs. split.
  - apply Qmult_le_0_compat; [exact Hs | discriminate].
  - assert (H : (boolean_penalty * s <= 1 * s)%Q)
      by (apply Qmult_le_compat_r; [discriminate | exact Hs]).
    rewrite (Qmult_comm boolean_penalty s), Qmult_1_l in H. exact H.
Qed.

Lemma boolean_step_kept ents preds pred scores bid scores' A :
  satisfies_all lib ents preds A -> pred ∈ preds ->
  objective_step (boolean_factor lib) ents pred scores bid = Ok scores' ->
  scores' !! A = scores !! A.
Proof.
  intros (eA & HeA & Hsat) Hin Hstep.
  apply boolean_step_cases in Hstep. destruct Hstep as (e & He & Hcase).
  destruct (entity_get e (pred.1.1.2)) as [val|] eqn:Hget; [|subst; reflexivity].
  destruct Hcase as [[_ ->] | [Hv (s & Hs & ->)]]; [reflexivity|].
  destruct (decide (bid = A)) as [->|Hne]; [|apply lookup_insert_ne; exact Hne].
  rewrite HeA in He. injection He as <-.
  rewrite (Hsat pred val Hin Hget) in Hv. discriminate.
Qed.

Lemma boolean_step_bounded ents pred scores bid scores' B b :
  bounded B b scores ->
  objective_step (boolean_factor lib) ents pred scores bid = Ok scores' ->
  bounded B b scores'.
Proof.
  intros (s & Hs & H0 & Hb) Hstep.
  apply boolean_step_cases in Hstep. destruct Hstep as (e & He & Hcase).
  destruct (entity_get e (pred.1.1.2)) as [val|] eqn:Hget; [|subst; exists s; auto].
  destruct Hcase as [[_ ->] | [Hv (s0 & Hs0 & ->)]]; [exists s; auto|].
  destruct (decide (bid = B)) as [->|Hne].
  - rewrite Hs in Hs0. injection Hs0 as <-.
    exists (s * boolean_penalty)%Q. split; [apply lookup_insert_eq|].
    destruct (penalty_shrinks s H0) as [H1 H2].
    split; [exact H1 | eapply Qle_trans; eassumption].
  - exists s. split; [rewrite lookup_insert_ne by exact Hne; exact Hs | auto].
Qed.

Lemma boolean_step_hit ents pred scores scores' B b e val :
  ents !! B = Some e -> entity_get e (pred.1.1.2) = Some val ->
  violates lib pred val = Ok true ->
  bounded B b scores ->
  objective_step (boolean_factor lib) ents pred scores B = Ok scores' ->
  bounded B (b * boolean_penalty) scores'.
Proof.
  intros He Hget Hv (s & Hs & H0 & Hb) Hstep.
  apply boolean_step_cases in Hstep. destruct Hstep as (e' & He' & Hcase).
  rewrite He in He'. injection He' as <-. rewrite Hget in Hcase.
  destruct Hcase as [[Hv' _] | [_ (s0 & Hs0 & ->)]]; [congruence|].
  rewrite Hs in Hs0. injection Hs0 as <-.
  exists (s * boolean_penalty)%Q. split; [apply lookup_insert_eq|].
  split; [apply penalty_shrinks; exact H0|].
  apply Qmult_le_compat_r; [exact Hb | discriminate].
Qed.

Lemma bounded_nonneg B b scores : bounded B b scores -> (0 <= b)%Q.
Proof. intros (s & _ & H0 & Hb). eapply Qle_trans; eassumption. Qed.

Lemma bounded_weaken B b scores :
  bounded B (b * boolean_penalty) scores -> (0 <= b)%Q -> bounded B b scores.
Proof.
  intros (s & Hs & H0 & Hb) Hpos. exists s. split; [exact Hs|]. split; [exact H0|].
  eapply Qle_trans; [exact Hb | apply penalty_shrinks; exact Hpos].
Qed.

Lemma boolean_inner_kept ents preds pred bids scores scores' A :
  satisfies_all lib ents preds A -> pred ∈ preds ->
  fold_result (objective_step (boolean_factor lib) ents pred) bids scores = Ok scores' ->
  scores' !! A = scores !! A.
Proof.
  intros Hsat Hin. revert scores. induction bids as [|bid bids IH]; intros scores Hrun.
  - injection Hrun as <-. reflexivity.
  - simpl in Hrun.
    destruct (objective_step _ ents pred scores bid) as [mid|err] eqn:Hstep; [|discriminate].
    rewrite (IH _ Hrun). eapply boolean_step_kept; eassumption.
Qed.

Lemma boolean_inner_bounded ents pred bids scores scores' B b :
  bounded B b scores ->
  fold_result (objective_step (boolean_factor lib) ents pred) bids scores = Ok scores' ->
  bounded B b scores'.
Proof.
  revert scores. induction bids as [|bid bids IH]; intros scores Hb Hrun.
  - injection Hrun as <-. exact Hb.
  - simpl in Hrun.
    destruct (objective_step _ ents pred scores bid) as [mid|err] eqn:Hstep; [|discriminate].
    apply (IH mid); [|exact Hrun]. eapply boolean_step_bounded; eassumption.
Qed.

Lemma boolean_inner_hit ents pred bids scores scores' B b e val :
  B ∈ bids -> ents !! B = Some e -> entity_get e (pred.1.1.2) = Some val ->
  violates lib pred val = Ok true ->
  bounded B b scores ->
  fold_result (objective_step (boolean_factor lib) ents pred) bids scores = Ok scores' ->
  bounded B (b * boolean_penalty) scores'.
Proof.
  intros Hin He Hget Hv. revert scores.
  induction bids as [|bid bids IH]; intros scores Hb Hrun; [inversion Hin|].
  simpl in Hrun.
  destruct (objective_step _ ents pred scores bid) as [mid|err] eqn:Hstep; [|discriminate].
  destruct (decide (bid = B)) as [->|Hne].
  - eapply boolean_inner_bounded; [|exact Hrun]. eapply boolean_step_hit; eassumption.
  - apply (IH ltac:(inversion Hin; subst; [congruence | assumption]) mid); [|exact Hrun].
    eapply boolean_step_bounded; eassumption.
Qed.

Lemma boolean_outer_kept ents all preds bids scores scores' A :
  satisfies_all lib ents all A -> (forall pred, pred ∈ preds -> pred ∈ all) ->
  score_objective (boolean_factor lib) ents bids preds scores = Ok scores' ->
  scores' !! A = scores !! A.
Proof.
  intros Hsat. unfold score_objective. revert scores.
  induction preds as [|pred preds IH]; intros scores Hsub Hrun.
  - injection Hrun as <-. reflexivity.
  - simpl in Hrun.
    destruct (fold_result _ bids scores) as [mid|err] eqn:Hinner; [|discriminate].
    rewrite (IH mid); [| intros p Hp; apply Hsub; right; exact Hp | exact Hrun].
    eapply boolean_inner_kept; [exact Hsat | apply Hsub; left | exact Hinner].
Qed.

Lemma boolean_outer_bounded ents preds bids scores scores' B b :
  bounded B b scores ->
  score_objective (boolean_factor lib) ents bids preds scores = Ok scores' ->
  bounded B b scores'.
Proof.
  unfold score_objective. revert scores.
  induction preds as [|pred preds IH]; intros scores Hb Hrun.
  - injection Hrun as <-. exact Hb.
  - simpl in Hrun.
    destruct (fold_result _ bids scores) as [mid|err] eqn:Hinner; [|discriminate].
    apply (IH mid); [|exact Hrun]. eapply boolean_inner_bounded; eassumption.
Qed.

Lemma boolean_outer_hit ents preds bids scores scores' B b :
  B ∈ bids -> violates_some lib ents preds B ->
  bounded B b scores ->
  score_objective (boolean_factor lib) ents bids preds scores = Ok scores' ->
  bounded B (b * boolean_penalty) scores'.
Proof.
  intros Hin (e & pred & val & He & Hpred & Hget & Hv). unfold score_objective. revert scores.
  induction preds as [|p preds IH]; intros scores Hb Hrun; [inversion Hpred|].
  simpl in Hrun.
  destruct (fold_result _ bids scores) as [mid|err] eqn:Hinner; [|discriminate].
  destruct (decide (p = pred)) as [->|Hne].
  - apply (boolean_outer_bounded ents preds bids mid); [|exact Hrun].
    eapply boolean_inner_hit; eassumption.
  - apply (IH ltac:(inversion Hpred; subst; [congruence | assumption]) mid); [|exact Hrun].
    eapply boolean_inner_bounded; eassumption.
Qed.

(** C1 (amended). Under the boolean policy, in the list [opine] returns, a
    candidate that satisfies every objective predicate stands before a
    candidate that violates one, provided the violating candidate's
    subjective score is not negative and, multiplied by 1e-15, is below the
    subjective score of the satisfying candidate; a query without
    subjective terms gives both the subjective score 1. *)
Theorem boolean_policy_ordering self query bids mode st l st' subs preds s1 st1 A B a b :
  opine lib self query bids mode "boolean" st = (Ok l, st') ->
  decompose query = Ok (subs, preds) ->
  score_subjective lib self mode (candidates self bids) subs
    (initial_scores (candidates self bids)) st = (Ok s1, st1) ->
  satisfies_all lib (entities st) preds A ->
  violates_some lib (entities st) preds B ->
  s1 !! A = Some (Finite a) -> s1 !! B = Some (Finite b) ->
  (0 <= b)%Q -> (b * 1e-15 < a)%Q ->
  forall i j, l !! i = Some A -> l !! j = Some B -> (i < j)%nat.
Proof.
  intros Hop Hdec Hsub HsatA HvioB HA HB Hb0 Hlt i j Hi Hj.
  unfold opine in Hop. apply bind_ok in Hop. destruct Hop as (scores & s2 & Hscores & Hsort).
  apply lift_ok in Hsort. destruct Hsort as [Hsort ->].
  unfold opine_scores in Hscores. unfold bind at 1, lift in Hscores. rewrite Hdec in Hscores.
  rewrite (bind_run _ _ _ _ _ Hsub) in Hscores.
  unfold apply_objective in Hscores. simpl in Hscores.
  unfold bind, get, lift in Hscores.
  destruct (score_objective (boolean_factor lib) (entities st1) (candidates self bids) preds s1)
    as [final|err] eqn:Hobj; [|discriminate].
  injection Hscores as <- <-.
  pose proof (score_subjective_catalog lib self mode (candidates self bids) subs
                (initial_scores (candidates self bids)) st) as Hcat.
  rewrite Hsub in Hcat. simpl in Hcat.
  apply (satisfies_all_similar _ _ _ _ Hcat) in HsatA.
  apply (violates_some_similar _ _ _ _ Hcat) in HvioB.
  assert (Hfinite : all_finite final).
  { eapply score_boolean_finite; [|exact Hobj].
    eapply score_subjective_finite; [apply initial_scores_finite | exact Hsub]. }
  destruct (sorted_by_score_spec _ _ _ Hsort) as (Hperm & Hsorted).
  destruct (Hsorted (all_finite_comparable _ _ Hfinite)) as (Hdesc & _).
  assert (HinB : B ∈ candidates self bids).
  { rewrite <- Hperm. eapply list_elem_of_lookup_2. exact Hj. }
  assert (HfinalA : final !! A = Some (Finite a)).
  { rewrite (boolean_outer_kept _ preds preds _ _ _ A HsatA ltac:(auto) Hobj). exact HA. }
  assert (HfinalB : bounded B (b * boolean_penalty) final).
  { eapply boolean_outer_hit; [exact HinB | exact HvioB | | exact Hobj].
    exists b. split; [exact HB|]. split; [exact Hb0 | apply Qle_refl]. }
  destruct HfinalB as (sB & HsB & _ & HsBle).
  destruct (Nat.lt_trichotomy i j) as [Hij | [Heq | Hji]]; [exact Hij | |].
  - exfalso. subst j. rewrite Hi in Hj. injection Hj as <-.
    rewrite HfinalA in HsB. injection HsB as <-.
    exact (Qlt_not_le _ _ Hlt HsBle).
  - exfalso. destruct (Hdesc j i B A Hji Hj Hi) as (sb' & sa' & Hsb' & Hsa' & Hle).
    rewrite HsB in Hsb'. injection Hsb' as <-.
    rewrite HfinalA in Hsa'. injection Hsa' as <-.
    cbn [fle] in Hle. apply Qle_bool_iff in Hle.
    apply (Qlt_not_le _ _ Hlt). eapply Qle_trans; eassumption.
Qed.

End BooleanPolicy.

(** ** What [CooccurInterpreter.__init__] establishes *)

Section Construction.

Variable lib : imports.

Lemma keys_in_order_elem (l : list string) k : k ∈ keys_in_order l -> k ∈ l.
Proof.
  unfold keys_in_order.
  assert (Hgen : forall keys, k ∈ foldl (fun keys k => if bool_decide (k ∈ keys) then keys
                                                       else keys ++ [k]) keys l ->
                              k ∈ keys \/ k ∈ l).
  { induction l as [|k0 l IH]; intros keys Hin; [left; exact Hin|].
    cbn [foldl] in Hin. apply IH in Hin. destruct Hin as [Hin | Hin]; [|right; right; exact Hin].
    destruct (bool_decide (k0 ∈ keys)); [left; exact Hin|].
    apply elem_of_app in Hin. destruct Hin as [Hin | Hin]; [left; exact Hin|].
    apply list_elem_of_singleton in Hin. subst k0. right. left. }
  intros Hin. destruct (Hgen [] Hin) as [Hnil | Hl]; [inversion Hnil | exact Hl].
Qed.

Lemma reviews_by_id (reviews : list review) (d0 : gmap string review) rid :
  (forall k r, d0 !! k = Some r -> review_id r = k) ->
  rid ∈ map review_id reviews \/ is_Some (d0 !! rid) ->
  exists r, foldl (fun d r => <[review_id r := r]> d) d0 reviews !! rid = Some r /\
            review_id r = rid.
Proof.
  revert d0. induction reviews as [|r0 reviews IH]; intros d0 Hkeys Hin.
  - destruct Hin as [Hin | [r Hr]]; [inversion Hin|].
    exists r. split; [exact Hr | eapply Hkeys; exact Hr].
  - cbn [foldl]. apply IH.
    + intros k r Hr. destruct (decide (review_id r0 = k)) as [<-|Hne].
      * rewrite lookup_insert_eq in Hr. injection Hr as <-. reflexivity.
      * rewrite lookup_insert_ne in Hr by exact Hne. eapply Hkeys; exact Hr.
    + destruct (decide (review_id r0 = rid)) as [<-|Hne].
      * right. rewrite lookup_insert_eq. eauto.
      * destruct Hin as [Hin | Hd].
        -- left. cbn [map] in Hin. inversion Hin; subst; [congruence | assumption].
        -- right. rewrite lookup_insert_ne by exact Hne. exact Hd.
Qed.

Lemma indexed_by_id {A} (f : review -> A) (texts : list review) (d0 : gmap string A) r :
  r ∈ texts \/ is_Some (d0 !! review_id r) ->
  is_Some (foldl (fun d r => <[review_id r := f r]> d) d0 texts !! review_id r).
Proof.
  revert d0. induction texts as [|r0 texts IH]; intros d0 Hin.
  - destruct Hin as [Hin | Hd]; [inversion Hin | exact Hd].
  - cbn [foldl]. apply IH.
    destruct (decide (review_id r0 = review_id r)) as [Heq|Hne].
    + right. rewrite Heq, lookup_insert_eq. eauto.
    + destruct Hin as [Hin | Hd].
      * left. inversion Hin; subst; [congruence | assumption].
      * right. rewrite lookup_insert_ne by exact Hne. exact Hd.
Qed.

Lemma count_attributes_keys (exts : list extraction) (acc : gmap string Q * Q) attr :
  is_Some (acc.1 !! attr) \/ (exists ext, ext ∈ exts /\ ext_attribute ext = attr) ->
  is_Some ((count_attributes exts acc).1 !! attr).
Proof.
  unfold count_attributes. revert acc.
  induction exts as [|ext exts IH]; intros [cnt total] Hin.
  - destruct Hin as [Hacc | (ext & Hext & _)]; [exact Hacc | inversion Hext].
  - cbn [foldl]. apply IH. cbn [fst].
    destruct (decide (ext_attribute ext = attr)) as [Heq|Hne].
    + left. rewrite Heq. destruct (cnt !! attr); rewrite lookup_insert_eq; eauto.
    + destruct Hin as [Hacc | (ext' & Hext' & Hattr)].
      * left. cbn [fst] in Hacc.
        destruct (cnt !! ext_attribute ext); rewrite lookup_insert_ne by exact Hne; exact Hacc.
      * right. exists ext'. split; [|exact Hattr].
        inversion Hext'; subst; [congruence | assumption].
Qed.

Lemma counted_attributes (texts : list review) (acc : gmap string Q * Q) attr :
  is_Some (acc.1 !! attr) \/
  (exists r ext, r ∈ texts /\ ext ∈ review_extractions r /\ ext_attribute ext = attr) ->
  is_Some ((foldl (fun acc r => count_attributes (review_extractions r) acc) acc texts).1
           !! attr).
Proof.
  revert acc. induction texts as [|r0 texts IH]; intros acc Hin.
  - destruct Hin as [Hacc | (r & ext & Hr & _)]; [exact Hacc | inversion Hr].
  - cbn [foldl]. apply IH.
    destruct Hin as [Hacc | (r & ext & Hr & Hext & Hattr)].
    + left. apply count_attributes_keys. left. exact Hacc.
    + inversion Hr; subst.
      * left. apply count_attributes_keys. right. eauto.
      * right. eauto.
Qed.

(** Whatever the reviews, the interpreter [__init__] builds is well formed. *)
Lemma CooccurInterpreter_init_wf (reviews : list review) :
  cooc_wf (CooccurInterpreter_init lib reviews).
Proof.
  unfold CooccurInterpreter_init.
  set (by_id := foldl (fun d r => <[review_id r := r]> d) ∅ reviews).
  set (ids := keys_in_order (map review_id reviews)).
  set (rescore := fun r => Review (review_id r) (review_text r)
                                  (vader_compound lib (review_text r)) (review_extractions r)).
  set (scored := rescore <$> by_id).
  set (texts := omap (fun rid => scored !! rid) ids).
  destruct (foldl (fun acc r => count_attributes (review_extractions r) acc) (∅, 0%Q) texts)
    as [cnt total] eqn:Hcnt.
  intros rid Hrid. cbn [cooc_review_ids cooc_reviews cooc_position_index cooc_idf] in *.
  assert (Hin : rid ∈ map review_id reviews) by (apply keys_in_order_elem; exact Hrid).
  destruct (reviews_by_id reviews ∅ rid) as (r0 & Hr0 & Hid).
  { intros k r Hr. rewrite lookup_empty in Hr. discriminate. }
  { left. exact Hin. }
  fold by_id in Hr0.
  assert (Hscored : scored !! rid = Some (rescore r0)).
  { unfold scored. rewrite lookup_fmap, Hr0. reflexivity. }
  assert (Htexts : rescore r0 ∈ texts).
  { unfold texts. apply list_elem_of_omap. exists rid. split; [exact Hrid | exact Hscored]. }
  exists (rescore r0). split; [exact Hscored|]. split.
  - rewrite <- Hid. change (review_id r0) with (review_id (rescore r0)).
    apply indexed_by_id. left. exact Htexts.
  - intros ext Hext. rewrite lookup_fmap.
    pose proof (counted_attributes texts (∅, 0%Q) (ext_attribute ext)) as Hc.
    rewrite Hcnt in Hc. cbn [fst] in Hc.
    destruct Hc as [n Hn]; [right; eauto|]. rewrite Hn. eauto.
Qed.

Lemma keys_in_order_from (l : list string) (keys : list string) :
  NoDup keys ->
  let keys' := foldl (fun keys k => if bool_decide (k ∈ keys) then keys else keys ++ [k])
                     keys l in
  NoDup keys' /\ forall k, k ∈ keys \/ k ∈ l -> k ∈ keys'.
Proof.
  revert keys. induction l as [|k0 l IH]; intros keys Hnd; cbn [foldl].
  - split; [exact Hnd|]. intros k [H | H]; [exact H | inversion H].
  - destruct (bool_decide (k0 ∈ keys)) eqn:Hk0.
    + apply bool_decide_eq_true in Hk0. destruct (IH keys Hnd) as [Hnd' Hin].
      split; [exact Hnd'|]. intros k [H | H]; [apply Hin; left; exact H|].
      apply elem_of_cons in H. destruct H as [-> | H]; apply Hin; [left | right]; assumption.
    + apply bool_decide_eq_false in Hk0.
      assert (Hnd1 : NoDup (keys ++ [k0])).
      { apply NoDup_app. split; [exact Hnd|]. split; [|apply NoDup_singleton].
        intros x Hx Hx0. apply list_elem_of_singleton in Hx0. subst x. exact (Hk0 Hx). }
      destruct (IH (keys ++ [k0]) Hnd1) as [Hnd' Hin].
      split; [exact Hnd'|]. intros k [H | H].
      * apply Hin. left. apply elem_of_app. left. exact H.
      * apply elem_of_cons in H. destruct H as [-> | H]; apply Hin; [left | right; exact H].
        apply elem_of_app. right. left.
Qed.

Lemma omap_all_some {A B} (f : A -> option B) (l : list A) :
  (forall x, x ∈ l -> is_Some (f x)) ->
  length (omap f l) = length l /\ forall i, omap f l !! i = l !! i ≫= f.
Proof.
  induction l as [|x l IH]; intros Hall; cbn [omap list_omap].
  - split; [reflexivity | intros i; reflexivity].
  - destruct (Hall x) as [y Hy]; [left|]. 
    destruct IH as [Hlen Hlook]; [intros z Hz; apply Hall; right; exact Hz|].
    change (omap f (x :: l)) with (match f x with Some y => y :: omap f l | None => omap f l end).
    rewrite Hy. split; [cbn [length]; rewrite Hlen; reflexivity|].
    intros [|i]; cbn; [rewrite Hy; reflexivity | apply Hlook].
Qed.

Lemma indexed_untouched {A} (f : review -> A) (texts : list review) (d0 : gmap string A) k :
  k ∉ map review_id texts ->
  foldl (fun d r => <[review_id r := f r]> d) d0 texts !! k = d0 !! k.
Proof.
  revert d0. induction texts as [|r0 texts IH]; intros d0 Hk; cbn [foldl]; [reflexivity|].
  rewrite IH by (intros H; apply Hk; right; exact H).
  apply lookup_insert_ne. intros Heq. apply Hk. subst k. left.
Qed.

Lemma indexed_lookup {A} (f : review -> A) (texts : list review) (d0 : gmap string A) r :
  NoDup (map review_id texts) -> r ∈ texts ->
  foldl (fun d r => <[review_id r := f r]> d) d0 texts !! review_id r = Some (f r).
Proof.
  revert d0. induction texts as [|r0 texts IH]; intros d0 Hnd Hin; [inversion Hin|].
  cbn [map] in Hnd. apply NoDup_cons in Hnd as [Hfresh Hnd]. cbn [foldl].
  apply elem_of_cons in Hin. destruct Hin as [-> | Hin]; [|apply IH; assumption].
  rewrite indexed_untouched by exact Hfresh. apply lookup_insert_eq.
Qed.

(** X8. [__init__] keeps the structures of the interpreter aligned: the ids
    are those of the reviews, each once; document [i] of the BM25 corpus is
    the tokenized, lower-cased text of the review stored under
    [review_ids[i]]; the position index of that id is built from the same
    tokens; and the stored review carries the sentiment of its text. *)
Theorem CooccurInterpreter_init_aligned (reviews : list review) :
  let self := CooccurInterpreter_init lib reviews in
  NoDup (cooc_review_ids self) /\
  (forall rid, rid ∈ cooc_review_ids self <-> rid ∈ map review_id reviews) /\
  length (cooc_bm25 self) = length (cooc_review_ids self) /\
  forall i rid, cooc_review_ids self !! i = Some rid ->
    exists r, cooc_reviews self !! rid = Some r /\ review_id r = rid /\
      review_sentiment r = vader_compound lib (review_text r) /\
      cooc_bm25 self !! i = Some (gensim_simple_preprocess lib (lower (review_text r))) /\
      cooc_position_index self !! rid
      = Some (index_positions (gensim_simple_preprocess lib (lower (review_text r)))).
Proof.
  unfold CooccurInterpreter_init.
  set (by_id := foldl (fun d r => <[review_id r := r]> d) ∅ reviews).
  set (ids := keys_in_order (map review_id reviews)).
  set (rescore := fun r => Review (review_id r) (review_text r)
                                  (vader_compound lib (review_text r)) (review_extractions r)).
  set (scored := rescore <$> by_id).
  set (texts := omap (fun rid => scored !! rid) ids).
  destruct (foldl (fun acc r => count_attributes (review_extractions r) acc) (∅, 0%Q) texts)
    as [cnt total] eqn:Hcnt.
  cbv zeta. cbn [cooc_review_ids cooc_reviews cooc_position_index cooc_bm25].
  destruct (keys_in_order_from (map review_id reviews) [] NoDup_nil_2) as [Hnd Hin].
  fold (keys_in_order (map review_id reviews)) in Hnd, Hin. fold ids in Hnd, Hin.
  assert (Hstored : forall rid, rid ∈ ids ->
            exists r, scored !! rid = Some r /\ review_id r = rid /\
                      review_sentiment r = vader_compound lib (review_text r)).
  { intros rid Hrid. apply keys_in_order_elem in Hrid.
    destruct (reviews_by_id reviews ∅ rid) as (r0 & Hr0 & Hid).
    { intros k r Hr. rewrite lookup_empty in Hr. discriminate. }
    { left. exact Hrid. }
    exists (rescore r0). unfold scored. rewrite lookup_fmap. fold by_id in Hr0. rewrite Hr0.
    split; [reflexivity|]. split; [exact Hid | reflexivity]. }
  destruct (omap_all_some (fun rid => scored !! rid) ids) as [Hlen Hlook].
  { intros rid Hrid. destruct (Hstored rid Hrid) as (r & Hr & _). eauto. }
  fold texts in Hlen, Hlook.
  assert (Hids : map review_id texts = ids).
  { apply list_eq. intros i. change (map review_id texts) with (review_id <$> texts).
    rewrite list_lookup_fmap, Hlook.
    destruct (ids !! i) as [rid|] eqn:Hi; [|reflexivity]. cbn.
    destruct (Hstored rid) as (r & Hr & Hid & _); [eapply list_elem_of_lookup_2; exact Hi|].
    rewrite Hr. cbn. rewrite Hid. reflexivity. }
  split; [exact Hnd|]. split; [|split].
  - intros rid. split; [apply keys_in_order_elem|]. intros H. apply Hin. right. exact H.
  - rewrite length_map. exact Hlen.
  - intros i rid Hi.
    destruct (Hstored rid) as (r & Hr & Hid & Hsent); [eapply list_elem_of_lookup_2; exact Hi|].
    assert (Htext : texts !! i = Some r) by (rewrite Hlook, Hi; exact Hr).
    exists r. split; [exact Hr|]. split; [exact Hid|]. split; [exact Hsent|]. split.
    + change (map ?f texts) with (f <$> texts). rewrite list_lookup_fmap, Htext. reflexivity.
    + rewrite <- Hid.
      apply (indexed_lookup
               (fun r => index_positions (gensim_simple_preprocess lib (lower (review_text r))))).
      * rewrite Hids. exact Hnd.
      * eapply list_elem_of_lookup_2. exact Htext.
Qed.

End Construction.

(** ** Queries without subjective terms, and unknown policies *)

Section Queries.

Variable lib : imports.

Lemma initial_scores_from (bids : list string) (d0 : gmap string pyfloat) bid :
  bid ∈ bids \/ d0 !! bid = Some (Finite 1) ->
  foldl (fun d bid => <[bid := Finite 1]> d) d0 bids !! bid = Some (Finite 1).
Proof.
  revert d0. induction bids as [|b bids IH]; intros d0 Hin; cbn [foldl].
  - destruct Hin as [Hin | Hd]; [inversion Hin | exact Hd].
  - apply IH. destruct (decide (b = bid)) as [->|Hne].
    + right. apply lookup_insert_eq.
    + destruct Hin as [Hin | Hd].
      * left. apply elem_of_cons in Hin. destruct Hin as [-> | Hin]; [congruence | exact Hin].
      * right. rewrite lookup_insert_ne by exact Hne. exact Hd.
Qed.

Lemma map_result_pointwise {A B} (f : A -> result B) (g : A -> B) (l : list A) :
  (forall x, x ∈ l -> f x = Ok (g x)) -> map_result f l = Ok (map g l).
Proof.
  induction l as [|x l IH]; intros Hall; cbn [map_result map]; [reflexivity|].
  rewrite (Hall x) by left. rewrite IH by (intros y Hy; apply Hall; right; exact Hy).
  reflexivity.
Qed.

Lemma sort_keyed_constant {A} (k : pyfloat) (l : list A) :
  sort_keyed_float (map (pair k) l) = map (pair k) l.
Proof.
  apply sort_keyed_float_run. intros i u w Hu Hw.
  change (map (pair k) l) with (pair k <$> l) in Hu, Hw.
  rewrite list_lookup_fmap in Hu, Hw.
  destruct (l !! i); [|discriminate]. destruct (l !! S i); [|discriminate].
  injection Hu as <-. injection Hw as <-. cbn [fst].
  destruct k as [q| | |]; cbn [flt]; try reflexivity.
  apply Qltb_false. apply Qle_refl.
Qed.

Lemma ranking_of_unscored (bids : list string) :
  sorted_by_score (initial_scores bids) bids = Ok bids.
Proof.
  unfold sorted_by_score.
  rewrite (map_result_pointwise _ (pair (fneg (Finite 1)))).
  - rewrite sort_keyed_constant. f_equal. induction bids as [|b bids IH]; [reflexivity|].
    cbn [map snd]. rewrite IH. reflexivity.
  - intros bid Hin. unfold initial_scores. rewrite initial_scores_from by (left; exact Hin).
    reflexivity.
Qed.

Lemma score_sensitive_no_subjective self mode bids obj_predicates scores st :
  score_sensitive lib self mode bids [] obj_predicates scores st = (Ok scores, st).
Proof.
  unfold score_sensitive. induction obj_predicates as [|pred preds IH]; [reflexivity|].
  cbn [for_fold]. unfold bind at 1. cbn [for_fold ret]. exact IH.
Qed.

Lemma subjective_terms_none (query : list string) :
  (forall qterm, qterm ∈ query -> contains ":" qterm = true) -> subjective_terms query = [].
Proof.
  induction query as [|q query IH]; intros Hall; [reflexivity|].
  cbn [subjective_terms List.filter]. rewrite (Hall q) by left. cbn [negb].
  apply IH. intros q' Hq'. apply Hall. right. exact Hq'.
Qed.

(** X10. A query made of objective predicates only (the empty query
    included) is not ranked at all unless the policy is [agnostic] or
    [boolean]: under [sensitive], which couples every predicate with the
    subjective terms, and under any unknown policy, [opine] returns the
    candidates in the order they were given and touches no cache. *)
Theorem opine_without_subjective_terms self query bids mode obj_context st :
  (forall qterm, qterm ∈ query -> contains ":" qterm = true /\ ~ malformed qterm) ->
  obj_context <> "agnostic"%string -> obj_context <> "boolean"%string ->
  opine lib self query bids mode obj_context st = (Ok (candidates self bids), st).
Proof.
  intros Hall Hag Hbo.
  destruct (decompose_subjective query) as (objs & Hdec);
    [intros q Hq; apply Hall; exact Hq|].
  rewrite subjective_terms_none in Hdec by (intros q Hq; apply Hall; exact Hq).
  apply String.eqb_neq in Hag, Hbo.
  unfold opine, opine_scores. rewrite Hdec.
  unfold bind at 2. unfold lift at 1. cbn [score_subjective for_fold].
  unfold bind at 2. unfold ret at 1. unfold apply_objective. rewrite Hag, Hbo.
  destruct (String.eqb obj_context "sensitive").
  - unfold bind at 1. rewrite score_sensitive_no_subjective.
    unfold lift. rewrite ranking_of_unscored. reflexivity.
  - unfold bind at 1. unfold ret, lift. rewrite ranking_of_unscored. reflexivity.
Qed.

Lemma subjective_terms_idem (query : list string) :
  subjective_terms (subjective_terms query) = subjective_terms query /\
  objective_terms (subjective_terms query) = [] /\
  forall qterm, qterm ∈ subjective_terms query -> ~ malformed qterm.
Proof.
  induction query as [|q query (IH1 & IH2 & IH3)];
    [split; [reflexivity|]; split; [reflexivity|]; intros q Hq; inversion Hq|].
  cbn [subjective_terms List.filter]. destruct (contains ":" q) eqn:Hc; cbn [negb].
  - split; [exact IH1|]. split; [exact IH2 | exact IH3].
  - cbn [subjective_terms objective_terms List.filter]. rewrite Hc. cbn [negb].
    split; [f_equal; exact IH1|]. split; [exact IH2|].
    intros q' Hq'. apply elem_of_cons in Hq'. destruct Hq' as [-> | Hq']; [|apply IH3; exact Hq'].
    intros [Hc' _]. congruence.
Qed.

(** X11. A policy other than [sensitive], [agnostic] and [boolean] (the
    evaluation passes [ignore]) drops the objective predicates of a
    well-formed query: the ranking, and every effect on the caches, is that
    of the query's subjective terms alone. *)
Theorem opine_unknown_policy self query bids mode obj_context st :
  (forall qterm, qterm ∈ query -> ~ malformed qterm) ->
  obj_context <> "sensitive"%string -> obj_context <> "agnostic"%string ->
  obj_context <> "boolean"%string ->
  opine lib self query bids mode obj_context st
  = opine lib self (subjective_terms query) bids mode obj_context st.
Proof.
  intros Hok Hse Hag Hbo.
  destruct (decompose_subjective query Hok) as (objs & Hdec).
  destruct (subjective_terms_idem query) as (Hidem & Hnone & Hok').
  destruct (decompose_subjective (subjective_terms query) Hok') as (objs' & Hdec').
  rewrite Hidem in Hdec'.
  apply String.eqb_neq in Hse, Hag, Hbo.
  unfold opine, opine_scores, apply_objective. rewrite Hdec, Hdec', Hse, Hag, Hbo.
  reflexivity.
Qed.

Lemma sigmoid_bounds x y :
  (forall q e, py_exp lib q = Some e -> (0 <= e)%Q) ->
  sigmoid lib x = Ok y -> y = NaN \/ exists q, y = Finite q /\ (0 <= q)%Q /\ (q <= 1)%Q.
Proof.
  intros Hexp. unfold sigmoid.
  assert (Hfin : forall e r, (0 <= e)%Q -> fdiv (Finite 1) (fadd (Finite 1) (Finite e)) = Ok r ->
            exists q, r = Finite q /\ (0 <= q)%Q /\ (q <= 1)%Q).
  { intros e r He. cbn [fadd fdiv]. destruct (Qeq_bool (1 + e) 0); [discriminate|].
    intros H. injection H as <-. eexists. split; [reflexivity|].
    assert (H1 : (0 < 1 + e)%Q).
    { apply Qlt_le_trans with (1 + 0)%Q; [reflexivity|]. apply Qplus_le_r. exact He. }
    split.
    - apply Qle_shift_div_l; [exact H1|]. rewrite Qmult_0_l. discriminate.
    - apply Qle_shift_div_r; [exact H1|]. rewrite Qmult_1_l.
      rewrite <- (Qplus_0_r 1) at 1. apply Qplus_le_r. exact He. }
  destruct x as [q| | |]; cbn [fneg float_exp].
  - destruct (py_exp lib (- q)) as [e|] eqn:He; [|discriminate].
    intros H. right. exact (Hfin e y (Hexp _ _ He) H).
  - intros H. right. apply (Hfin 0%Q y); [apply Qle_refl | exact H].
  - cbn. intros H. injection H as <-. right. exists 0%Q.
    split; [reflexivity|]. split; [apply Qle_refl | discriminate].
  - cbn. intros H. injection H as <-. left. reflexivity.
Qed.

(** X12. Under the [agnostic] policy a predicate multiplies the score by
    0.5 (a boolean mismatch), by 0.3 (a categorical one) or by a sigmoid
    value, which is [nan] or a number between 0 and 1, both ends included,
    given that [math.exp] returns no negative value: a score that is not
    negative is never raised. *)
Theorem agnostic_factor_bounds self pred val f :
  (forall q e, py_exp lib q = Some e -> (0 <= e)%Q) ->
  agnostic_factor lib self pred val = Ok (Some f) ->
  f = NaN \/ exists q, f = Finite q /\ (0 <= q)%Q /\ (q <= 1)%Q.
Proof.
  intros Hexp. destruct pred as [[[atype attr] op] oprand]. unfold agnostic_factor.
  destruct (String.eqb atype "bool").
  - destruct (pyval_lower val) as [v|]; [|discriminate].
    destruct (negb (String.eqb v (lower oprand))); [|discriminate].
    intros H. injection H as <-. right. eexists. split; [reflexivity|]. split; discriminate.
  - destruct (String.eqb atype "cate").
    + destruct (pyval_ne val oprand); [|discriminate].
      intros H. injection H as <-. right. eexists. split; [reflexivity|]. split; discriminate.
    + destruct (attr_range_of self attr) as [[min_val max_val]|]; [|discriminate].
      destruct (str_float lib oprand) as [o|]; [|discriminate].
      destruct (pyval_float lib val) as [v|]; [|discriminate].
      destruct (fdiv (fsub o v) (fadd (fsub max_val min_val) (Finite 1))) as [diff|];
        [|discriminate].
      destruct (String.eqb op "<").
      * destruct (sigmoid lib diff) as [y|] eqn:Hy; [|discriminate].
        intros H. injection H as <-. exact (sigmoid_bounds _ _ Hexp Hy).
      * destruct (sigmoid lib (fneg diff)) as [y|] eqn:Hy; [|discriminate].
        intros H. injection H as <-. exact (sigmoid_bounds _ _ Hexp Hy).
Qed.

End Queries.

(** ** Loading the objective attributes *)

Section Loader.

Variable lib : imports.

Lemma register_category (ids : gmap string nat) (val : string) :
  (forall v i, ids !! v = Some i -> (i < size ids)%nat) ->
  (forall v v' i, ids !! v = Some i -> ids !! v' = Some i -> v = v') ->
  let ids' := match ids !! val with
              | Some _ => ids
              | None => <[val := size ids]> ids
              end in
  (forall v i, ids' !! v = Some i -> (i < size ids')%nat) /\
  (forall v v' i, ids' !! v = Some i -> ids' !! v' = Some i -> v = v') /\
  is_Some (ids' !! val) /\ (forall v, is_Some (ids !! v) -> is_Some (ids' !! v)).
Proof.
  intros Hb Hinj. destruct (ids !! val) as [i0|] eqn:Hval; cbv zeta.
  - split; [exact Hb|]. split; [exact Hinj|]. split; [rewrite Hval; eauto | auto].
  - assert (Hsize : size (<[val := size ids]> ids) = S (size ids))
      by (apply map_size_insert_None; exact Hval).
    split; [|split; [|split]].
    + intros v i. rewrite Hsize. destruct (decide (val = v)) as [<-|Hne].
      * rewrite lookup_insert_eq. intros H. injection H as <-. lia.
      * rewrite lookup_insert_ne by exact Hne. intros H. apply Hb in H. lia.
    + intros v v' i.
      destruct (decide (val = v)) as [<-|Hne], (decide (val = v')) as [<-|Hne'];
        rewrite ?lookup_insert_eq, ?lookup_insert_ne by assumption.
      * reflexivity.
      * intros H H'. injection H as <-. apply Hb in H'. lia.
      * intros H H'. injection H' as <-. apply Hb in H. lia.
      * apply Hinj.
    + rewrite lookup_insert_eq. eauto.
    + intros v Hv. destruct (decide (val = v)) as [<-|Hne];
        [rewrite lookup_insert_eq; eauto | rewrite lookup_insert_ne by exact Hne; exact Hv].
Qed.

Lemma range_new (f : pyfloat) : (f = NaN /\ f = NaN) \/ fle f f = true.
Proof.
  destruct f as [q| | |]; cbn; [right|right; reflexivity|right; reflexivity|left; split; reflexivity].
  apply Qle_bool_iff. apply Qle_refl.
Qed.

Lemma range_update (lo hi f : pyfloat) :
  (lo = NaN /\ hi = NaN) \/ fle lo hi = true ->
  let lo' := if flt f lo then f else lo in
  let hi' := if flt hi f then f else hi in
  (lo' = NaN /\ hi' = NaN) \/ fle lo' hi' = true.
Proof.
  intros [[-> ->] | Hle]; cbv zeta.
  - left. replace (flt f NaN) with false by (destruct f; reflexivity). split; reflexivity.
  - destruct (flt f lo) eqn:H1, (flt hi f) eqn:H2.
    + destruct (range_new f) as [[-> _] | Hf]; [discriminate H1 | right; exact Hf].
    + right. eapply fle_trans; [apply flt_fle; exact H1 | exact Hle].
    + right. eapply fle_trans; [exact Hle | apply flt_fle; exact H2].
    + right. exact Hle.
Qed.

Lemma load_column_wf bid acc column acc' :
  schema_wf (sch_obj_attrs acc) (sch_cate_to_id acc) ->
  load_column lib bid acc column = Ok acc' ->
  schema_wf (sch_obj_attrs acc') (sch_cate_to_id acc').
Proof.
  intros [Hrange Hbound Hinj Hvalues]. unfold load_column. destruct column as [header val].
  destruct (String.eqb header "ID"); [intros H; injection H as <-; split; assumption|].
  destruct (split ":" header) as [|type_tag [|attr [|x xs]]]; try discriminate.
  set (created := match sch_obj_attrs acc !! attr with
                  | Some _ => Ok (sch_obj_attrs acc)
                  | None => match new_obj_attr lib type_tag val with
                            | Ok a => Ok (<[attr := a]> (sch_obj_attrs acc))
                            | Err e => Err e
                            end
                  end).
  cbv zeta.
  destruct created as [attrs|e] eqn:Hcreated; [|discriminate].
  (* the entry of [attr] after the creation step *)
  assert (Hother : forall attr', attr' <> attr -> attrs !! attr' = sch_obj_attrs acc !! attr').
  { intros attr' Hne. unfold created in Hcreated.
    destruct (sch_obj_attrs acc !! attr); [injection Hcreated as <-; reflexivity|].
    destruct (new_obj_attr lib type_tag val); [|discriminate].
    injection Hcreated as <-. apply lookup_insert_ne. congruence. }
  assert (Hentry : forall a, attrs !! attr = Some a ->
            sch_obj_attrs acc !! attr = Some a \/
            new_obj_attr lib type_tag val = Ok a).
  { intros a Ha. unfold created in Hcreated.
    destruct (sch_obj_attrs acc !! attr) eqn:Hold;
      [injection Hcreated as <-; left; rewrite <- Ha; symmetry; exact Hold|].
    destruct (new_obj_attr lib type_tag val) as [a0|]; [|discriminate].
    injection Hcreated as <-. rewrite lookup_insert_eq in Ha. injection Ha as <-.
    right. reflexivity. }
  clear Hcreated. clearbody created.
  destruct (String.eqb type_tag "cate") eqn:Hcate.
  - destruct (attrs !! attr) as [a|] eqn:Ha; [|discriminate]. cbn [getitem].
    destruct (attr_values a) as [values|] eqn:Hvals; [|discriminate]. cbn [getitem].
    intros H. injection H as <-. cbn [sch_obj_attrs sch_cate_to_id].
    destruct (register_category (sch_cate_to_id acc) val Hbound Hinj)
      as (Hbound' & Hinj' & Hval & Hmono).
    cbv zeta in Hbound', Hinj', Hval, Hmono.
    assert (Hold_range : forall lo hi, attr_range a = Some (lo, hi) ->
              (lo = NaN /\ hi = NaN) \/ fle lo hi = true).
    { intros lo hi Hr. destruct (Hentry a eq_refl) as [Hold | Hnew].
      - eapply Hrange; eassumption.
      - unfold new_obj_attr in Hnew. rewrite Hcate in Hnew. injection Hnew as <-.
        discriminate Hr. }
    assert (Hold_values : forall v, v ∈ values -> v = val \/ is_Some (sch_cate_to_id acc !! v)).
    { intros v Hv. destruct (Hentry a eq_refl) as [Hold | Hnew].
      - right. eapply Hvalues; eassumption.
      - unfold new_obj_attr in Hnew. rewrite Hcate in Hnew. injection Hnew as <-.
        cbn in Hvals. injection Hvals as <-. apply list_elem_of_singleton in Hv. left. exact Hv. }
    split; [|exact Hbound'|exact Hinj'|].
    + intros attr' a' lo hi Ha' Hr. destruct (decide (attr' = attr)) as [->|Hne].
      * rewrite lookup_insert_eq in Ha'. injection Ha' as <-. cbn in Hr.
        apply Hold_range. exact Hr.
      * rewrite lookup_insert_ne in Ha' by congruence. rewrite Hother in Ha' by exact Hne.
        eapply Hrange; eassumption.
    + intros attr' a' values' v Ha' Hvals' Hv. destruct (decide (attr' = attr)) as [->|Hne].
      * rewrite lookup_insert_eq in Ha'. injection Ha' as <-. cbn in Hvals'.
        injection Hvals' as <-.
        assert (Hv' : v ∈ values \/ v = val).
        { destruct (bool_decide (val ∈ values)); [left; exact Hv|].
          apply elem_of_app in Hv. destruct Hv as [Hv | Hv]; [left; exact Hv|].
          apply list_elem_of_singleton in Hv. right. exact Hv. }
        destruct Hv' as [Hv' | ->]; [|exact Hval].
        destruct (Hold_values v Hv') as [-> | Hsome]; [exact Hval | apply Hmono; exact Hsome].
      * rewrite lookup_insert_ne in Ha' by congruence. rewrite Hother in Ha' by exact Hne.
        apply Hmono. eapply Hvalues; eassumption.
  - destruct (String.eqb type_tag "num") eqn:Hnum.
    + destruct (str_float lib val) as [f|] eqn:Hf; [|discriminate].
      destruct (attrs !! attr) as [a|] eqn:Ha; [|discriminate]. cbn [getitem].
      destruct (attr_range a) as [[lo hi]|] eqn:Hr; [|discriminate]. cbn [getitem].
      intros H. injection H as <-. cbn [sch_obj_attrs sch_cate_to_id].
      assert (Hlohi : (lo = NaN /\ hi = NaN) \/ fle lo hi = true).
      { destruct (Hentry a eq_refl) as [Hold | Hnew]; [eapply Hrange; eassumption|].
        unfold new_obj_attr in Hnew. rewrite Hcate, Hnum, Hf in Hnew. injection Hnew as <-.
        cbn in Hr. injection Hr as <- <-. apply range_new. }
      assert (Hold_values : forall values v, attr_values a = Some values -> v ∈ values ->
                is_Some (sch_cate_to_id acc !! v)).
      { intros values v Hvals Hv. destruct (Hentry a eq_refl) as [Hold | Hnew];
          [eapply Hvalues; eassumption|].
        unfold new_obj_attr in Hnew. rewrite Hcate, Hnum, Hf in Hnew. injection Hnew as <-.
        discriminate Hvals. }
      split; [|exact Hbound|exact Hinj|].
      * intros attr' a' lo' hi' Ha' Hr'. destruct (decide (attr' = attr)) as [->|Hne].
        -- rewrite lookup_insert_eq in Ha'. injection Ha' as <-. cbn in Hr'.
           injection Hr' as <- <-. apply range_update. exact Hlohi.
        -- rewrite lookup_insert_ne in Ha' by congruence. rewrite Hother in Ha' by exact Hne.
           eapply Hrange; eassumption.
      * intros attr' a' values v Ha' Hvals Hv. destruct (decide (attr' = attr)) as [->|Hne].
        -- rewrite lookup_insert_eq in Ha'. injection Ha' as <-. cbn in Hvals.
           eapply Hold_values; eassumption.
        -- rewrite lookup_insert_ne in Ha' by congruence. rewrite Hother in Ha' by exact Hne.
           eapply Hvalues; eassumption.
    + intros H. injection H as <-. cbn [sch_obj_attrs sch_cate_to_id].
      assert (Hattrs : forall attr' a', attrs !! attr' = Some a' ->
                sch_obj_attrs acc !! attr' = Some a' \/
                (attr_values a' = None /\ attr_range a' = None)).
      { intros attr' a' Ha'. destruct (decide (attr' = attr)) as [->|Hne];
          [|left; rewrite <- Hother by exact Hne; exact Ha'].
        destruct (Hentry a' Ha') as [Hold | Hnew]; [left; exact Hold|].
        unfold new_obj_attr in Hnew. rewrite Hcate, Hnum in Hnew. injection Hnew as <-.
        right. split; reflexivity. }
      split; [|exact Hbound|exact Hinj|].
      * intros attr' a' lo hi Ha' Hr. destruct (Hattrs attr' a' Ha') as [Hold | [_ Hnone]];
          [eapply Hrange; eassumption | congruence].
      * intros attr' a' values v Ha' Hvals Hv.
        destruct (Hattrs attr' a' Ha') as [Hold | [Hnone _]];
          [eapply Hvalues; eassumption | congruence].
Qed.

(** X13. Whatever the rows of the attribute file, when the loader returns,
    every numeric range it recorded has its lower end at most its upper
    end or, when the first number read for the attribute was [nan], has
    [nan] at both ends; the category ids are distinct numbers below
    [len(cate_to_id)], and every value listed for a categorical attribute
    has an id. *)
Theorem load_objective_attributes_wf (ents : gmap string entity)
    (rows : list (list (string * string))) (loaded : schema) :
  load_objective_attributes lib ents rows = Ok loaded ->
  schema_wf (sch_obj_attrs loaded) (sch_cate_to_id loaded).
Proof.
  unfold load_objective_attributes.
  apply (fold_result_invariant (fun s => schema_wf (sch_obj_attrs s) (sch_cate_to_id s))).
  - intros acc row acc' Hwf. unfold load_row.
    destruct (assoc_get "ID" row) as [bid|]; [|discriminate]. cbn [getitem].
    destruct (sch_entities acc !! bid); [|intros H; injection H as <-; exact Hwf].
    apply (fold_result_invariant (fun s => schema_wf (sch_obj_attrs s) (sch_cate_to_id s)));
      [|exact Hwf].
    intros b column b'. apply load_column_wf.
  - cbn. split.
    + intros attr a lo hi H. rewrite lookup_empty in H. discriminate.
    + intros v i H. rewrite lookup_empty in H. discriminate.
    + intros v v' i H. rewrite lookup_empty in H. discriminate.
    + intros attr a values v H. rewrite lookup_empty in H. discriminate.
Qed.

Lemma list_add_at_length (l : list Q) i d l' : list_add_at l i d = Ok l' -> length l' = length l.
Proof.
  unfold list_add_at. destruct (l !! i); [|discriminate]. intros H. injection H as <-.
  apply length_insert.
Qed.

(** X14. Whenever [get_features_obj] returns, the block of objective
    features has [len(cate_to_id) + 3] entries: one for the boolean test,
    one per category, two for the numeric difference. *)
Theorem get_features_obj_length self atype value attr op oprand features :
  get_features_obj lib self atype value attr op oprand = Ok features ->
  length features = (size (cate_to_id self) + 3)%nat.
Proof.
  unfold get_features_obj.
  set (bool_feature := if String.eqb atype "bool" then _ else _).
  set (cate_list := if String.eqb atype "cate" then _ else _).
  set (num_features := if String.eqb atype "num" then _ else _).
  assert (Hb : forall b, bool_feature = Ok b -> length b = 1%nat).
  { unfold bool_feature. intros b. destruct (String.eqb atype "bool").
    - destruct (pyval_lower value); [|discriminate]. intros H. injection H as <-. reflexivity.
    - intros H. injection H as <-. reflexivity. }
  assert (Hc : forall c, cate_list = Ok c -> length c = size (cate_to_id self)).
  { unfold cate_list. intros c. destruct (String.eqb atype "cate").
    - destruct (cate_id self value) as [i|]; [|discriminate].
      destruct (list_add_at _ i 1) as [l|] eqn:Hl; [|discriminate].
      destruct (getitem (cate_to_id self !! oprand)) as [j|]; [|discriminate].
      intros H. apply list_add_at_length in H, Hl. rewrite H, Hl. apply length_replicate.
    - intros H. injection H as <-. apply length_replicate. }
  assert (Hn : forall n, num_features = Ok n -> length n = 2%nat).
  { unfold num_features. intros n. destruct (String.eqb atype "num").
    - destruct (pyval_float lib value); [|discriminate].
      destruct (str_float lib oprand); [|discriminate].
      destruct (attr_range_of self attr) as [[lo hi]|]; [|discriminate].
      destruct (fdiv _ _); [|discriminate]. intros H. injection H as <-. reflexivity.
    - intros H. injection H as <-. reflexivity. }
  destruct bool_feature as [b|]; [|discriminate].
  destruct cate_list as [c|]; [|discriminate].
  destruct num_features as [n|]; [|discriminate].
  intros H. injection H as <-.
  rewrite !length_app, !length_map, (Hb b eq_refl), (Hc c eq_refl), (Hn n eq_refl). lia.
Qed.

End Loader.

(** ** The closest marker *)

Section Markers.

Variable lib : imports.

(** What the two loops of [get_marker] keep true of [(best_match,
    best_sim)] once the markers [seen] have been visited. *)
Lemma closer_marker_from vector (summary seen : list marker) (acc : option string * Q) :
  match acc.1 with
  | None => seen = []
  | Some name =>
      exists m, m ∈ seen /\ marker_verbalized m = name /\
                acc.2 = cosine lib vector (marker_center m) /\
                forall m', m' ∈ seen -> (cosine lib vector (marker_center m') <= acc.2)%Q
  end ->
  let acc' := foldl (closer_marker lib vector) acc summary in
  match acc'.1 with
  | None => seen ++ summary = []
  | Some name =>
      exists m, m ∈ seen ++ summary /\ marker_verbalized m = name /\
                acc'.2 = cosine lib vector (marker_center m) /\
                forall m', m' ∈ seen ++ summary ->
                           (cosine lib vector (marker_center m') <= acc'.2)%Q
  end.
Proof.
  revert seen acc. induction summary as [|m0 summary IH]; intros seen acc Hacc; cbn [foldl].
  - cbv zeta. rewrite app_nil_r. exact Hacc.
  - cbv zeta. replace (seen ++ m0 :: summary) with ((seen ++ [m0]) ++ summary)
      by (rewrite <- app_assoc; reflexivity).
    apply IH. destruct acc as [[name|] best_sim]; cbn [fst snd closer_marker] in *.
    + destruct Hacc as (m & Hm & Hname & Hsim & Hmax).
      destruct (Qle_bool best_sim (cosine lib vector (marker_center m0))) eqn:Hle; cbn [fst snd].
      * apply Qle_bool_iff in Hle. exists m0. split; [apply elem_of_app; right; left|].
        split; [reflexivity|]. split; [reflexivity|].
        intros m' Hm'. apply elem_of_app in Hm'. destruct Hm' as [Hm' | Hm'].
        -- eapply Qle_trans; [apply Hmax; exact Hm' | exact Hle].
        -- apply list_elem_of_singleton in Hm'. subst m'. apply Qle_refl.
      * exists m. split; [apply elem_of_app; left; exact Hm|].
        split; [exact Hname|]. split; [exact Hsim|].
        intros m' Hm'. apply elem_of_app in Hm'. destruct Hm' as [Hm' | Hm'];
          [apply Hmax; exact Hm'|].
        apply list_elem_of_singleton in Hm'. subst m'.
        apply Qlt_le_weak. apply Qnot_le_lt. intros Hc. apply Qle_bool_iff in Hc. congruence.
    + subst seen. exists m0. split; [left|]. split; [reflexivity|]. split; [reflexivity|].
      intros m' Hm'. apply list_elem_of_singleton in Hm'. subst m'. apply Qle_refl.
Qed.

Lemma get_marker_from vector ents attr (ids : list string) (seen : list marker)
    (acc acc' : option string * Q) :
  match acc.1 with
  | None => seen = []
  | Some name =>
      exists m, m ∈ seen /\ marker_verbalized m = name /\
                acc.2 = cosine lib vector (marker_center m) /\
                forall m', m' ∈ seen -> (cosine lib vector (marker_center m') <= acc.2)%Q
  end ->
  fold_result
    (fun acc bid =>
       match getitem (ents !! bid) with
       | Err e => Err e
       | Ok e =>
           match getitem (ent_summaries e) with
           | Err e => Err e
           | Ok sm =>
               match sm !! attr with
               | Some summary => Ok (foldl (closer_marker lib vector) acc summary)
               | None => Ok acc
               end
           end
       end) ids acc = Ok acc' ->
  match acc'.1 with
  | None => seen ++ markers_of ents ids attr = []
  | Some name =>
      exists m, m ∈ seen ++ markers_of ents ids attr /\ marker_verbalized m = name /\
                acc'.2 = cosine lib vector (marker_center m) /\
                forall m', m' ∈ seen ++ markers_of ents ids attr ->
                           (cosine lib vector (marker_center m') <= acc'.2)%Q
  end.
Proof.
  revert seen acc. induction ids as [|bid ids IH]; intros seen acc Hacc; cbn [fold_result].
  - intros H. injection H as <-. unfold markers_of. cbn. rewrite app_nil_r. exact Hacc.
  - unfold markers_of. cbn [mbind list_bind]. fold (markers_of ents ids attr).
    destruct (ents !! bid) as [e|]; [|discriminate]. cbn [getitem].
    destruct (ent_summaries e) as [sm|]; [|discriminate]. cbn [getitem].
    destruct (sm !! attr) as [summary|]; cbn [default].
    + rewrite app_assoc. apply IH. apply closer_marker_from. exact Hacc.
    + cbn [app]. apply IH. exact Hacc.
Qed.

(** X15. When [get_marker] returns, it returns [None] exactly if no entity
    has a marker for the attribute, and otherwise the verbalization of a
    marker of that attribute whose center is at least as similar to the
    embedded phrase as the center of every other one, over all entities. *)
Theorem get_marker_nearest self attr phrase st r st' :
  get_marker lib self attr phrase st = (Ok r, st') ->
  exists vector,
    phrase2vec lib self phrase st = (Ok vector, st') /\
    match r with
    | None => markers_of (entities st') (entity_ids self) attr = []
    | Some name => nearest_marker lib vector (markers_of (entities st') (entity_ids self) attr) name
    end.
Proof.
  unfold get_marker. intros Hrun.
  apply bind_ok in Hrun as (vector & s1 & Hvec & Hrun).
  rewrite (bind_run get _ s1 s1 s1 eq_refl) in Hrun.
  apply bind_ok in Hrun as ([best_match best_sim] & s2 & Hfold & Hret).
  apply lift_ok in Hfold as [Hfold ->]. injection Hret as <- <-.
  exists vector. split; [exact Hvec|].
  pose proof (get_marker_from vector (entities s1) attr (entity_ids self) [] (None, 0%Q)
                (best_match, best_sim) eq_refl Hfold) as Hinv.
  cbn [fst snd app] in Hinv. destruct best_match as [name|]; [|exact Hinv].
  destruct Hinv as (m & Hm & Hname & Hsim & Hmax).
  exists m. split; [exact Hm|]. split; [exact Hname|].
  intros m' Hm'. rewrite <- Hsim. apply Hmax. exact Hm'.
Qed.

End Markers.

(** ** The relevance of an objective term *)

Section Relevance.

Variable lib : imports.

Lemma flt_negb_fle a b : a <> NaN -> b <> NaN -> flt a b = negb (fle b a).
Proof. destruct a as [x| | |], b as [y| | |]; cbn; intros Ha Hb; try reflexivity; congruence. Qed.

Lemma term_score_numeric ents ground_truth bid qterm attr op oprand e val v o b :
  contains ":" qterm = true -> parses_as qterm ("num", attr, op, oprand)%string ->
  ents !! bid = Some e -> entity_get e attr = Some val ->
  pyval_float lib val = Ok v -> str_float lib oprand = Ok o -> v <> NaN -> o <> NaN ->
  violates lib ("num", attr, op, oprand)%string val = Ok b ->
  term_score lib ents ground_truth bid qterm = Ok (if b then 0%Q else 1%Q).
Proof.
  intros Hc (field & Hs & Hf) He Hval Hv Ho Hvn Hon Hviol. cbn [fst snd] in Hs, Hf.
  unfold term_score. rewrite Hc, Hs, Hf, He. cbn [getitem]. rewrite Hval.
  cbn [String.eqb Ascii.eqb Bool.eqb orb].
  unfold violates in Hviol. cbn [String.eqb Ascii.eqb Bool.eqb] in Hviol.
  rewrite Hv, Ho in *. injection Hviol as <-.
  destruct (String.eqb op "<").
  - rewrite (flt_negb_fle v o Hvn Hon). destruct (fle o v); reflexivity.
  - rewrite (flt_negb_fle o v Hon Hvn). destruct (fle v o); reflexivity.
Qed.

Lemma term_score_categorical ents ground_truth bid qterm e :
  ents !! bid = Some e -> unrewarded e qterm ->
  term_score lib ents ground_truth bid qterm = Ok 0%Q.
Proof.
  intros He (atype & attr & op & oprand & s & Hc & (field & Hs & Hf) & Htype & Hval).
  cbn [fst snd] in Hs, Hf.
  unfold term_score. rewrite Hc, Hs, Hf, He. cbn [getitem]. rewrite Hval.
  destruct Htype as [-> | ->]; reflexivity.
Qed.

(** X16. The evaluation and the [boolean] policy agree on numeric
    predicates as long as no [nan] is compared: for an entity that has the
    attribute, when neither its value nor the operand is [nan],
    [get_query_score] counts a well-formed [num] term as 1 when [opine]
    would not penalize the entity for it and as 0 when it would, whatever
    the labels say. *)
Theorem get_query_score_numeric ents ground_truth bid qterm attr op oprand e val v o b :
  contains ":" qterm = true -> parses_as qterm ("num", attr, op, oprand)%string ->
  ents !! bid = Some e -> entity_get e attr = Some val ->
  pyval_float lib val = Ok v -> str_float lib oprand = Ok o -> v <> NaN -> o <> NaN ->
  violates lib ("num", attr, op, oprand)%string val = Ok b ->
  get_query_score lib ents ground_truth bid [qterm] = Ok (0 + (if b then 0 else 1))%Q.
Proof.
  intros Hc Hparse He Hval Hv Ho Hvn Hon Hviol. unfold get_query_score. cbn [fold_result].
  rewrite (term_score_numeric _ _ _ _ _ _ _ _ _ _ _ _ Hc Hparse He Hval Hv Ho Hvn Hon Hviol).
  reflexivity.
Qed.

(** X17. A query made of [bool] and [cate] predicates on attributes the
    entity has is worth 0 in the evaluation, whether or not the entity
    satisfies them and whatever the labels say: the outcome of the
    comparison is assigned to another name than the one that is summed. *)
Theorem get_query_score_categorical ents ground_truth bid (query : list string) e :
  ents !! bid = Some e -> (forall qterm, qterm ∈ query -> unrewarded e qterm) ->
  exists total, get_query_score lib ents ground_truth bid query = Ok total /\ (total == 0)%Q.
Proof.
  intros He Hall. unfold get_query_score.
  assert (Hgen : forall acc, (acc == 0)%Q ->
            exists total,
              fold_result (fun total qterm =>
                             match term_score lib ents ground_truth bid qterm with
                             | Ok score => Ok (total + score)%Q
                             | Err e => Err e
                             end) query acc = Ok total /\ (total == 0)%Q).
  { induction query as [|qterm query IH]; intros acc Hacc; cbn [fold_result].
    - exists acc. split; [reflexivity | exact Hacc].
    - rewrite (term_score_categorical ents ground_truth bid qterm e He (Hall qterm ltac:(left))).
      apply IH; [intros q Hq; apply Hall; right; exact Hq|].
      rewrite Hacc. reflexivity. }
  apply Hgen. reflexivity.
Qed.

End Relevance.

(** ** Counters and dimensions *)

Section Features.

Variable lib : imports.

Lemma count_phrase_counts self qvec c item s c' s' :
  count_phrase lib self qvec c item s = (Ok c', s') ->
  (pos_count c' + neg_count c' == pos_count c + neg_count c + item.2)%Q /\
  (pos_match_count c' + neg_match_count c' - sim_count c'
   == pos_match_count c + neg_match_count c - sim_count c)%Q.
Proof.
  destruct item as [phrase n]. unfold count_phrase. intros Hrun.
  apply bind_ok in Hrun as (pvec & s1 & _ & Hrun).
  apply bind_ok in Hrun as (senti & s2 & _ & Hrun).
  injection Hrun as <- _. cbn [pos_count neg_count pos_match_count neg_match_count sim_count snd].
  destruct (Qltb 0.8 (cosine lib qvec pvec)), (Qle_bool 0 senti); cbn [andb negb];
    split; ring.
Qed.

Lemma count_phrases_counts self qvec histogram c s c' s' :
  for_fold (count_phrase lib self qvec) histogram c s = (Ok c', s') ->
  (pos_count c' + neg_count c' == pos_count c + neg_count c + total_count histogram)%Q /\
  (pos_match_count c' + neg_match_count c' - sim_count c'
   == pos_match_count c + neg_match_count c - sim_count c)%Q.
Proof.
  revert c s. induction histogram as [|item histogram IH]; intros c s Hrun; cbn [for_fold] in Hrun.
  - injection Hrun as <- _. cbn [total_count foldr]. split; ring.
  - apply bind_ok in Hrun as (c1 & s1 & Hstep & Hrun).
    apply count_phrase_counts in Hstep as [H1 H2]. apply IH in Hrun as [G1 G2].
    cbn [total_count foldr]. fold (total_count histogram).
    split; [rewrite G1, H1; ring | rewrite G2, H2; reflexivity].
Qed.

(** X18. When [get_features_phrases] returns, it returns eight features, of
    which the positive and the negative count add up to the number of
    phrase occurrences of the histogram, and the positive and the negative
    match count to the count of similar phrases less the 1 that count
    starts from. *)
Theorem get_features_phrases_counts self histogram qterm st X st' :
  get_features_phrases lib self histogram qterm st = (Ok X, st') ->
  exists sim mean_sim mean_all pos neg pos_match neg_match similarity,
    X = [sim; mean_sim; mean_all; pos; neg; pos_match; neg_match; similarity] /\
    (pos + neg == total_count histogram)%Q /\ (pos_match + neg_match == sim - 1)%Q.
Proof.
  unfold get_features_phrases. intros Hrun.
  apply bind_ok in Hrun as (qvec & s1 & _ & Hrun).
  apply bind_ok in Hrun as (c & s2 & Hfold & Hrun).
  apply bind_ok in Hrun as (mean_sim & s3 & _ & Hrun).
  apply bind_ok in Hrun as (mean_all & s4 & _ & Hrun).
  injection Hrun as <- _.
  apply count_phrases_counts in Hfold as [H1 H2].
  cbn [pos_count neg_count pos_match_count neg_match_count sim_count] in H1, H2.
  eexists _, _, _, _, _, _, _, _. split; [reflexivity|]. split.
  - rewrite H1. ring.
  - assert (Hsim : (pos_match_count c + neg_match_count c
                    == pos_match_count c + neg_match_count c - sim_count c + sim_count c)%Q)
      by ring.
    rewrite Hsim, H2. ring.
Qed.

(** X19. If every vector of the embedding model has 300 entries, so has
    every vector [phrase2vec] returns and caches: the sum starts from 300
    zeros, and adding a scaled embedding and dividing by the norm keep the
    length. *)
Theorem phrase2vec_dimension self phrase st v st' :
  (forall w wvec, model_wv self !! w = Some wvec -> length wvec = 300%nat) ->
  cache_dimension st ->
  phrase2vec lib self phrase st = (Ok v, st') ->
  length v = 300%nat /\ cache_dimension st'.
Proof.
  intros Hwv Hcache. unfold phrase2vec. rewrite (bind_run get _ st st st eq_refl). cbv beta.
  destruct (phrase2vec_cache st !! phrase) as [cached|] eqn:Hc.
  - intros H. injection H as <- <-. split; [eapply Hcache; exact Hc | exact Hcache].
  - cbv zeta. intros Hrun. apply bind_ok in Hrun as (res & s1 & Hsum & Hrun).
    apply lift_ok in Hsum as [Hsum ->]. injection Hrun as <- <-.
    assert (Hlen : length (normalize lib res) = 300%nat).
    { unfold weighted_sum in Hsum.
      apply (weighted_sum_dimension self _ _ _ Hwv (length_replicate _ _)) in Hsum.
      unfold normalize. destruct (Qltb 0 (numpy_norm lib res)); [|exact Hsum].
      unfold vdiv. rewrite length_map. exact Hsum. }
    split; [exact Hlen|]. intros p c. cbn [set_phrase2vec_cache phrase2vec_cache].
    destruct (decide (phrase = p)) as [<-|Hne].
    + rewrite lookup_insert_eq. intros H. injection H as <-. exact Hlen.
    + rewrite lookup_insert_ne by exact Hne. apply Hcache.
Qed.

Lemma scale_score_other scores bid factor scores' bid' :
  scale_score scores bid factor = Ok scores' -> bid' <> bid -> scores' !! bid' = scores !! bid'.
Proof.
  unfold scale_score. destruct (scores !! bid); [|discriminate]. cbn [getitem].
  intros H Hne. injection H as <-. apply lookup_insert_ne. congruence.
Qed.

(** X20. Under the [agnostic] and the [boolean] policy alike, a candidate
    that has none of the attributes the objective predicates test keeps the
    score the subjective terms gave it. *)
Theorem score_objective_skips factor ents bids obj_predicates scores scores' bid e :
  score_objective factor ents bids obj_predicates scores = Ok scores' ->
  ents !! bid = Some e ->
  (forall pred, pred ∈ obj_predicates -> entity_get e (pred.1.1.2) = None) ->
  scores' !! bid = scores !! bid.
Proof.
  intros Hrun He. unfold score_objective in Hrun. revert scores Hrun.
  induction obj_predicates as [|pred preds IH]; intros scores Hrun Hnone;
    cbn [fold_result] in Hrun.
  - injection Hrun as <-. reflexivity.
  - destruct (fold_result (objective_step factor ents pred) bids scores) as [scores1|] eqn:Hround;
      [|discriminate].
    rewrite (IH scores1 Hrun) by (intros p Hp; apply Hnone; right; exact Hp).
    specialize (Hnone pred ltac:(left)).
    clear IH Hrun. revert scores Hround.
    induction bids as [|b bids IHb]; intros scores Hround; cbn [fold_result] in Hround.
    + injection Hround as <-. reflexivity.
    + destruct (objective_step factor ents pred scores b) as [scores2|] eqn:Hstep; [|discriminate].
      rewrite (IHb scores2 Hround). unfold objective_step in Hstep.
      destruct (decide (b = bid)) as [->|Hne].
      * rewrite He in Hstep. cbn [getitem] in Hstep. rewrite Hnone in Hstep.
        injection Hstep as <-. reflexivity.
      * destruct (ents !! b) as [eb|]; [|discriminate]. cbn [getitem] in Hstep.
        destruct (entity_get eb (pred.1.1.2)); [|injection Hstep as <-; reflexivity].
        destruct (factor pred p) as [[f|]|]; [|injection Hstep as <-; reflexivity|discriminate].
        eapply scale_score_other; [exact Hstep | congruence].
Qed.

End Features.

(** ** Token positions and distances *)

Section Distance.

Variable lib : imports.

Lemma nearest_inner (p1 : nat) (l2 : list nat) (r : Z) :
  (r = -1 \/ 0 <= r)%Z ->
  let r' := foldl (fun result p2 =>
                     if (result <? 0)%Z || (Z.abs (Z.of_nat p1 - Z.of_nat p2) <? result)%Z
                     then Z.abs (Z.of_nat p1 - Z.of_nat p2) else result) r l2 in
  (r' = r \/ exists p2, p2 ∈ l2 /\ r' = distance p1 p2) /\
  (forall p2, p2 ∈ l2 -> (0 <= r' <= distance p1 p2)%Z) /\
  (0 <= r -> 0 <= r' <= r)%Z /\ (r' = -1 \/ 0 <= r')%Z.
Proof.
  revert r. induction l2 as [|p2 l2 IH]; intros r Hr; cbv zeta; cbn [foldl].
  - split; [left; reflexivity|]. split; [intros p2 Hin; inversion Hin|].
    split; [lia | exact Hr].
  - set (d := Z.abs (Z.of_nat p1 - Z.of_nat p2)).
    set (r1 := if (r <? 0)%Z || (d <? r)%Z then d else r).
    assert (Hr1 : (0 <= r1 <= d)%Z /\ (0 <= r -> r1 <= r)%Z /\ (r1 = r \/ r1 = d)).
    { unfold r1. destruct (Z.ltb_spec r 0); simpl; [lia|].
      destruct (Z.ltb_spec d r); lia. }
    destruct Hr1 as (Hb & Hle & Hcase).
    destruct (IH r1 (or_intror (proj1 Hb))) as (Hfrom & Hall & Hmono & Hval).
    specialize (Hmono (proj1 Hb)).
    split; [|split; [|split; [|exact Hval]]].
    + destruct Hfrom as [Heq | (p & Hp & Heq)].
      * destruct Hcase as [Hc | Hc]; [left; congruence|].
        right. exists p2. split; [left | rewrite Heq, Hc; reflexivity].
      * right. exists p. split; [right; exact Hp | exact Heq].
    + intros p Hp. apply elem_of_cons in Hp. destruct Hp as [-> | Hp]; [|apply Hall; exact Hp].
      unfold distance. fold d. lia.
    + intros H0. specialize (Hle H0). lia.
Qed.

Lemma nearest_outer (l1 l2 : list nat) (r : Z) :
  (r = -1 \/ 0 <= r)%Z ->
  let r' := foldl (fun result p1 =>
                     foldl (fun result p2 =>
                              if (result <? 0)%Z
                                 || (Z.abs (Z.of_nat p1 - Z.of_nat p2) <? result)%Z
                              then Z.abs (Z.of_nat p1 - Z.of_nat p2) else result)
                           result l2) r l1 in
  (r' = r \/ exists p1 p2, p1 ∈ l1 /\ p2 ∈ l2 /\ r' = distance p1 p2) /\
  (forall p1 p2, p1 ∈ l1 -> p2 ∈ l2 -> (0 <= r' <= distance p1 p2)%Z) /\
  (0 <= r -> 0 <= r' <= r)%Z /\ (r' = -1 \/ 0 <= r')%Z.
Proof.
  revert r. induction l1 as [|p1 l1 IH]; intros r Hr; cbv zeta; cbn [foldl].
  - split; [left; reflexivity|]. split; [intros p1 p2 Hin; inversion Hin|].
    split; [lia | exact Hr].
  - destruct (nearest_inner p1 l2 r Hr) as (Hfrom1 & Hall1 & Hmono1 & Hval1).
    cbv zeta in Hfrom1, Hall1, Hmono1, Hval1.
    set (r1 := foldl _ r l2) in *.
    destruct (IH r1 Hval1) as (Hfrom & Hall & Hmono & Hval).
    cbv zeta in Hfrom, Hall, Hmono, Hval.
    set (r2 := foldl _ r1 l1) in *.
    split; [|split; [|split; [|exact Hval]]].
    + destruct Hfrom as [Heq | (q1 & q2 & Hq1 & Hq2 & Heq)].
      * destruct Hfrom1 as [Heq1 | (q2 & Hq2 & Heq1)]; [left; congruence|].
        right. exists p1, q2. split; [left|]. split; [exact Hq2 | congruence].
      * right. exists q1, q2. split; [right; exact Hq1|]. split; [exact Hq2 | exact Heq].
    + intros q1 q2 Hq1 Hq2. apply elem_of_cons in Hq1. destruct Hq1 as [-> | Hq1].
      * specialize (Hall1 q2 Hq2). specialize (Hmono ltac:(lia)). lia.
      * apply Hall; assumption.
    + intros H0. specialize (Hmono1 H0). specialize (Hmono ltac:(lia)). lia.
Qed.

Lemma positions_elem (position_index : gmap string (list nat)) tokens acc p :
  p ∈ foldl (fun ps token => match position_index !! token with
                             | Some l => ps ++ l
                             | None => ps
                             end) acc tokens
  <-> p ∈ acc \/ exists token l, token ∈ tokens /\ position_index !! token = Some l /\ p ∈ l.
Proof.
  revert acc. induction tokens as [|token tokens IH]; intros acc; cbn [foldl].
  - split; [intros H; left; exact H|].
    intros [H | (token & l & Hin & _)]; [exact H | inversion Hin].
  - rewrite IH. split.
    + intros [Hacc | (t & l & Ht & Hl & Hp)].
      * destruct (position_index !! token) as [l|] eqn:Hl; [|left; exact Hacc].
        apply elem_of_app in Hacc. destruct Hacc as [Hacc | Hp]; [left; exact Hacc|].
        right. exists token, l. split; [left|]. split; assumption.
      * right. exists t, l. split; [right; exact Ht|]. split; assumption.
    + intros [Hacc | (t & l & Ht & Hl & Hp)].
      * left. destruct (position_index !! token); [apply elem_of_app; left|]; exact Hacc.
      * apply elem_of_cons in Ht. destruct Ht as [-> | Ht].
        -- left. rewrite Hl. apply elem_of_app. right. exact Hp.
        -- right. exists t, l. split; [exact Ht|]. split; assumption.
Qed.

Lemma positions_occur (position_index : gmap string (list nat)) phrase p :
  p ∈ foldl (fun ps token => match position_index !! token with
                             | Some l => ps ++ l
                             | None => ps
                             end) [] (gensim_simple_preprocess lib (lower phrase))
  <-> occurs_at lib position_index phrase p.
Proof.
  rewrite positions_elem. unfold occurs_at. split; [|intros H; right; exact H].
  intros [H | H]; [inversion H | exact H].
Qed.

(** X5. [get_dist] returns the least distance between a position of a token
    of the first phrase and a position of a token of the second, and [-1]
    exactly when one of the phrases has no token in the review. *)
Theorem get_dist_minimum (position_index : gmap string (list nat)) phrase1 phrase2 :
  let d := get_dist lib position_index phrase1 phrase2 in
  (forall p1 p2, occurs_at lib position_index phrase1 p1 ->
                 occurs_at lib position_index phrase2 p2 -> (0 <= d <= distance p1 p2)%Z) /\
  (d = (-1)%Z \/
   exists p1 p2, occurs_at lib position_index phrase1 p1 /\
                 occurs_at lib position_index phrase2 p2 /\ d = distance p1 p2) /\
  (d = (-1)%Z <->
   ~ exists p1 p2, occurs_at lib position_index phrase1 p1 /\
                   occurs_at lib position_index phrase2 p2).
Proof.
  intros d.
  assert (Hall : forall p1 p2, occurs_at lib position_index phrase1 p1 ->
                   occurs_at lib position_index phrase2 p2 -> (0 <= d <= distance p1 p2)%Z).
  { intros p1 p2 H1 H2. apply positions_occur in H1, H2.
    exact (proj1 (proj2 (nearest_outer _ _ (-1)%Z (or_introl eq_refl))) p1 p2 H1 H2). }
  assert (Hfrom : d = (-1)%Z \/
            exists p1 p2, occurs_at lib position_index phrase1 p1 /\
                          occurs_at lib position_index phrase2 p2 /\ d = distance p1 p2).
  { destruct (proj1 (nearest_outer
                       (foldl (fun ps token => match position_index !! token with
                                               | Some l => ps ++ l
                                               | None => ps
                                               end) []
                              (gensim_simple_preprocess lib (lower phrase1)))
                       (foldl (fun ps token => match position_index !! token with
                                               | Some l => ps ++ l
                                               | None => ps
                                               end) []
                              (gensim_simple_preprocess lib (lower phrase2)))
                       (-1)%Z (or_introl eq_refl)))
      as [Heq | (p1 & p2 & H1 & H2 & Heq)].
    - left. exact Heq.
    - right. exists p1, p2. rewrite <- !positions_occur. split; [exact H1|].
      split; [exact H2 | exact Heq]. }
  split; [exact Hall|]. split; [exact Hfrom|]. split.
  - intros Hd (p1 & p2 & H1 & H2). specialize (Hall p1 p2 H1 H2). lia.
  - intros Hno. destruct Hfrom as [Hd | (p1 & p2 & H1 & H2 & _)]; [exact Hd|].
    exfalso. apply Hno. exists p1, p2. split; assumption.
Qed.

(** X6. [get_dist] is symmetric in the two phrases. *)
Theorem get_dist_symmetric (position_index : gmap string (list nat)) phrase1 phrase2 :
  get_dist lib position_index phrase1 phrase2 = get_dist lib position_index phrase2 phrase1.
Proof.
  unfold get_dist. cbv zeta.
  set (l1 := foldl _ [] (gensim_simple_preprocess lib (lower phrase1))).
  set (l2 := foldl _ [] (gensim_simple_preprocess lib (lower phrase2))).
  destruct (nearest_outer l1 l2 (-1)%Z (or_introl eq_refl)) as (Hfrom & Hall & _ & _).
  destruct (nearest_outer l2 l1 (-1)%Z (or_introl eq_refl)) as (Hfrom' & Hall' & _ & _).
  cbv zeta in Hfrom, Hall, Hfrom', Hall'.
  set (d := foldl _ (-1)%Z l1) in *. set (d' := foldl _ (-1)%Z l2) in *.
  assert (Hsym : forall p q, distance p q = distance q p) by (intros p q; unfold distance; lia).
  destruct Hfrom as [Hd | (p1 & p2 & H1 & H2 & Hd)],
           Hfrom' as [Hd' | (q2 & q1 & G2 & G1 & Hd')].
  - congruence.
  - specialize (Hall q1 q2 G1 G2). lia.
  - specialize (Hall' p2 p1 H2 H1). lia.
  - specialize (Hall q1 q2 G1 G2). specialize (Hall' p2 p1 H2 H1).
    rewrite (Hsym q1 q2) in Hall. rewrite (Hsym p2 p1) in Hall'. lia.
Qed.

Lemma sorted_snoc (l : list nat) (n : nat) :
  StronglySorted lt l -> (forall p, p ∈ l -> (p < n)%nat) -> StronglySorted lt (l ++ [n]).
Proof.
  induction 1 as [|p l Hs IH Hall]; intros Hlt; cbn [app].
  - constructor; constructor.
  - constructor.
    + apply IH. intros q Hq. apply Hlt. right. exact Hq.
    + apply Forall_app. split; [exact Hall|]. constructor; [|constructor]. apply Hlt. left.
Qed.

Lemma index_positions_snoc (tokens : list string) (x : string) :
  index_positions (tokens ++ [x])
  = match index_positions tokens !! x with
    | None => <[x := [length tokens]]> (index_positions tokens)
    | Some ps => <[x := ps ++ [length tokens]]> (index_positions tokens)
    end.
Proof.
  unfold index_positions, enumerate. rewrite imap_app, foldl_app. cbn [imap foldl].
  rewrite Nat.add_0_r. reflexivity.
Qed.

(** X7. The position index of a review maps each of its tokens to the
    ascending list of the positions the token stands at, and has no entry
    for any other token. *)
Theorem index_positions_lookup (tokens : list string) (token : string) :
  match index_positions tokens !! token with
  | None => token ∉ tokens
  | Some l => l <> [] /\ StronglySorted lt l /\ forall p, p ∈ l <-> tokens !! p = Some token
  end.
Proof.
  induction tokens as [|x tokens IH] using rev_ind.
  - unfold index_positions. cbn. rewrite lookup_empty. intros H. inversion H.
  - rewrite index_positions_snoc.
    destruct (decide (x = token)) as [->|Hne].
    + destruct (index_positions tokens !! token) as [ps|] eqn:Hps; rewrite lookup_insert_eq.
      * destruct IH as (_ & Hsorted & Hmem).
        split; [intros H; apply app_eq_nil in H as [_ H]; discriminate|].
        split.
        -- apply sorted_snoc; [exact Hsorted|]. intros p Hp. apply Hmem in Hp.
           eapply lookup_lt_Some. exact Hp.
        -- intros p. rewrite elem_of_app, list_elem_of_singleton, lookup_snoc_Some, Hmem.
           split.
           ++ intros [Hp | ->]; [left; split; [eapply lookup_lt_Some; exact Hp | exact Hp]|].
              right. split; reflexivity.
           ++ intros [[_ Hp] | [-> _]]; [left; exact Hp | right; reflexivity].
      * split; [discriminate|]. split; [repeat constructor|].
        intros p. rewrite list_elem_of_singleton, lookup_snoc_Some. split.
        -- intros ->. right. split; reflexivity.
        -- intros [[_ Hp] | [-> _]]; [|reflexivity].
           exfalso. apply IH. eapply list_elem_of_lookup_2. exact Hp.
    + assert (Hsame : (match index_positions tokens !! x with
                       | None => <[x := [length tokens]]> (index_positions tokens)
                       | Some ps => <[x := ps ++ [length tokens]]> (index_positions tokens)
                       end) !! token = index_positions tokens !! token).
      { destruct (index_positions tokens !! x); rewrite lookup_insert_ne by exact Hne;
          reflexivity. }
      rewrite Hsame. destruct (index_positions tokens !! token) as [l|].
      * destruct IH as (Hnil & Hsorted & Hmem). split; [exact Hnil|]. split; [exact Hsorted|].
        intros p. rewrite Hmem, lookup_snoc_Some. split.
        -- intros Hp. left. split; [eapply lookup_lt_Some; exact Hp | exact Hp].
        -- intros [[_ Hp] | [_ Hx]]; [exact Hp | contradiction].
      * intros Hin. apply elem_of_app in Hin. destruct Hin as [Hin | Hin]; [exact (IH Hin)|].
        apply list_elem_of_singleton in Hin. congruence.
Qed.

End Distance.

(** ** Caches: what a second call does *)

#[local] Instance grows_preorder : PreOrder grows.
Proof.
  split.
  - intros s. repeat split; reflexivity.
  - intros s1 s2 s3 (Hc12 & Hp12 & Hi12 & Hm12) (Hc23 & Hp23 & Hi23 & Hm23).
    repeat split; etransitivity; eassumption.
Qed.

Lemma grows_set_entities_free s s' :
  entities s' = entities s ->
  phrase2vec_cache s ⊆ phrase2vec_cache s' ->
  interpret_cache s ⊆ interpret_cache s' ->
  membership_cache s ⊆ membership_cache s' ->
  grows s s'.
Proof.
  intros He Hp Hi Hm. split; [apply same_entities_catalog; exact He | auto].
Qed.

(** The frame tactic for relations that compare one attribute of the state. *)
Ltac frame_attr :=
  repeat first
    [ solve [eauto with frame]
    | apply preserves_modify;
      first [solve [intros ?; reflexivity] | solve [intros ? ?; reflexivity] | typeclasses eauto]
    | frame_step ].

Section Replay.

Variable lib : imports.

Lemma phrase2vec_grows self phrase : preserves grows (phrase2vec lib self phrase).
Proof.
  intros s. unfold phrase2vec, bind, get, lift, modify, ret.
  destruct (phrase2vec_cache s !! phrase) eqn:Hc; simpl; [reflexivity|].
  destruct (weighted_sum _ _); simpl; [|reflexivity].
  apply grows_set_entities_free; simpl; try reflexivity.
  apply insert_subseteq. exact Hc.
Qed.

Lemma cooc_interpret_grows self qterm : preserves grows (cooc_interpret lib self qterm).
Proof.
  intros s. destruct (cooc_interpret_upto_calls lib self qterm s) as (He & Hp & Hm & Hi & _).
  apply grows_set_entities_free; [exact He | rewrite Hp | rewrite Hi | rewrite Hm]; reflexivity.
Qed.

#[local] Hint Resolve phrase2vec_grows cooc_interpret_grows : frame.

Lemma nearest_phrase_grows self query_term :
  preserves grows (nearest_phrase lib self query_term).
Proof. unfold nearest_phrase. frame. Qed.

#[local] Instance keeps_interpret_cache_preorder : PreOrder keeps_interpret_cache.
Proof. split; unfold keeps_interpret_cache; [intros s | intros s1 s2 s3]; congruence. Qed.

#[local] Instance keeps_membership_cache_preorder : PreOrder keeps_membership_cache.
Proof. split; unfold keeps_membership_cache; [intros s | intros s1 s2 s3]; congruence. Qed.

Lemma phrase2vec_keeps_interpret self phrase :
  preserves keeps_interpret_cache (phrase2vec lib self phrase).
Proof. unfold phrase2vec. frame_attr. Qed.

Lemma cooc_interpret_keeps_interpret self qterm :
  preserves keeps_interpret_cache (cooc_interpret lib self qterm).
Proof.
  intros s. destruct (cooc_interpret_upto_calls lib self qterm s) as (_ & _ & _ & Hi & _).
  exact Hi.
Qed.

#[local] Hint Resolve phrase2vec_keeps_interpret cooc_interpret_keeps_interpret : frame.

Lemma nearest_phrase_keeps_interpret self query_term :
  preserves keeps_interpret_cache (nearest_phrase lib self query_term).
Proof. unfold nearest_phrase. frame_attr. Qed.

Lemma phrase2vec_keeps_membership self phrase :
  preserves keeps_membership_cache (phrase2vec lib self phrase).
Proof. unfold phrase2vec. frame_attr. Qed.

#[local] Hint Resolve phrase2vec_keeps_membership : frame.

Lemma count_phrase_keeps_membership self qvec c item :
  preserves keeps_membership_cache (count_phrase lib self qvec c item).
Proof. unfold count_phrase. frame_attr. Qed.

#[local] Hint Resolve count_phrase_keeps_membership : frame.

Lemma mode_score_keeps_membership self mode obj_features bid attr_name qterm :
  preserves keeps_membership_cache (mode_score lib self mode obj_features bid attr_name qterm).
Proof.
  unfold mode_score, get_features_summary, get_features_phrases, predict_proba. frame_attr.
Qed.

Lemma count_phrase_grows self qvec c item :
  preserves grows (count_phrase lib self qvec c item).
Proof. unfold count_phrase. frame. Qed.

#[local] Hint Resolve count_phrase_grows : frame.

Lemma get_features_summary_grows self bid attr_name qterm num_markers :
  preserves grows (get_features_summary lib self bid attr_name qterm num_markers).
Proof.
  unfold get_features_summary. apply preserves_bind; [typeclasses eauto | frame |].
  intros qvec s. unfold bind, get, lift, modify, ret. simpl.
  destruct (summary_of (entities s) bid attr_name) as [summary|e] eqn:Hsum;
    simpl; [|reflexivity].
  destruct (sort_summary summary) as [sorted|e] eqn:Hsort; simpl; [|reflexivity].
  assert (Hstore : grows s (set_entities (store_summary bid attr_name sorted) s)).
  { split; [|repeat split; reflexivity].
    intros bid'. simpl. eapply store_summary_similar; [exact Hsum|].
    apply sort_summary_perm. exact Hsort. }
  destruct (fold_result _ sorted []); simpl; exact Hstore.
Qed.

#[local] Hint Resolve get_features_summary_grows : frame.

Lemma predict_proba_grows model features : preserves grows (predict_proba model features).
Proof.
  unfold predict_proba. apply preserves_bind; [typeclasses eauto| |intros []; frame].
  apply preserves_modify. intros s. apply grows_set_entities_free; reflexivity.
Qed.

#[local] Hint Resolve predict_proba_grows : frame.

Lemma mode_score_grows self mode obj_features bid attr_name qterm :
  preserves grows (mode_score lib self mode obj_features bid attr_name qterm).
Proof. unfold mode_score, get_features_phrases. frame. Qed.

(** What a run of [m] from [s] gives for a relation [m] preserves. *)
Lemma preserves_run (R : relation state) {A} (m : M A) s r s1 :
  preserves R m -> m s = (r, s1) -> R s s1.
Proof. intros Hm Hrun. specialize (Hm s). rewrite Hrun in Hm. exact Hm. Qed.

(** A miss of [interpret]: the state before the final assignment has grown
    and holds the same interpretation cache. *)
Lemma interpret_miss self query_term threshold s :
  interpret_cache s !! query_term = None ->
  exists mid, grows s mid /\ interpret_cache mid = interpret_cache s /\
    ((exists e, interpret lib self query_term threshold s = (Err e, mid)) \/
     (exists res, interpret lib self query_term threshold s
                  = (Ok res, set_interpret_cache (insert query_term res) mid))).
Proof.
  intros Hmiss.
  assert (exists r, r = interpret lib self query_term threshold s) as [r Hr] by (eexists; reflexivity).
  rewrite <- Hr.
  unfold interpret in Hr. rewrite (bind_run get _ s s s eq_refl) in Hr.
  cbv beta in Hr. rewrite Hmiss in Hr. unfold bind at 1 in Hr.
  destruct (nearest_phrase lib self query_term s) as [[[[res sim] len]|e] s1] eqn:Hnear.
  - pose proof (preserves_run _ _ _ _ _ (nearest_phrase_grows self query_term) Hnear) as Hg1.
    pose proof (preserves_run _ _ _ _ _ (nearest_phrase_keeps_interpret self query_term) Hnear)
      as Hk1.
    destruct (falls_back threshold sim len).
    + unfold bind at 1 in Hr. unfold bind at 1 in Hr.
      destruct (cooc_interpret lib (cooc self) query_term s1) as [[c|e] s2] eqn:Hcooc.
      * pose proof (preserves_run _ _ _ _ _ (cooc_interpret_grows (cooc self) query_term) Hcooc)
          as Hg2.
        pose proof (preserves_run _ _ _ _ _
                      (cooc_interpret_keeps_interpret (cooc self) query_term) Hcooc) as Hk2.
        exists s2. split; [etransitivity; eassumption|].
        split; [unfold keeps_interpret_cache in *; congruence|].
        right. destruct c as [found|]; eexists; exact Hr.
      * pose proof (preserves_run _ _ _ _ _ (cooc_interpret_grows (cooc self) query_term) Hcooc)
          as Hg2.
        pose proof (preserves_run _ _ _ _ _
                      (cooc_interpret_keeps_interpret (cooc self) query_term) Hcooc) as Hk2.
        exists s2. split; [etransitivity; eassumption|].
        split; [unfold keeps_interpret_cache in *; congruence|].
        left. eexists. exact Hr.
    + exists s1. split; [exact Hg1|]. split; [exact Hk1|]. right. eexists. exact Hr.
  - exists s1.
    split; [exact (preserves_run _ _ _ _ _ (nearest_phrase_grows self query_term) Hnear)|].
    split; [exact (preserves_run _ _ _ _ _ (nearest_phrase_keeps_interpret self query_term) Hnear)|].
    left. eexists. exact Hr.
Qed.

Lemma grows_insert_interpret s mid query_term res :
  grows s mid -> interpret_cache mid !! query_term = None ->
  grows s (set_interpret_cache (insert query_term res) mid).
Proof.
  intros Hg Hnone. etransitivity; [exact Hg|].
  apply grows_set_entities_free; simpl; try reflexivity.
  apply insert_subseteq. exact Hnone.
Qed.

Lemma interpret_grows self query_term threshold :
  preserves grows (interpret lib self query_term threshold).
Proof.
  intros s. destruct (interpret_cache s !! query_term) as [cached|] eqn:Hc.
  - unfold interpret, bind, get, ret. rewrite Hc. reflexivity.
  - destruct (interpret_miss self query_term threshold s Hc) as (mid & Hg & Hk & Hrun).
    destruct Hrun as [[e ->] | [res ->]]; simpl; [exact Hg|].
    apply grows_insert_interpret; [exact Hg | rewrite Hk; exact Hc].
Qed.

Lemma interpret_cached self query_term threshold s res :
  interpret_cache s !! query_term = Some res ->
  interpret lib self query_term threshold s = (Ok res, s).
Proof. intros Hc. unfold interpret, bind, get, ret. rewrite Hc. reflexivity. Qed.

Lemma interpret_returns_cached self query_term threshold s res s1 :
  interpret lib self query_term threshold s = (Ok res, s1) ->
  interpret_cache s1 !! query_term = Some res.
Proof.
  intros Hrun. destruct (interpret_cache s !! query_term) as [cached|] eqn:Hc.
  - rewrite (interpret_cached _ _ _ _ _ Hc) in Hrun. injection Hrun as <- <-. exact Hc.
  - destruct (interpret_miss self query_term threshold s Hc) as (mid & _ & _ & Hcase).
    destruct Hcase as [[e He] | [res' Hres]]; rewrite Hrun in *; [discriminate|].
    injection Hres as -> ->. simpl. apply lookup_insert_eq.
Qed.

Lemma interpret_replays self query_term threshold threshold' :
  replays (interpret lib self query_term threshold) (interpret lib self query_term threshold').
Proof.
  intros s res s1 Hrun s2 (_ & _ & Hi & _).
  apply interpret_cached. eapply lookup_weaken; [|exact Hi].
  eapply interpret_returns_cached. exact Hrun.
Qed.

(** A miss of [membership], in the same terms. *)
Lemma membership_miss self mode bid attr_name qterm pred s :
  membership_cache s !! membership_key self bid attr_name qterm pred = None ->
  exists mid, grows s mid /\ membership_cache mid = membership_cache s /\
    ((exists e, membership lib self mode bid attr_name qterm pred s = (Err e, mid)) \/
     (exists score, membership lib self mode bid attr_name qterm pred s
        = (Ok score,
           set_membership_cache (insert (membership_key self bid attr_name qterm pred) score)
                                mid))).
Proof.
  intros Hmiss.
  assert (exists r, r = membership lib self mode bid attr_name qterm pred s) as [r Hr]
    by (eexists; reflexivity).
  rewrite <- Hr. unfold membership in Hr. unfold membership_key in *.
  destruct (bool_decide (obj_attrs self = ∅)).
  - cbv iota in Hmiss, Hr.
    rewrite (bind_run get _ s s s eq_refl) in Hr. cbv beta in Hr.
    match type of Hr with
    | _ = match ?c with _ => _ end _ => replace c with (@None Q) in Hr by (symmetry; exact Hmiss)
    end.
    unfold bind at 1 in Hr.
    destruct (mode_score lib self mode [] bid attr_name qterm s) as [[score|e] s1] eqn:Hrun;
      exists s1;
      (split; [exact (preserves_run _ _ _ _ _ (mode_score_grows _ _ _ _ _ _) Hrun)|]);
      (split; [exact (preserves_run _ _ _ _ _ (mode_score_keeps_membership _ _ _ _ _ _) Hrun)|]);
      [right | left]; eexists; exact Hr.
  - cbv iota in Hmiss, Hr.
    rewrite (bind_run get _ s s s eq_refl) in Hr. cbv beta in Hr.
    match type of Hr with
    | _ = match ?c with _ => _ end _ => replace c with (@None Q) in Hr by (symmetry; exact Hmiss)
    end.
    unfold bind at 1 in Hr. unfold lift at 1 in Hr.
    destruct (obj_context_of (entities s) bid pred) as [[[[[atype value] attr] op] oprand]|e];
      [|exists s; split; [reflexivity|]; split; [reflexivity|]; left; eexists; exact Hr].
    unfold bind at 1 in Hr. unfold lift at 1 in Hr.
    destruct (get_features_obj lib self atype value attr op oprand) as [obj_features|e];
      [|exists s; split; [reflexivity|]; split; [reflexivity|]; left; eexists; exact Hr].
    unfold bind at 1 in Hr.
    destruct (mode_score lib self mode obj_features bid attr_name qterm s)
      as [[score|e] s1] eqn:Hrun;
      exists s1;
      (split; [exact (preserves_run _ _ _ _ _ (mode_score_grows _ _ _ _ _ _) Hrun)|]);
      (split; [exact (preserves_run _ _ _ _ _ (mode_score_keeps_membership _ _ _ _ _ _) Hrun)|]);
      [right | left]; eexists; exact Hr.
Qed.

Lemma membership_cached self mode bid attr_name qterm pred s score :
  membership_cache s !! membership_key self bid attr_name qterm pred = Some score ->
  membership lib self mode bid attr_name qterm pred s = (Ok score, s).
Proof.
  intros Hc. unfold membership. unfold membership_key in Hc.
  destruct (bool_decide (obj_attrs self = ∅)); cbv iota in Hc |- *;
    rewrite (bind_run get _ s s s eq_refl); cbv beta;
    match goal with
    | |- match ?c with _ => _ end _ = _ => replace c with (Some score) by (symmetry; exact Hc)
    end; reflexivity.
Qed.

Lemma membership_grows self mode bid attr_name qterm pred :
  preserves grows (membership lib self mode bid attr_name qterm pred).
Proof.
  intros s.
  destruct (membership_cache s !! membership_key self bid attr_name qterm pred)
    as [cached|] eqn:Hc.
  - rewrite (membership_cached _ mode _ _ _ _ _ _ Hc). reflexivity.
  - destruct (membership_miss self mode bid attr_name qterm pred s Hc) as (mid & Hg & Hk & Hrun).
    destruct Hrun as [[e ->] | [score ->]]; simpl; [exact Hg|].
    etransitivity; [exact Hg|].
    apply grows_set_entities_free; simpl; try reflexivity.
    apply insert_subseteq. rewrite Hk. exact Hc.
Qed.

Lemma membership_returns_cached self mode bid attr_name qterm pred s score s1 :
  membership lib self mode bid attr_name qterm pred s = (Ok score, s1) ->
  membership_cache s1 !! membership_key self bid attr_name qterm pred = Some score.
Proof.
  intros Hrun.
  destruct (membership_cache s !! membership_key self bid attr_name qterm pred)
    as [cached|] eqn:Hc.
  - rewrite (membership_cached _ mode _ _ _ _ _ _ Hc) in Hrun. injection Hrun as <- <-. exact Hc.
  - destruct (membership_miss self mode bid attr_name qterm pred s Hc) as (mid & _ & _ & Hcase).
    destruct Hcase as [[e He] | [score' Hres]]; rewrite Hrun in *; [discriminate|].
    injection Hres as -> ->. simpl. apply lookup_insert_eq.
Qed.

Lemma membership_replays self mode mode' bid attr_name qterm pred :
  replays (membership lib self mode bid attr_name qterm pred)
          (membership lib self mode' bid attr_name qterm pred).
Proof.
  intros s score s1 Hrun s2 (_ & _ & _ & Hm).
  apply membership_cached. eapply lookup_weaken; [|exact Hm].
  eapply membership_returns_cached. exact Hrun.
Qed.

#[local] Hint Resolve interpret_grows membership_grows : frame.

(** *** Replaying a computation *)

Lemma replays_ret {A} (a : A) : replays (ret a) (ret a).
Proof. intros s b s1 Hrun s2 _. injection Hrun as <- _. reflexivity. Qed.

Lemma replays_lift {A} (r : result A) : replays (lift r) (lift r).
Proof. intros s b s1 Hrun s2 _. injection Hrun as -> _. reflexivity. Qed.

Lemma replays_bind {A B} (m m' : M A) (k k' : A -> M B) :
  (forall a, preserves grows (k a)) -> replays m m' -> (forall a, replays (k a) (k' a)) ->
  replays (bind m k) (bind m' k').
Proof.
  intros Hk Hm Hkk s b s' Hrun s2 Hg.
  apply bind_ok in Hrun as (a & s1 & Hma & Hka).
  pose proof (preserves_run _ _ _ _ _ (Hk a) Hka) as Hg1.
  rewrite (bind_run m' k' s2 a s2).
  - eapply Hkk; eassumption.
  - eapply Hm; [exact Hma | etransitivity; eassumption].
Qed.

Lemma replays_for_fold {A B} (f f' : B -> A -> M B) l acc :
  (forall acc x, preserves grows (f acc x)) -> (forall acc x, replays (f acc x) (f' acc x)) ->
  replays (for_fold f l acc) (for_fold f' l acc).
Proof.
  intros Hf Hff. revert acc. induction l as [|x l IH]; intros acc; simpl.
  - apply replays_ret.
  - apply replays_bind; [|apply Hff|exact IH].
    intros acc'. apply preserves_for_fold; [typeclasses eauto | exact Hf].
Qed.

Lemma objective_step_similar factor s s' pred scores bid :
  same_catalog s s' ->
  objective_step factor (entities s') pred scores bid
  = objective_step factor (entities s) pred scores bid.
Proof.
  intros Hcat. unfold objective_step. specialize (Hcat bid).
  destruct (entities s !! bid) as [e|], (entities s' !! bid) as [e'|]; simpl in Hcat;
    try contradiction; [|reflexivity].
  simpl. rewrite (entity_get_similar _ _ _ Hcat). reflexivity.
Qed.

Lemma objective_round_similar factor s s' pred bids scores :
  same_catalog s s' ->
  fold_result (objective_step factor (entities s') pred) bids scores
  = fold_result (objective_step factor (entities s) pred) bids scores.
Proof.
  intros Hcat. revert scores. induction bids as [|bid bids IHb]; intros sc; simpl; [reflexivity|].
  rewrite (objective_step_similar _ _ _ _ _ _ Hcat).
  destruct (objective_step factor (entities s) pred sc bid); [apply IHb | reflexivity].
Qed.

Lemma score_objective_similar factor s s' bids obj_predicates scores :
  same_catalog s s' ->
  score_objective factor (entities s') bids obj_predicates scores
  = score_objective factor (entities s) bids obj_predicates scores.
Proof.
  intros Hcat. unfold score_objective. revert scores.
  induction obj_predicates as [|pred preds IH]; intros scores; simpl; [reflexivity|].
  rewrite (objective_round_similar _ _ _ _ _ _ Hcat).
  destruct (fold_result _ bids scores); [apply IH | reflexivity].
Qed.

Ltac replay :=
  repeat lazymatch goal with
  | |- replays (bind _ _) (bind _ _) => apply replays_bind; [intros ?; frame | | intros ?]
  | |- replays (for_fold _ _ _) (for_fold _ _ _) =>
      apply replays_for_fold; [intros ? ?; frame | intros ? ?]
  | |- replays (lift _) (lift _) => apply replays_lift
  | |- replays (ret _) (ret _) => apply replays_ret
  | |- replays (interpret _ _ _ _) (interpret _ _ _ _) => apply interpret_replays
  | |- replays (membership _ _ _ _ _ _ _) (membership _ _ _ _ _ _ _) =>
      apply membership_replays
  | |- replays (match ?x with _ => _ end) _ => destruct x
  end.

Lemma score_subjective_grows self mode bids sub_predicates scores :
  preserves grows (score_subjective lib self mode bids sub_predicates scores).
Proof. unfold score_subjective. frame. Qed.

Lemma score_sensitive_grows self mode bids sub_predicates obj_predicates scores :
  preserves grows (score_sensitive lib self mode bids sub_predicates obj_predicates scores).
Proof. unfold score_sensitive. frame. Qed.

#[local] Hint Resolve score_subjective_grows score_sensitive_grows : frame.

Lemma apply_objective_grows self mode obj_context bids sub_predicates obj_predicates scores :
  preserves grows
    (apply_objective lib self mode obj_context bids sub_predicates obj_predicates scores).
Proof. unfold apply_objective. frame. Qed.

#[local] Hint Resolve apply_objective_grows : frame.

Lemma opine_grows self query bids mode obj_context :
  preserves grows (opine lib self query bids mode obj_context).
Proof. unfold opine, opine_scores. frame. Qed.

Lemma score_subjective_replays self mode mode' bids sub_predicates scores :
  replays (score_subjective lib self mode bids sub_predicates scores)
          (score_subjective lib self mode' bids sub_predicates scores).
Proof. unfold score_subjective. replay. Qed.

Lemma score_sensitive_replays self mode mode' bids sub_predicates obj_predicates scores :
  replays (score_sensitive lib self mode bids sub_predicates obj_predicates scores)
          (score_sensitive lib self mode' bids sub_predicates obj_predicates scores).
Proof. unfold score_sensitive. replay. Qed.

Lemma get_objective_replays factor bids obj_predicates scores :
  replays (let* st := get in lift (score_objective factor (entities st) bids obj_predicates scores))
          (let* st := get in lift (score_objective factor (entities st) bids obj_predicates scores)).
Proof.
  intros s a s1 Hrun s2 (Hcat & _).
  unfold bind, get, lift in *. injection Hrun as Hrun <-.
  rewrite (score_objective_similar _ _ _ _ _ _ Hcat), Hrun. reflexivity.
Qed.

Lemma apply_objective_replays self mode mode' obj_context bids sub_predicates obj_predicates
    scores :
  replays (apply_objective lib self mode obj_context bids sub_predicates obj_predicates scores)
          (apply_objective lib self mode' obj_context bids sub_predicates obj_predicates scores).
Proof.
  unfold apply_objective.
  destruct (String.eqb obj_context "sensitive"); [apply score_sensitive_replays|].
  destruct (String.eqb obj_context "agnostic"); [apply get_objective_replays|].
  destruct (String.eqb obj_context "boolean"); [apply get_objective_replays|].
  apply replays_ret.
Qed.

Lemma opine_replays self query bids mode mode' obj_context :
  replays (opine lib self query bids mode obj_context)
          (opine lib self query bids mode' obj_context).
Proof.
  unfold opine, opine_scores.
  apply replays_bind; [intros ?; frame | | intros ?; apply replays_lift].
  apply replays_bind; [intros ?; frame | apply replays_lift | intros [subs objs]].
  apply replays_bind; [intros ?; frame | apply score_subjective_replays | intros ?].
  apply apply_objective_replays.
Qed.

(** Every operation except [clear_cache] only adds to the caches. *)
Lemma operations_grow self (ops : list operation) st :
  OpClearCache ∉ ops -> grows st (foldl (run_operation lib self) st ops).
Proof.
  revert st. induction ops as [|op ops IH]; intros st Hno; [reflexivity|].
  simpl. etransitivity; [|apply IH; intros Hin; apply Hno; right; exact Hin].
  destruct op; simpl.
  - apply phrase2vec_grows.
  - apply interpret_grows.
  - apply membership_grows.
  - apply opine_grows.
  - exfalso. apply Hno. left.
Qed.

(** *** What the caches give back *)

(** X1. Once [SimpleOpine.interpret] has returned for a term, every later
    call with that term returns the same pair and leaves the engine as it
    is, whatever [fallback_threshold] it is given and whatever operations
    other than [clear_cache] ran in between: the cache is keyed by the term
    alone. *)
Theorem interpret_memoized self query_term threshold threshold' st res st1
    (ops : list operation) :
  interpret lib self query_term threshold st = (Ok res, st1) ->
  OpClearCache ∉ ops ->
  let st2 := foldl (run_operation lib self) st1 ops in
  interpret lib self query_term threshold' st2 = (Ok res, st2).
Proof.
  intros Hrun Hops st2.
  eapply interpret_replays; [exact Hrun | apply operations_grow; exact Hops].
Qed.

(** X2. The membership closure of [opine] caches under a key without the
    mode: once it has returned a score for (entity, attribute, term,
    predicate), a call in any mode returns that score, without a call of a
    classifier or any other change of the state, until [clear_cache]. *)
Theorem membership_memoized self mode mode' bid attr_name qterm pred st score st1
    (ops : list operation) :
  membership lib self mode bid attr_name qterm pred st = (Ok score, st1) ->
  OpClearCache ∉ ops ->
  let st2 := foldl (run_operation lib self) st1 ops in
  membership lib self mode' bid attr_name qterm pred st2 = (Ok score, st2).
Proof.
  intros Hrun Hops st2.
  eapply membership_replays; [exact Hrun | apply operations_grow; exact Hops].
Qed.

(** X3. Once [opine] has returned a ranking for a query, a candidate list
    and an objective policy, ranking the same query again returns the same
    list and changes nothing, in whichever mode and after whatever
    operations other than [clear_cache]: every interpretation and every
    membership score comes out of the caches. *)
Theorem opine_memoized self query bids mode mode' obj_context st ranking st1
    (ops : list operation) :
  opine lib self query bids mode obj_context st = (Ok ranking, st1) ->
  OpClearCache ∉ ops ->
  let st2 := foldl (run_operation lib self) st1 ops in
  opine lib self query bids mode' obj_context st2 = (Ok ranking, st2).
Proof.
  intros Hrun Hops st2.
  eapply opine_replays; [exact Hrun | apply operations_grow; exact Hops].
Qed.

Lemma get_features_obj_blank self attr op oprand :
  get_features_obj lib self "" (VStr "") attr op oprand
  = Ok (map Finite [0%Q] ++ map Finite (replicate (size (cate_to_id self)) 0%Q)
          ++ [Finite 0; Finite 0]).
Proof. reflexivity. Qed.

Lemma mode_score_without_data self mode obj_features bid attr_name qterm st e :
  entities st !! bid = Some e ->
  (if String.eqb mode "marker"
   then forall sm, ent_summaries e = Some sm -> sm !! attr_name = None
   else forall hs, ent_histogram e = Some hs -> hs !! attr_name = None) ->
  mode_score lib self mode obj_features bid attr_name qterm st = (Ok missing_score, st).
Proof.
  intros Hent Hno. unfold mode_score.
  rewrite (bind_run get _ st st st eq_refl). cbv beta. rewrite Hent.
  rewrite (bind_run (lift (getitem (Some e))) _ st e st eq_refl).
  destruct (String.eqb mode "marker").
  - destruct (ent_summaries e) as [sm|]; [|reflexivity].
    rewrite (Hno sm eq_refl). reflexivity.
  - destruct (ent_histogram e) as [hs|]; [|reflexivity].
    rewrite (Hno hs eq_refl). reflexivity.
Qed.

(** X4. For an entity that has no marker summary (in marker mode) or no
    histogram (in the other mode) for the attribute, the membership closure
    returns [1e-6] and stores it in the cache; it embeds nothing and calls
    no classifier. *)
Theorem membership_without_data self mode bid attr_name qterm st e :
  membership_cache st !! membership_key self bid attr_name qterm None = None ->
  entities st !! bid = Some e ->
  (if String.eqb mode "marker"
   then forall sm, ent_summaries e = Some sm -> sm !! attr_name = None
   else forall hs, ent_histogram e = Some hs -> hs !! attr_name = None) ->
  membership lib self mode bid attr_name qterm None st
  = (Ok missing_score,
     set_membership_cache (insert (membership_key self bid attr_name qterm None) missing_score)
                          st).
Proof.
  intros Hmiss Hent Hno. unfold membership. unfold membership_key in *.
  destruct (bool_decide (obj_attrs self = ∅)); cbv iota in Hmiss |- *;
    rewrite (bind_run get _ st st st eq_refl); cbv beta;
    match goal with
    | |- match ?c with _ => _ end _ = _ => replace c with (@None Q) by (symmetry; exact Hmiss)
    end.
  - rewrite (bind_run _ _ st missing_score st
               (mode_score_without_data self mode [] bid attr_name qterm st e Hent Hno)).
    reflexivity.
  - unfold obj_context_of.
    rewrite (bind_run (lift (Ok _)) _ st _ st eq_refl). cbv beta iota.
    rewrite get_features_obj_blank.
    rewrite (bind_run (lift (Ok _)) _ st _ st eq_refl).
    rewrite (bind_run _ _ st missing_score st
               (mode_score_without_data self mode _ bid attr_name qterm st e Hent Hno)).
    reflexivity.
Qed.

End Replay.

(** ** Objective predicates: case sensitivity *)

Section CaseSensitivity.

Variable lib : imports.








End CaseSensitivity.

(** * The engine on the small catalog *)

Import Fixture.

(** Python's [split] and [lower] on the terms of a query. *)
Example split_three : split " " "bool:has_wifi = True" = ["bool:has_wifi"; "="; "True"]%string.
Proof. reflexivity. Qed.

Example split_double_space : split " " "a  b" = ["a"; ""; "b"]%string.
Proof. reflexivity. Qed.

Example lower_True : lower "True" = "true"%string.
Proof. reflexivity. Qed.

Example keys_keep_first_place : keys_in_order ["a"; "b"; "a"]%string = ["a"; "b"]%string.
Proof. reflexivity. Qed.

Example sort_is_stable :
  map snd (sort_keyed [(2%Q, "x"); (1%Q, "y"); (2%Q, "z"); (1%Q, "w")]%string)
  = ["y"; "w"; "x"; "z"]%string.
Proof. reflexivity. Qed.

Lemma A_satisfies_wifi : satisfies_all lib (entities loaded) [wifi_pred] "A".
Proof.
  exists entity_A. split; [reflexivity|]. intros pred val Hin Hget.
  apply list_elem_of_singleton in Hin. subst pred.
  vm_compute in Hget. injection Hget as <-. reflexivity.
Qed.

Lemma B_violates_wifi : violates_some lib (entities loaded) [wifi_pred] "B".
Proof.
  exists entity_B, wifi_pred, (VStr "false").
  split; [reflexivity|]. split; [left|]. split; reflexivity.
Qed.

(** The scenario of the specification: an objective-only query under the
    boolean policy. *)
Lemma boolean_policy_ordering_witness :
  (opine lib opinedb wifi_query (Some ["B"; "A"]%string) "marker" "boolean" loaded).1
    = Ok ["A"; "B"]%string /\
  forall i j, ["A"; "B"]%string !! i = Some "A"%string ->
              ["A"; "B"]%string !! j = Some "B"%string -> (i < j)%nat.
Proof.
  split; [vm_compute; reflexivity|].
  eapply (boolean_policy_ordering lib opinedb wifi_query (Some ["B"; "A"]%string) "marker"
            loaded ["A"; "B"]%string _ [] [wifi_pred] _ _ "A" "B" 1%Q 1%Q).
  - vm_compute. reflexivity.
  - reflexivity.
  - reflexivity.
  - exact A_satisfies_wifi.
  - exact B_violates_wifi.
  - reflexivity.
  - reflexivity.
  - discriminate.
  - reflexivity.
Defined.

(** With three subjective terms the violating candidate comes first: A has
    no summary for the interpreted attribute and scores 1e-6 per term, B
    scores 0.5 per term and keeps 0.125e-15 after the penalty. *)
Lemma boolean_policy_ordering_counterexample :
  (opine lib opinedb
     ["good service"; "great service"; "nice service"; "bool:has_wifi = True"]%string
     (Some ["A"; "B"]%string) "marker" "boolean" loaded).1 = Ok ["B"; "A"]%string /\
  match (opine_scores lib opinedb
           ["good service"; "great service"; "nice service"; "bool:has_wifi = True"]%string
           (Some ["A"; "B"]%string) "marker" "boolean" loaded).1 with
  | Ok scores => has_score scores 1e-18 "A" = true /\ has_score scores 0.125e-15 "B" = true
  | Err _ => False
  end /\
  satisfies_all lib (entities loaded) [wifi_pred] "A" /\
  violates_some lib (entities loaded) [wifi_pred] "B".
Proof.
  split; [vm_compute; reflexivity|].
  split; [vm_compute; split; reflexivity|].
  split; [exact A_satisfies_wifi | exact B_violates_wifi].
Qed.

(** Every embedding of the small engine has 300 entries, and nothing is
    cached right after loading. *)
Lemma opinedb_embeddings w wvec :
  model_wv opinedb !! w = Some wvec -> length wvec = 300%nat.
Proof.
  intros Hw.
  assert (Hin : (w, wvec) ∈ map_to_list (model_wv opinedb))
    by (apply elem_of_map_to_list; exact Hw).
  vm_compute in Hin.
  repeat (apply elem_of_cons in Hin; destruct Hin as [Hin | Hin];
          [injection Hin as -> ->; vm_compute; reflexivity|]).
  inversion Hin.
Qed.


(** [phrase2vec] on a phrase whose second token alone has an embedding. *)
Lemma phrase2vec_total_witness :
  exists v, (phrase2vec lib opinedb "good service" loaded).1 = Ok v /\ v = unit_vector 0 /\
            length v = 300%nat.
Proof.
  destruct (phrase2vec_total lib opinedb "good service" loaded) as (v & Hrun & _ & Hmiss).
  - exact opinedb_embeddings.
  - intros w Hin [wvec Hwv]. vm_compute in Hin.
    apply elem_of_cons in Hin. destruct Hin as [-> | Hin]; [discriminate|].
    apply list_elem_of_singleton in Hin. subst w. eexists. reflexivity.
  - exists v. rewrite Hrun. split; [reflexivity|].
    destruct (Hmiss eq_refl) as (-> & Hlen & _). split; [vm_compute; reflexivity | exact Hlen].
Defined.

(** The token [pool] has an embedding and no idf weight: the lookup of the
    weight raises. *)
Lemma phrase2vec_total_counterexample :
  model_wv opinedb !! "pool"%string = Some (unit_vector 2) /\
  idf opinedb !! "pool"%string = None /\
  phrase2vec lib opinedb "nice pool" loaded = (Err KeyError, loaded).
Proof. repeat split; vm_compute; reflexivity. Qed.

(** Scoring B in marker mode reorders the marker list stored for B. *)
Lemma operations_preserve_catalog_counterexample :
  summary_of (entities loaded) "B" "service" = Ok [praise; complaint] /\
  summary_of
    (entities (run_operation lib opinedb loaded
                 (OpMembership "marker" "B" "service" "good service" None)))
    "B" "service" = Ok [complaint; praise].
Proof. split; vm_compute; reflexivity. Qed.

(** A predicate written without spaces is rejected while the query is
    decomposed. *)
Lemma opine_rejects_malformed_witness :
  opine lib opinedb ["good service"; "bool:has_wifi=True"]%string None "marker" "boolean" loaded
  = (Err ValueError, loaded).
Proof.
  apply (opine_rejects_malformed lib opinedb _ None "marker" "boolean" loaded
           "bool:has_wifi=True").
  - right. left. reflexivity.
  - split; [reflexivity|]. left. vm_compute. lia.
Defined.

(** The type tag [foo] is none of the three, and the query is decomposed
    and ranked: the predicate is handled as a numeric one. *)
Lemma opine_rejects_malformed_counterexample :
  decompose ["foo:price < 100"]%string = Ok ([], [("foo", "price", "<", "100")]%string) /\
  ~ In "foo"%string ["bool"; "cate"; "num"]%string /\
  (opine lib opinedb ["foo:price < 100"]%string (Some ["B"; "A"]%string)
     "marker" "boolean" loaded).1 = Ok ["A"; "B"]%string.
Proof.
  split; [reflexivity|]. split; [|vm_compute; reflexivity].
  simpl. intros [H|[H|[H|[]]]]; discriminate H.
Qed.

(** C5 (code defect). The cache of the co-occurrence interpreter is read
    and never written: after a call that returned, the term is still not
    cached, and the next call with the same term scans the corpus again. *)
Theorem cooc_interpret_is_not_memoized :
  let first := cooc_interpret lib (cooc opinedb) "staff" loaded in
  let second := cooc_interpret lib (cooc opinedb) "staff" first.2 in
  first.1 = Ok (Some ("service", "good service")%string) /\
  cooc_interpret_cache first.2 !! "staff"%string = None /\
  bm25_scans first.2 = 1%nat /\
  second.1 = first.1 /\
  bm25_scans second.2 = 2%nat.
Proof. repeat split; vm_compute; reflexivity. Qed.



(** With two attributes in the corpus the attribute voted for has the idf 1
    and is returned with its phrase. *)
Lemma cooc_interpret_result_witness :
  exists r, (cooc_interpret lib (cooc opinedb) "staff" loaded).1 = Ok r /\
            r = Some ("service", "good service")%string.
Proof.
  destruct (cooc_interpret_result lib (cooc opinedb) "staff" loaded)
    as (mp & sorted & r & st' & _ & _ & Hrun & _).
  - exact (CooccurInterpreter_init_wf lib reviews_two_attributes).
  - reflexivity.
  - exists r. rewrite Hrun. split; [reflexivity|].
    assert (H : (cooc_interpret lib (cooc opinedb) "staff" loaded).1
                = Ok (Some ("service", "good service")%string))
      by (vm_compute; reflexivity).
    rewrite Hrun in H. injection H as ->. reflexivity.
Defined.

(** With one attribute in the whole corpus its idf is [log2 1 = 0]: the
    one review that mentions [staff] is retained and yields a co-occurrence,
    the weighted vote is 0, and the result is (null, null). *)
Lemma cooc_interpret_result_counterexample :
  cooc_idf single_attribute_interpreter !! "service"%string = Some 0%Q /\
  match review_scores single_attribute_interpreter
          (term_count (cooc_bm25 single_attribute_interpreter) (tokenize "staff")) with
  | Ok score_mp =>
      match sort_reviews single_attribute_interpreter score_mp with
      | Ok sorted => winners lib single_attribute_interpreter "staff" score_mp sorted
      | Err _ => []
      end
  | Err _ => []
  end = [("service", "good service")]%string /\
  (cooc_interpret lib single_attribute_interpreter "staff" loaded).1 = Ok None.
Proof. repeat split; vm_compute; reflexivity. Qed.

(** The one-token term [staff] is far from the only catalogued phrase: the
    fallback is called once and its answer is returned. *)
Lemma interpret_fallback_witness :
  (interpret lib opinedb "staff" 0.4 loaded).1 = Ok ("service", "good service")%string /\
  cooc_invocations (interpret lib opinedb "staff" 0.4 loaded).2 = 1%nat.
Proof.
  edestruct (interpret_fallback lib opinedb "staff" loaded) as [Hyes _].
  - reflexivity.
  - vm_compute. reflexivity.
  - vm_compute. reflexivity.
  - vm_compute. reflexivity.
  - edestruct Hyes as [Hrun Hcount].
    + right. vm_compute. reflexivity.
    + vm_compute. reflexivity.
    + rewrite Hrun. split; [reflexivity|]. vm_compute. reflexivity.
Defined.



(** The same query under the boolean policy: B is penalized, A, which is in
    [Paris], is not. A [bool] predicate written in capitals matches the
    value [true] of A under both policies. *)
Example city_query_boolean :
  match (opine_scores lib opinedb city_query (Some ["A"; "B"; "C"]%string)
           "marker" "boolean" loaded).1 with
  | Ok scores => has_score scores 0.5e-15 "B" = true /\ has_score scores 1e-6 "A" = true
  | Err _ => False
  end.
Proof. vm_compute. split; reflexivity. Qed.

Example wifi_in_capitals :
  forall policy, policy ∈ ["agnostic"; "boolean"]%string ->
    match (opine_scores lib opinedb ["bool:has_wifi = TRUE"]%string (Some ["A"; "B"]%string)
             "marker" policy loaded).1 with
    | Ok scores => has_score scores 1 "A" = true /\ has_score scores 1 "B" = false
    | Err _ => False
    end.
Proof.
  intros policy Hp. apply elem_of_cons in Hp as [-> | Hp];
    [|apply list_elem_of_singleton in Hp; subst policy]; vm_compute; split; reflexivity.
Qed.


(** ** Further runs on the small catalog *)

(** The term [good service] is interpreted from its nearest phrase; asked
    again with a threshold that would send it to the fallback, the cached
    pair comes back. *)
Lemma interpret_memoized_witness :
  let st1 := (interpret lib opinedb "good service" default_threshold loaded).2 in
  let st2 := foldl (run_operation lib opinedb) st1 [OpPhrase2vec "staff"] in
  cooc_invocations st2 = 0%nat /\
  interpret lib opinedb "good service" 2 st2 = (Ok ("service", "good service")%string, st2).
Proof.
  split; [vm_compute; reflexivity|].
  apply (interpret_memoized lib opinedb "good service" default_threshold 2 loaded
           ("service", "good service")%string
           (interpret lib opinedb "good service" default_threshold loaded).2
           [OpPhrase2vec "staff"]).
  - vm_compute. reflexivity.
  - intros H. apply list_elem_of_singleton in H. discriminate H.
Defined.

(** C has markers and no histogram for [service]: scored first in marker
    mode it keeps that score in the other mode, where a fresh call gives
    the score of missing data. *)
Lemma membership_memoized_witness :
  let st1 := (membership lib opinedb "marker" "C" "service" "good service" None loaded).2 in
  let st2 := foldl (run_operation lib opinedb) st1 [OpInterpret "staff" default_threshold] in
  (membership lib opinedb "histogram" "C" "service" "good service" None loaded).1
    = Ok missing_score /\
  membership lib opinedb "histogram" "C" "service" "good service" None st2 = (Ok 0.5%Q, st2).
Proof.
  split; [vm_compute; reflexivity|].
  apply (membership_memoized lib opinedb "marker" "histogram" "C" "service" "good service" None
           loaded 0.5%Q
           (membership lib opinedb "marker" "C" "service" "good service" None loaded).2
           [OpInterpret "staff" default_threshold]).
  - vm_compute. reflexivity.
  - intros H. apply list_elem_of_singleton in H. discriminate H.
Defined.

(** The same for a whole ranking: after the ranking in marker mode, the
    other mode returns it again, where a fresh ranking leaves A and C tied. *)
Lemma opine_memoized_witness :
  let st1 := (opine lib opinedb ["good service"]%string (Some ["A"; "C"]%string)
                "marker" "boolean" loaded).2 in
  let st2 := foldl (run_operation lib opinedb) st1 [OpPhrase2vec "staff"] in
  (opine lib opinedb ["good service"]%string (Some ["A"; "C"]%string)
     "histogram" "boolean" loaded).1 = Ok ["A"; "C"]%string /\
  opine lib opinedb ["good service"]%string (Some ["A"; "C"]%string) "histogram" "boolean" st2
  = (Ok ["C"; "A"]%string, st2).
Proof.
  split; [vm_compute; reflexivity|].
  apply (opine_memoized lib opinedb ["good service"]%string (Some ["A"; "C"]%string)
           "marker" "histogram" "boolean" loaded ["C"; "A"]%string
           (opine lib opinedb ["good service"]%string (Some ["A"; "C"]%string)
              "marker" "boolean" loaded).2
           [OpPhrase2vec "staff"]).
  - vm_compute. reflexivity.
  - intros H. apply list_elem_of_singleton in H. discriminate H.
Defined.

(** A has no marker summary for [service]. *)
Lemma membership_without_data_witness :
  membership lib opinedb "marker" "A" "service" "good service" None loaded
  = (Ok missing_score,
     set_membership_cache
       (insert (membership_key opinedb "A" "service" "good service" None) missing_score) loaded) /\
  calls (membership lib opinedb "marker" "A" "service" "good service" None loaded).2 = [].
Proof.
  assert (Hrun := membership_without_data lib opinedb "marker" "A" "service" "good service"
                    loaded entity_A).
  split.
  - apply Hrun.
    + vm_compute. reflexivity.
    + reflexivity.
    + cbn. intros sm Hsm. injection Hsm as <-. apply lookup_empty.
  - vm_compute. reflexivity.
Defined.

(** A query of one subjective term and one objective predicate. *)
Lemma decompose_wellformed_witness :
  exists objs,
    decompose ["good service"; "bool:has_wifi = True"]%string
    = Ok (subjective_terms ["good service"; "bool:has_wifi = True"]%string, objs) /\
    Forall2 parses_as (objective_terms ["good service"; "bool:has_wifi = True"]%string) objs.
Proof.
  apply (decompose_wellformed ["good service"; "bool:has_wifi = True"]%string).
  intros qterm Hin [Hc Hbad].
  apply elem_of_cons in Hin. destruct Hin as [-> | Hin]; [discriminate Hc|].
  apply list_elem_of_singleton in Hin. subst qterm.
  destruct Hbad as [Hbad | Hbad]; apply Hbad; reflexivity.
Defined.

(** The objective-only query of the specification's scenario under the
    default policy: B lacks wifi and stays first. *)
Lemma opine_without_subjective_terms_witness :
  opine lib opinedb wifi_query (Some ["B"; "A"]%string) "marker" "sensitive" loaded
  = (Ok ["B"; "A"]%string, loaded).
Proof.
  apply (opine_without_subjective_terms lib opinedb wifi_query (Some ["B"; "A"]%string)
           "marker" "sensitive" loaded).
  - intros qterm Hin. apply list_elem_of_singleton in Hin. subst qterm.
    split; [reflexivity|]. intros [_ [Hbad | Hbad]]; apply Hbad; reflexivity.
  - discriminate.
  - discriminate.
Defined.

(** The policy [ignore] of the evaluation. *)
Lemma opine_unknown_policy_witness :
  opine lib opinedb ["good service"; "bool:has_wifi = True"]%string (Some ["A"; "B"]%string)
    "marker" "ignore" loaded
  = opine lib opinedb ["good service"]%string (Some ["A"; "B"]%string) "marker" "ignore" loaded.
Proof.
  apply (opine_unknown_policy lib opinedb ["good service"; "bool:has_wifi = True"]%string
           (Some ["A"; "B"]%string) "marker" "ignore" loaded).
  - intros qterm Hin [Hc Hbad].
    apply elem_of_cons in Hin. destruct Hin as [-> | Hin]; [discriminate Hc|].
    apply list_elem_of_singleton in Hin. subst qterm.
    destruct Hbad as [Hbad | Hbad]; apply Hbad; reflexivity.
  - discriminate.
  - discriminate.
  - discriminate.
Defined.

Lemma exp_approx_positive (x e : Q) : exp_approx x = Some e -> (0 < e)%Q.
Proof.
  unfold exp_approx. intros H. injection H as <-.
  destruct (Qle_bool 0 x) eqn:Hx.
  - apply Qle_bool_iff in Hx. apply Qlt_le_trans with (1 + 0)%Q; [reflexivity|].
    apply Qplus_le_r. exact Hx.
  - assert (Hneg : (x < 0)%Q).
    { apply Qnot_le_lt. intros Hc. apply Qle_bool_iff in Hc. congruence. }
    assert (Hpos : (0 < 1 - x)%Q).
    { apply Qlt_trans with (1 + 0)%Q; [reflexivity|]. unfold Qminus. apply Qplus_lt_r.
      exact (Qopp_lt_compat x 0 Hneg). }
    apply Qlt_shift_div_l; [exact Hpos|]. rewrite Qmult_0_l. reflexivity.
Qed.

(** A price of 50 against the predicates [price < 100] and [price < nan]. *)
Lemma agnostic_factor_bounds_witness :
  agnostic_factor lib opinedb ("num", "price", "<", "100")%string (VNum 50)
  = Ok (Some (Finite (151 # 252))) /\
  agnostic_factor lib opinedb ("num", "price", "<", "nan")%string (VNum 50) = Ok (Some NaN) /\
  (0 <= 151 # 252)%Q /\ (151 # 252 <= 1)%Q.
Proof.
  split; [vm_compute; reflexivity|]. split; [vm_compute; reflexivity|].
  destruct (agnostic_factor_bounds lib opinedb ("num", "price", "<", "100")%string (VNum 50)
              (Finite (151 # 252))
              (fun x e H => Qlt_le_weak _ _ (exp_approx_positive x e H)))
    as [Hnan | (q & Hq & H0 & H1)].
  - vm_compute. reflexivity.
  - discriminate Hnan.
  - injection Hq as <-. split; assumption.
Defined.

(** Three rows for the entities of the catalog and one for an unknown
    entity, which is skipped before its price is parsed. *)
Lemma load_objective_attributes_wf_witness :
  exists sch, load_objective_attributes lib catalog attribute_rows = Ok sch /\
              sch_cate_to_id sch = (<["Paris" := 0%nat]> (<["paris" := 1%nat]> ∅))%string /\
              schema_wf (sch_obj_attrs sch) (sch_cate_to_id sch).
Proof.
  destruct (load_objective_attributes lib catalog attribute_rows) as [sch|e] eqn:Hload;
    [|vm_compute in Hload; discriminate Hload].
  exists sch. split; [reflexivity|]. split.
  - vm_compute in Hload. injection Hload as <-. vm_compute. reflexivity.
  - apply (load_objective_attributes_wf lib catalog attribute_rows). exact Hload.
Defined.

(** A file whose first price is [nan]: the range has [nan] at both ends,
    and the later price does not change it. *)
Example load_nan_range :
  match load_objective_attributes lib catalog
          [[("ID", "A"); ("num:price", "nan")]; [("ID", "B"); ("num:price", "150")]]%string with
  | Ok sch => attr_range <$> (sch_obj_attrs sch !! "price"%string) = Some (Some (NaN, NaN))
  | Err _ => False
  end.
Proof. vm_compute. reflexivity. Qed.

(** Two categories: one feature for the boolean test, two for the
    categories, two for the numeric difference. *)
Lemma get_features_obj_length_witness :
  get_features_obj lib opinedb "cate" (VStr "Paris") "city" "=" "paris"
  = Ok (map Finite [0%Q; 1%Q; (-1)%Q; 0%Q; 0%Q]) /\
  length (map Finite [0%Q; 1%Q; (-1)%Q; 0%Q; 0%Q]) = (size (cate_to_id opinedb) + 3)%nat.
Proof.
  split; [vm_compute; reflexivity|].
  apply (get_features_obj_length lib opinedb "cate" (VStr "Paris") "city" "=" "paris").
  vm_compute. reflexivity.
Defined.

(** All markers of [service] are equally close to the phrase; the last one
    visited is named. *)
Lemma get_marker_nearest_witness :
  exists vector,
    phrase2vec lib opinedb "good service" loaded
    = (Ok vector, (get_marker lib opinedb "service" "good service" loaded).2) /\
    nearest_marker lib vector
      (markers_of (entities (get_marker lib opinedb "service" "good service" loaded).2)
                  (entity_ids opinedb) "service")
      "good service".
Proof.
  apply (get_marker_nearest lib opinedb "service" "good service" loaded (Some "good service"%string)).
  vm_compute. reflexivity.
Defined.

(** A costs 50: the term [price < 100] counts 1. *)
Lemma get_query_score_numeric_witness :
  get_query_score lib catalog labels "A" ["num:price < 100"]%string = Ok (0 + 1)%Q.
Proof.
  apply (get_query_score_numeric lib catalog labels "A" "num:price < 100" "price" "<" "100"
           entity_A (VNum 50) (Finite 50) (Finite (inject_Z 100)) false).
  - reflexivity.
  - exists "num:price"%string. split; reflexivity.
  - reflexivity.
  - reflexivity.
  - reflexivity.
  - vm_compute. reflexivity.
  - discriminate.
  - discriminate.
  - vm_compute. reflexivity.
Defined.

(** A has wifi and is labelled relevant: the term counts 0. *)
Lemma get_query_score_categorical_witness :
  labels !! ("A", "bool:has_wifi = True")%string = Some 1%Q /\
  violates lib wifi_pred (VStr "true") = Ok false /\
  exists total, get_query_score lib catalog labels "A" wifi_query = Ok total /\ (total == 0)%Q.
Proof.
  split; [reflexivity|]. split; [reflexivity|].
  apply (get_query_score_categorical lib catalog labels "A" wifi_query entity_A).
  - reflexivity.
  - intros qterm Hin. apply list_elem_of_singleton in Hin. subst qterm.
    exists "bool"%string, "has_wifi"%string, "="%string, "True"%string, "true"%string.
    split; [reflexivity|]. split; [exists "bool:has_wifi"%string; split; reflexivity|].
    split; [left; reflexivity | reflexivity].
Defined.

(** The histogram of B: three occurrences of a positive phrase similar to
    the term. *)
Lemma get_features_phrases_counts_witness :
  exists sim mean_sim mean_all pos neg pos_match neg_match similarity,
    [4%Q; 24 # 40; 24 # 40; 3%Q; 0%Q; 3%Q; 0%Q; 3 # 3]
    = [sim; mean_sim; mean_all; pos; neg; pos_match; neg_match; similarity] /\
    (pos + neg == total_count [("good service"%string, 3%Q)])%Q /\
    (pos_match + neg_match == sim - 1)%Q.
Proof.
  apply (get_features_phrases_counts lib opinedb [("good service"%string, 3%Q)] "good service"
           loaded _ (get_features_phrases lib opinedb [("good service"%string, 3%Q)]
                       "good service" loaded).2).
  vm_compute. reflexivity.
Defined.

(** The embeddings of the small catalog are unit vectors of dimension 300. *)
Lemma phrase2vec_dimension_witness :
  exists v, (phrase2vec lib opinedb "good service" loaded).1 = Ok v /\ length v = 300%nat.
Proof.
  destruct (phrase2vec lib opinedb "good service" loaded) as [[v|e] st'] eqn:Hrun;
    [|vm_compute in Hrun; discriminate Hrun].
  exists v. split; [reflexivity|].
  apply (phrase2vec_dimension lib opinedb "good service" loaded v st').
  - intros w wvec Hw.
    assert (Hin : (w, wvec) ∈ map_to_list (model_wv opinedb))
      by (apply elem_of_map_to_list; exact Hw).
    vm_compute in Hin.
    repeat (apply elem_of_cons in Hin; destruct Hin as [Hin | Hin];
            [injection Hin as -> ->; vm_compute; reflexivity|]).
    inversion Hin.
  - intros p c Hc. vm_compute in Hc. discriminate Hc.
  - exact Hrun.
Defined.

(** C has none of the objective attributes: the wifi predicate leaves its
    score alone while B is penalized. *)
Lemma score_objective_skips_witness :
  exists scores',
    score_objective (boolean_factor lib) catalog ["B"; "C"]%string [wifi_pred]
      (initial_scores ["B"; "C"]%string) = Ok scores' /\
    scores' !! "C"%string = initial_scores ["B"; "C"]%string !! "C"%string /\
    has_score scores' 1e-15 "B" = true.
Proof.
  destruct (score_objective (boolean_factor lib) catalog ["B"; "C"]%string [wifi_pred]
              (initial_scores ["B"; "C"]%string)) as [scores'|e] eqn:Hrun;
    [|vm_compute in Hrun; discriminate Hrun].
  exists scores'. split; [reflexivity|]. split.
  - apply (score_objective_skips (boolean_factor lib) catalog ["B"; "C"]%string [wifi_pred]
             (initial_scores ["B"; "C"]%string) scores' "C" entity_C Hrun).
    + reflexivity.
    + intros pred Hin. apply list_elem_of_singleton in Hin. subst pred. reflexivity.
  - vm_compute in Hrun. injection Hrun as <-. vm_compute. reflexivity.
Defined.
